(** * Type validation, value casting and runtime-type matching
      (pkg/api/userconfig/validators.go)

    A shallow embedding of the validators of the userconfig package and the
    properties its specification states about them.

    Conventions of the embedding.
    - A Go [interface{}] document node is a [Value].  Go map keys must be
      comparable, so among the document kinds only nil and the four scalars
      can be keys: keys are [Scalar]s.
    - A Go map is an association list.  The order of the list is the order in
      which [range] enumerates the map on that call; Go leaves that order
      unspecified, so two lists that are permutations of each other stand for
      the same map.
    - A 64-bit float is carried as its bit pattern; the validators never do
      arithmetic on it.  Two keys are the same key when they are the same
      scalar.
    - A call returns [Ok], an error ([Err]) or a run-time panic ([Panic],
      index out of range). *)

From Stdlib Require Import ZArith List String Ascii Bool Lia Permutation.
From Stdlib Require Import DecimalString.
Import ListNotations.

Set Implicit Arguments.
Set Warnings "-register-all".

(** ** Document values *)

Inductive Scalar : Type :=
| SNil
| SInt (n : Z)
| SFloat (bits : Z)
| SStr (s : string)
| SBool (b : bool).

Inductive Value : Type :=
| VScalar (k : Scalar)
| VList (items : list Value)
| VMap (entries : list (Scalar * Value)).

Abbreviation VNil := (VScalar SNil).
Abbreviation VInt n := (VScalar (SInt n)).
Abbreviation VFloat f := (VScalar (SFloat f)).
Abbreviation VStr s := (VScalar (SStr s)).
Abbreviation VBool b := (VScalar (SBool b)).

Definition Scalar_eq_dec (a b : Scalar) : {a = b} + {a <> b}.
Proof.
  decide equality; [apply Z.eq_dec | apply Z.eq_dec | apply string_dec | apply bool_dec].
Defined.

(** Induction over values that reaches the elements of lists and maps. *)
Section ValueInduction.
Variable P : Value -> Prop.
Hypothesis Hscalar : forall k, P (VScalar k).
Hypothesis Hlist : forall items, Forall P items -> P (VList items).
Hypothesis Hmap : forall entries, Forall (fun e => P (snd e)) entries -> P (VMap entries).

Fixpoint Value_nested_ind (v : Value) : P v :=
  match v with
  | VScalar k => Hscalar k
  | VList items =>
      Hlist ((fix go (l : list Value) : Forall P l :=
                match l with
                | [] => Forall_nil P
                | x :: r => Forall_cons x (Value_nested_ind x) (go r)
                end) items)
  | VMap entries =>
      Hmap ((fix go (l : list (Scalar * Value)) : Forall (fun e => P (snd e)) l :=
               match l with
               | [] => Forall_nil _
               | e :: r => Forall_cons (P := fun e => P (snd e)) e (Value_nested_ind (snd e)) (go r)
               end) entries)
  end.
End ValueInduction.

(** ** Go maps as association lists *)

Module GoMap.
Section Ops.
Variables (K V : Type).
Variable eq_dec : forall a b : K, {a = b} + {a <> b}.

(** [m[k]] with the comma-ok form. *)
Fixpoint get (m : list (K * V)) (k : K) : option V :=
  match m with
  | [] => None
  | (k', v) :: r => if eq_dec k' k then Some v else get r k
  end.

(** [m[k] = v]: replaces the entry of an existing key, adds one otherwise. *)
Fixpoint set (m : list (K * V)) (k : K) (v : V) : list (K * V) :=
  match m with
  | [] => [(k, v)]
  | (k', v') :: r => if eq_dec k' k then (k', v) :: r else (k', v') :: set r k v
  end.
End Ops.
End GoMap.

Definition mapGet := GoMap.get Scalar_eq_dec (V := Value).
Definition mapSet := GoMap.set Scalar_eq_dec (V := Value).
Definition argGet := GoMap.get string_dec (V := Value).

(** ** Errors *)

Inductive PrimitiveType : Type :=
| PrimTypeInt | PrimTypeFloat | PrimTypeString | PrimTypeBool
| PrimTypeList | PrimTypeMap | PrimTypeStringList.

(** Modelled from the spec: the location path of an error is an ordered list of
    field-name and index segments ([errors.Wrap], [s.UserStrStripped],
    [s.UserStr] and [s.Index] are not in the sources).  A segment keeps the key,
    name, index or value it was rendered from. *)
Inductive Segment : Type :=
| SegKey (k : Scalar)
| SegName (name : string)
| SegIndex (i : nat)
| SegValue (v : Value).

Inductive ErrorKind : Type :=
| ErrorInvalidValueDataType (provided : Value)
| ErrorTypeListLength (provided : list string)
| ErrorGenericTypeMapLength (provided : list (Scalar * Value))
| ErrorArgNameCannotBeType (name : string)
| ErrorInvalidColumnInputType (provided : Value)
| ErrorUnsupportedDataType (runtime schema : Value)
| ErrorInvalidPrimitiveType (provided : Value) (allowed : list PrimitiveType)
| ErrorMustBeDefined
| ErrorMapMustBeDefined (keys : list string)
| ErrorUnsupportedKey (key : Scalar)
| ErrorMustBeEmpty.

Record Error : Type := mkError { path : list Segment; kind : ErrorKind }.

Definition raise (k : ErrorKind) : Error := mkError [] k.

(** Modelled from the spec: [errors.Wrap(err, segs...)] prepends the segments to
    the location path and keeps the cause. *)
Definition Wrap (e : Error) (segs : list Segment) : Error :=
  mkError (segs ++ path e) (kind e).

Inductive result (A : Type) : Type :=
| Ok (a : A)
| Err (e : Error)
| Panic.
Arguments Err {A} e.
Arguments Panic {A}.

Definition bind {A B : Type} (r : result A) (f : A -> result B) : result B :=
  match r with
  | Ok a => f a
  | Err e => Err e
  | Panic => Panic
  end.

(** [if err != nil { return nil, errors.Wrap(err, segs...) }] *)
Definition wrapErr {A : Type} (r : result A) (segs : list Segment) : result A :=
  match r with
  | Ok a => Ok a
  | Err e => Err (Wrap e segs)
  | Panic => Panic
  end.

Notation "x <- r ;; k" := (bind r (fun x => k))
  (at level 61, r at next level, right associativity).

Definition is_ok {A : Type} (r : result A) : bool :=
  match r with Ok _ => true | _ => false end.

Definition is_panic {A : Type} (r : result A) : bool :=
  match r with Panic => true | _ => false end.

(** ** Library functions the validators call *)

(** [strings.Split(s, sep)] for a one-character separator: the pieces between
    the separators, one piece (the empty string) for the empty string. *)
Fixpoint Split (s : string) (sep : ascii) : list string :=
  match s with
  | EmptyString => [EmptyString]
  | String c r =>
      if Ascii.eqb c sep then EmptyString :: Split r sep
      else match Split r sep with
           | piece :: pieces => String c piece :: pieces
           | [] => [String c EmptyString]
           end
  end.

(** Modelled from the spec: [slices.HasString] (not in the sources) is the
    set-containment primitive, membership of a string in a slice. *)
Definition HasString (list : list string) (query : string) : bool :=
  existsb (String.eqb query) list.

Inductive ValueType : Type :=
| IntegerValueType | FloatValueType | StringValueType | BoolValueType.

(** Modelled from the spec: the names of the value kinds ([ValueType.String] and
    [ValueTypeStrings] are not in the sources), as the spec's examples write
    them. *)
Definition ValueType_String (t : ValueType) : string :=
  match t with
  | IntegerValueType => "INT"
  | FloatValueType => "FLOAT"
  | StringValueType => "STRING"
  | BoolValueType => "BOOL"
  end.

Definition ValueTypeStrings : list string :=
  map ValueType_String [IntegerValueType; FloatValueType; StringValueType; BoolValueType].

Fixpoint allStrings (items : list Value) : option (list string) :=
  match items with
  | [] => Some []
  | VStr s :: r => option_map (cons s) (allStrings r)
  | _ :: _ => None
  end.

(** Modelled from the spec: [cast.InterfaceToStrSlice] (not in the sources)
    decodes a sequence whose elements are all strings; nil decodes to the nil
    slice, which [ValidateColumnInputValues] tests for after a successful
    decode. *)
Definition InterfaceToStrSlice (v : Value) : option (list string) :=
  match v with
  | VNil => Some []
  | VList items => allStrings items
  | _ => None
  end.

(** Modelled from the spec: [cast.InterfaceToInterfaceSlice] (not in the
    sources) decodes any sequence; nil is taken to decode to the nil slice, as
    for the string slice. *)
Definition InterfaceToInterfaceSlice (v : Value) : option (list Value) :=
  match v with
  | VNil => Some []
  | VList items => Some items
  | _ => None
  end.

(** Modelled from the spec: [cast.InterfaceToInterfaceInterfaceMap] (not in the
    sources) decodes any map; nil is taken to decode to the nil map, as for the
    string slice. *)
Definition InterfaceToInterfaceInterfaceMap (v : Value) : option (list (Scalar * Value)) :=
  match v with
  | VNil => Some []
  | VMap entries => Some entries
  | _ => None
  end.

(** The numeric coercions of the cast package are not in the sources; the
    validators are embedded over any pair of them. *)
Class CastLib : Type := {
  InterfaceToInt64 : Value -> option Z;
  InterfaceToFloat64 : Value -> option Z
}.

(** [value.(string)] and [value.(bool)] *)
Definition assertString (v : Value) : option string :=
  match v with VStr s => Some s | _ => None end.

Definition assertBool (v : Value) : option bool :=
  match v with VBool b => Some b | _ => None end.

Definition isNil (v : Value) : bool :=
  match v with VNil => true | _ => false end.

(** ** The value-type grammar *)

Definition pipe : ascii := "|"%char.

(** Modelled from the spec: the names of the column kinds ([ColumnTypeStrings]
    is not in the sources) are a fixed, closed enumeration; the validators are
    embedded over any such list of names. *)
Section ColumnTypes.
Variable ColumnTypeStrings : list string.

(** validators.go, lines 30-37. *)
Definition isValidColumnInputType (columnTypeStr : string) : bool :=
  forallb (fun columnTypeStrItem => HasString ColumnTypeStrings columnTypeStrItem)
          (Split columnTypeStr pipe).

(** The body of the loop of [ValidateColumnInputTypes] for one entry: a string,
    then a string slice of length 1, else an error (lines 50-67). *)
Definition validateColumnInputType (columnInputName : string) (columnType : Value)
  : result unit :=
  match assertString columnType with
  | Some columnTypeStr =>
      if negb (isValidColumnInputType columnTypeStr)
      then Err (Wrap (raise (ErrorInvalidColumnInputType (VStr columnTypeStr)))
                     [SegName columnInputName])
      else Ok tt
  | None =>
      match InterfaceToStrSlice columnType with
      | Some columnTypeStrs =>
          if negb (List.length columnTypeStrs =? 1)
          then Err (Wrap (raise (ErrorTypeListLength columnTypeStrs)) [SegName columnInputName])
          else match columnTypeStrs with
               | columnTypeStr0 :: _ =>
                   if negb (isValidColumnInputType columnTypeStr0)
                   then Err (Wrap (raise (ErrorInvalidColumnInputType
                                            (VList (map (fun s => VStr s) columnTypeStrs))))
                                  [SegName columnInputName])
                   else Ok tt
               | [] => Panic
               end
      | None =>
          Err (Wrap (raise (ErrorInvalidColumnInputType columnType)) [SegName columnInputName])
      end
  end.

(** validators.go, lines 48-71. *)
Fixpoint ValidateColumnInputTypes (columnTypes : list (string * Value)) : result unit :=
  match columnTypes with
  | [] => Ok tt
  | (columnInputName, columnType) :: rest =>
      _ <- validateColumnInputType columnInputName columnType ;;
      ValidateColumnInputTypes rest
  end.
End ColumnTypes.

(** validators.go, lines 39-46. *)
Definition isValidValueType (valueTypeStr : string) : bool :=
  forallb (fun valueTypeStrItem => HasString ValueTypeStrings valueTypeStrItem)
          (Split valueTypeStr pipe).

(** [ValidateValueType] on a type expression that is not a map: the string
    case (lines 185-190), the string-slice case (lines 192-200; the index is
    taken after the length test) and the final error (line 231). *)
Definition validateFlatType (valueType : Value) : result unit :=
  match assertString valueType with
  | Some valueTypeStr =>
      if negb (isValidValueType valueTypeStr)
      then Err (raise (ErrorInvalidValueDataType (VStr valueTypeStr)))
      else Ok tt
  | None =>
      match InterfaceToStrSlice valueType with
      | Some valueTypeStrs =>
          if negb (List.length valueTypeStrs =? 1)
          then Err (Wrap (raise (ErrorTypeListLength valueTypeStrs)) [])
          else match valueTypeStrs with
               | valueTypeStr0 :: _ =>
                   if negb (isValidValueType valueTypeStr0)
                   then Err (raise (ErrorInvalidValueDataType (VStr valueTypeStr0)))
                   else Ok tt
               | [] => Panic
               end
      | None => Err (raise (ErrorInvalidValueDataType valueType))
      end
  end.

(** [strKey, ok := key.(string); ok && isValidValueType(strKey)] *)
Definition isGenericKey (key : Scalar) : bool :=
  match key with
  | SStr strKey => isValidValueType strKey
  | _ => false
  end.

Definition foundGenericKey (valueTypeMap : list (Scalar * Value)) : bool :=
  existsb (fun e => isGenericKey (fst e)) valueTypeMap.

(** The second loop of the map case of [ValidateValueType] (lines 216-227), over
    a validator for the entries' values.  The error of a key is returned as it
    is, the error of a value is wrapped with the key. *)
Definition validateEntries (validate : Value -> result unit) (found : bool)
  : list (Scalar * Value) -> result unit :=
  fix range (entries : list (Scalar * Value)) : result unit :=
    match entries with
    | [] => Ok tt
    | (key, val) :: rest =>
        _ <- (if found then validateFlatType (VScalar key) else Ok tt) ;;
        _ <- wrapErr (validate val) [SegKey key] ;;
        range rest
    end.

(** validators.go, lines 184-232.  The source tests for a string, then for a
    string slice, then for a map; a map is neither of the first two. *)
Fixpoint ValidateValueType (valueType : Value) : result unit :=
  match valueType with
  | VMap valueTypeMap =>
      let found := foundGenericKey valueTypeMap in
      if found && negb (List.length valueTypeMap =? 1)
      then Err (raise (ErrorGenericTypeMapLength valueTypeMap))
      else validateEntries ValidateValueType found valueTypeMap
  | _ => validateFlatType valueType
  end.

(** validators.go, lines 244-246. *)
Definition ValidateValue (value : Value) : result unit := Ok tt.

(** validators.go, lines 171-182. *)
Fixpoint ValidateArgTypes (argTypes : list (string * Value)) : result unit :=
  match argTypes with
  | [] => Ok tt
  | (argName, valueType) :: rest =>
      if isValidValueType argName
      then Err (raise (ErrorArgNameCannotBeType argName))
      else _ <- wrapErr (ValidateValueType valueType) [SegName argName] ;;
           ValidateArgTypes rest
  end.


(** ** The value caster *)

Section Caster.
Context {castLib : CastLib}.

Definition hasKind (validTypes : list string) (t : ValueType) : bool :=
  HasString validTypes (ValueType_String t).

Definition namesIf (present : bool) (name : PrimitiveType) : list PrimitiveType :=
  if present then [name] else [].

(** The string case of [CastValue] (lines 262-293): the four attempts in the
    order the source writes them, and the names collected for the final
    error. *)
Definition castUnion (value : Value) (valueTypeStr : string) : result Scalar :=
  let validTypes := Split valueTypeStr pipe in
  let hasInt := hasKind validTypes IntegerValueType in
  let hasFloat := hasKind validTypes FloatValueType in
  let hasString := hasKind validTypes StringValueType in
  let hasBool := hasKind validTypes BoolValueType in
  match (if hasInt then InterfaceToInt64 value else None) with
  | Some valueInt => Ok (SInt valueInt)
  | None =>
  match (if hasFloat then InterfaceToFloat64 value else None) with
  | Some valueFloat => Ok (SFloat valueFloat)
  | None =>
  match (if hasString then assertString value else None) with
  | Some valueStr => Ok (SStr valueStr)
  | None =>
  match (if hasBool then assertBool value else None) with
  | Some valueBool => Ok (SBool valueBool)
  | None =>
      Err (raise (ErrorInvalidPrimitiveType value
             (namesIf hasInt PrimTypeInt ++ namesIf hasFloat PrimTypeFloat
              ++ namesIf hasString PrimTypeString ++ namesIf hasBool PrimTypeBool)))
  end end end end.

(** [CastValue] against a string type expression; the result is a scalar. *)
Definition castValueStr (value : Value) (valueTypeStr : string) : result Scalar :=
  _ <- ValidateValueType (VStr valueTypeStr) ;;
  _ <- ValidateValue value ;;
  if isNil value then Ok SNil else castUnion value valueTypeStr.

(** The loop of the generic-map case (lines 325-335), over a caster for the
    entries' values.  The error of a key is returned as it is, the error of a
    value is wrapped with the key. *)
Definition castGenericEntries (castVal : Value -> result Value) (genericMapKeyType : string)
  : list (Scalar * Value) -> list (Scalar * Value) -> result (list (Scalar * Value)) :=
  fix range (entries valueMapCasted : list (Scalar * Value)) :=
    match entries with
    | [] => Ok valueMapCasted
    | (valueKey, valueVal) :: rest =>
        valueKeyCasted <- castValueStr (VScalar valueKey) genericMapKeyType ;;
        valueValCasted <- wrapErr (castVal valueVal) [SegKey valueKey] ;;
        range rest (mapSet valueMapCasted valueKeyCasted valueValCasted)
    end.

(** The first loop of the fixed-map case (lines 341-351), over the schema's
    entries. *)
Definition castFixedEntries (castAs : Value -> Value -> result Value)
           (valueMap : list (Scalar * Value))
  : list (Scalar * Value) -> list (Scalar * Value) -> result (list (Scalar * Value)) :=
  fix range (typeEntries valueMapCasted : list (Scalar * Value)) :=
    match typeEntries with
    | [] => Ok valueMapCasted
    | (valueKey, valueType) :: rest =>
        match mapGet valueMap valueKey with
        | None => Err (Wrap (raise ErrorMustBeDefined) [SegKey valueKey])
        | Some valueVal =>
            valueValCasted <- wrapErr (castAs valueVal valueType) [SegKey valueKey] ;;
            range rest (mapSet valueMapCasted valueKey valueValCasted)
        end
    end.

(** The second loop of the fixed-map case (lines 352-356), over the value's
    entries. *)
Fixpoint checkKeysSupported (valueTypeMap entries : list (Scalar * Value)) : result unit :=
  match entries with
  | [] => Ok tt
  | (valueKey, _) :: rest =>
      match mapGet valueTypeMap valueKey with
      | None => Err (raise (ErrorUnsupportedKey valueKey))
      | Some _ => checkKeysSupported valueTypeMap rest
      end
  end.

(** The loop of the list case (lines 367-373). *)
Fixpoint castItems (valueTypeStr : string) (items : list Value) (i : nat)
  : result (list Value) :=
  match items with
  | [] => Ok []
  | valueItem :: rest =>
      valueItemCasted <- wrapErr (castValueStr valueItem valueTypeStr) [SegIndex i] ;;
      restCasted <- castItems valueTypeStr rest (S i) ;;
      Ok (VScalar valueItemCasted :: restCasted)
  end.

(** The list case of [CastValue] (lines 360-377), reached when the type
    expression is neither a string nor a map. *)
Definition castList (value valueType : Value) : result Value :=
  match InterfaceToStrSlice valueType with
  | Some valueTypeStrs =>
      match valueTypeStrs with
      | [] => Panic
      | valueTypeStr :: _ =>
          match InterfaceToInterfaceSlice value with
          | None => Err (raise (ErrorInvalidPrimitiveType value [PrimTypeList]))
          | Some valueSlice =>
              valueSliceCasted <- castItems valueTypeStr valueSlice 0 ;;
              Ok (VList valueSliceCasted)
          end
      end
  | None => Err (raise (ErrorInvalidValueDataType valueType))
  end.

(** The map case of [CastValue] for an empty type map (lines 301-306). *)
Definition castEmptyMap (valueMap : list (Scalar * Value)) : result Value :=
  if List.length valueMap =? 0 then Ok (VMap [])
  else Err (Wrap (raise ErrorMustBeEmpty) [SegValue (VMap valueMap)]).

(** validators.go, lines 248-378.  The source tests the type expression for a
    string, then for a map (nil decodes to the empty map), then for a string
    slice. *)
Fixpoint CastValue (value valueType : Value) {struct valueType} : result Value :=
  _ <- ValidateValueType valueType ;;
  _ <- ValidateValue value ;;
  if isNil value then Ok VNil else
  match valueType with
  | VStr valueTypeStr =>
      casted <- castUnion value valueTypeStr ;; Ok (VScalar casted)
  | VMap valueTypeMap =>
      match InterfaceToInterfaceInterfaceMap value with
      | None => Err (raise (ErrorInvalidPrimitiveType value [PrimTypeMap]))
      | Some valueMap =>
          if List.length valueTypeMap =? 0 then castEmptyMap valueMap
          else
            let fixedMap :=
              valueMapCasted <- castFixedEntries (fun v t => CastValue v t)
                                                 valueMap valueTypeMap [] ;;
              _ <- checkKeysSupported valueTypeMap valueMap ;;
              Ok (VMap valueMapCasted) in
            match valueTypeMap with
            | [(SStr valueTypeKeyStr, valueTypeVal)] =>
                if isValidValueType valueTypeKeyStr
                then valueMapCasted <- castGenericEntries (fun v => CastValue v valueTypeVal)
                                                          valueTypeKeyStr valueMap [] ;;
                     Ok (VMap valueMapCasted)
                else fixedMap
            | _ => fixedMap
            end
      end
  | VNil =>
      match InterfaceToInterfaceInterfaceMap value with
      | None => Err (raise (ErrorInvalidPrimitiveType value [PrimTypeMap]))
      | Some valueMap => castEmptyMap valueMap
      end
  | _ => castList value valueType
  end.

(** ** The runtime-type matcher *)

(** The string case of [CheckValueRuntimeTypesMatch] (lines 415-427). *)
Definition matchUnion (runtimeType : Value) (schemaTypeStr : string) : result unit :=
  let validTypes := Split schemaTypeStr pipe in
  match assertString runtimeType with
  | None => Err (raise (ErrorUnsupportedDataType runtimeType (VStr schemaTypeStr)))
  | Some runtimeTypeStr =>
      if forallb (fun runtimeTypeOption => HasString validTypes runtimeTypeOption)
                 (Split runtimeTypeStr pipe)
      then Ok tt
      else Err (raise (ErrorUnsupportedDataType (VStr runtimeTypeStr) (VStr schemaTypeStr)))
  end.

Definition strsValue (strs : list string) : Value := VList (map (fun s => VStr s) strs).

(** The list case of [CheckValueRuntimeTypesMatch] (lines 483-497): both slices
    are indexed at 0 without a length check. *)
Definition matchList (runtimeType schemaType : Value) : result unit :=
  match InterfaceToStrSlice schemaType with
  | Some schemaTypeStrs =>
      match schemaTypeStrs with
      | [] => Panic
      | schemaTypeStr0 :: _ =>
          let validTypes := Split schemaTypeStr0 pipe in
          match InterfaceToStrSlice runtimeType with
          | None => Err (raise (ErrorUnsupportedDataType runtimeType (strsValue schemaTypeStrs)))
          | Some runtimeTypeStrs =>
              match runtimeTypeStrs with
              | [] => Panic
              | runtimeTypeStr0 :: _ =>
                  if forallb (fun runtimeTypeOption => HasString validTypes runtimeTypeOption)
                             (Split runtimeTypeStr0 pipe)
                  then Ok tt
                  else Err (raise (ErrorUnsupportedDataType (strsValue runtimeTypeStrs)
                                                            (strsValue schemaTypeStrs)))
              end
          end
      end
  | None => Err (raise (ErrorInvalidValueDataType schemaType))
  end.

(** The loop of the generic-map case (lines 451-460). *)
Definition matchGenericEntries (matchVal : Value -> result unit) (genericMapKeyType : string)
  : list (Scalar * Value) -> result unit :=
  fix range (entries : list (Scalar * Value)) :=
    match entries with
    | [] => Ok tt
    | (runtimeTypeKey, runtimeTypeValue) :: rest =>
        _ <- matchUnion (VScalar runtimeTypeKey) genericMapKeyType ;;
        _ <- wrapErr (matchVal runtimeTypeValue) [SegKey runtimeTypeKey] ;;
        range rest
    end.

(** The first loop of the fixed-map case (lines 465-474). *)
Definition matchFixedEntries (matchAs : Value -> Value -> result unit)
           (runtimeTypeMap : list (Scalar * Value))
  : list (Scalar * Value) -> result unit :=
  fix range (schemaEntries : list (Scalar * Value)) :=
    match schemaEntries with
    | [] => Ok tt
    | (schemaTypeKey, schemaTypeValue) :: rest =>
        match mapGet runtimeTypeMap schemaTypeKey with
        | None => Err (Wrap (raise ErrorMustBeDefined) [SegKey schemaTypeKey])
        | Some runtimeTypeValue =>
            _ <- wrapErr (matchAs runtimeTypeValue schemaTypeValue) [SegKey schemaTypeKey] ;;
            range rest
        end
    end.

(** validators.go, lines 414-498. *)
Fixpoint CheckValueRuntimeTypesMatch (runtimeType schemaType : Value) {struct schemaType}
  : result unit :=
  match schemaType with
  | VStr schemaTypeStr => matchUnion runtimeType schemaTypeStr
  | VMap schemaTypeMap =>
      match InterfaceToInterfaceInterfaceMap runtimeType with
      | None => Err (raise (ErrorUnsupportedDataType runtimeType (VMap schemaTypeMap)))
      | Some runtimeTypeMap =>
          let fixedMap :=
            _ <- matchFixedEntries (fun r t => CheckValueRuntimeTypesMatch r t)
                                   runtimeTypeMap schemaTypeMap ;;
            checkKeysSupported schemaTypeMap runtimeTypeMap in
          match schemaTypeMap with
          | [(SStr schemaTypeMapStr, schemaTypeValue)] =>
              if isValidValueType schemaTypeMapStr
              then matchGenericEntries (fun r => CheckValueRuntimeTypesMatch r schemaTypeValue)
                                       schemaTypeMapStr runtimeTypeMap
              else fixedMap
          | _ => fixedMap
          end
      end
  | VNil =>
      match InterfaceToInterfaceInterfaceMap runtimeType with
      | None => Err (raise (ErrorUnsupportedDataType runtimeType (VMap [])))
      | Some runtimeTypeMap => checkKeysSupported [] runtimeTypeMap
      end
  | _ => matchList runtimeType schemaType
  end.

(** The first loop of [CheckArgRuntimeTypesMatch] (lines 390-403). *)
Definition matchArgs (argRuntimeTypes argSchemaTypes : list (string * Value))
  : list (string * Value) -> result unit :=
  fix range (entries : list (string * Value)) :=
    match entries with
    | [] => Ok tt
    | (argName, argSchemaType) :: rest =>
        if List.length argRuntimeTypes =? 0
        then Err (raise (ErrorMapMustBeDefined (map fst argSchemaTypes)))
        else match argGet argRuntimeTypes argName with
             | None => Err (Wrap (raise ErrorMustBeDefined) [SegName argName])
             | Some argRuntimeType =>
                 _ <- wrapErr (CheckValueRuntimeTypesMatch argRuntimeType argSchemaType)
                              [SegName argName] ;;
                 range rest
             end
    end.

(** The second loop of [CheckArgRuntimeTypesMatch] (lines 405-409). *)
Fixpoint argKeysSupported (argSchemaTypes entries : list (string * Value)) : result unit :=
  match entries with
  | [] => Ok tt
  | (argName, _) :: rest =>
      match argGet argSchemaTypes argName with
      | None => Err (raise (ErrorUnsupportedKey (SStr argName)))
      | Some _ => argKeysSupported argSchemaTypes rest
      end
  end.

(** validators.go, lines 380-412. *)
Definition CheckArgRuntimeTypesMatch (argRuntimeTypes argSchemaTypes : list (string * Value))
  : result unit :=
  _ <- ValidateArgTypes argSchemaTypes ;;
  _ <- ValidateArgTypes argRuntimeTypes ;;
  _ <- matchArgs argRuntimeTypes argSchemaTypes argSchemaTypes ;;
  argKeysSupported argSchemaTypes argRuntimeTypes.
End Caster.

(** Modelled from the spec: the numeric coercions as the spec's examples use
    them ([cast.InterfaceToInt64] and [cast.InterfaceToFloat64] are not in the
    sources): the integer coercion keeps an integer and reads a numeric-looking
    string, the float coercion keeps a float. *)
Definition specInterfaceToInt64 (v : Value) : option Z :=
  match v with
  | VInt n => Some n
  | VStr s => option_map Z.of_int (NilZero.int_of_string s)
  | _ => None
  end.

Definition specInterfaceToFloat64 (v : Value) : option Z :=
  match v with
  | VFloat bits => Some bits
  | _ => None
  end.

Definition specCastLib : CastLib :=
  {| InterfaceToInt64 := specInterfaceToInt64;
     InterfaceToFloat64 := specInterfaceToFloat64 |}.

(** ** The union priority, in the spec's words *)

Definition priority : list ValueType :=
  [IntegerValueType; FloatValueType; StringValueType; BoolValueType].

Definition primTypeOf (t : ValueType) : PrimitiveType :=
  match t with
  | IntegerValueType => PrimTypeInt
  | FloatValueType => PrimTypeFloat
  | StringValueType => PrimTypeString
  | BoolValueType => PrimTypeBool
  end.

Section Priority.
Context {castLib : CastLib}.

(** The native coercion of a value to one kind. *)
Definition coerce (t : ValueType) (v : Value) : option Scalar :=
  match t with
  | IntegerValueType => option_map SInt (InterfaceToInt64 v)
  | FloatValueType => option_map SFloat (InterfaceToFloat64 v)
  | StringValueType => option_map SStr (assertString v)
  | BoolValueType => option_map SBool (assertBool v)
  end.

(** The first kind of [kinds], in that order, that the union holds and whose
    coercion accepts the value. *)
Fixpoint firstAccepted (validTypes : list string) (v : Value) (kinds : list ValueType)
  : option Scalar :=
  match kinds with
  | [] => None
  | t :: rest =>
      if hasKind validTypes t
      then match coerce t v with
           | Some c => Some c
           | None => firstAccepted validTypes v rest
           end
      else firstAccepted validTypes v rest
  end.

Definition acceptedNames (validTypes : list string) : list PrimitiveType :=
  map primTypeOf (filter (hasKind validTypes) priority).
End Priority.

(** ** The shapes of a declared column type *)

Definition flatColumnType (ColumnTypeStrings : list string) (columnType : Value) : Prop :=
  exists s, columnType = VStr s /\ isValidColumnInputType ColumnTypeStrings s = true.

Definition listColumnType (ColumnTypeStrings : list string) (columnType : Value) : Prop :=
  exists s, columnType = VList [VStr s] /\ isValidColumnInputType ColumnTypeStrings s = true.

(** ** Generic and fixed type maps; well-formed maps *)

(** The key type and the value type of a type map that the caster and the
    matcher treat as generic: one entry whose key is a valid union string. *)
Definition genericMapOf (valueTypeMap : list (Scalar * Value)) : option (string * Value) :=
  match valueTypeMap with
  | [(SStr valueTypeKeyStr, valueTypeVal)] =>
      if isValidValueType valueTypeKeyStr then Some (valueTypeKeyStr, valueTypeVal) else None
  | _ => None
  end.

Section MapCases.
Context {castLib : CastLib}.

(** The fixed-map and the generic-map case of [CastValue]. *)
Definition castFixedMap (valueMap valueTypeMap : list (Scalar * Value)) : result Value :=
  valueMapCasted <- castFixedEntries (fun v t => CastValue v t) valueMap valueTypeMap [] ;;
  _ <- checkKeysSupported valueTypeMap valueMap ;;
  Ok (VMap valueMapCasted).

Definition castGenericMap (valueMap : list (Scalar * Value)) (keyType : string) (valType : Value)
  : result Value :=
  valueMapCasted <- castGenericEntries (fun v => CastValue v valType) keyType valueMap [] ;;
  Ok (VMap valueMapCasted).
End MapCases.

(** The field of a schema entry is present in the value and casts. *)
Definition fieldCasts (castAs : Value -> Value -> result Value)
           (valueMap : list (Scalar * Value)) (e : Scalar * Value) : Prop :=
  exists v c, mapGet valueMap (fst e) = Some v /\ castAs v (snd e) = Ok c.

(** The entry [r] has the key of the schema entry [e] and holds the cast of the
    value's field of that key. *)
Definition castOfField (castAs : Value -> Value -> result Value)
           (valueMap : list (Scalar * Value)) (e r : Scalar * Value) : Prop :=
  fst r = fst e
  /\ exists v, mapGet valueMap (fst e) = Some v /\ castAs v (snd e) = Ok (snd r).

(** An entry that the generic-map loop leaves as it is: its key and its value
    cast to themselves. *)
Definition canonicalEntry {castLib : CastLib} (castVal : Value -> result Value)
           (keyType : string) (e : Scalar * Value) : Prop :=
  castValueStr (VScalar (fst e)) keyType = Ok (fst e) /\ castVal (snd e) = Ok (snd e).

(** A Go map holds a key once: no key is repeated in a map, at any depth. *)
Fixpoint uniqueKeys (v : Value) : Prop :=
  match v with
  | VScalar _ => True
  | VList items =>
      (fix all (l : list Value) : Prop :=
         match l with
         | [] => True
         | x :: r => uniqueKeys x /\ all r
         end) items
  | VMap entries =>
      NoDup (map fst entries)
      /\ (fix all (l : list (Scalar * Value)) : Prop :=
            match l with
            | [] => True
            | e :: r => uniqueKeys (snd e) /\ all r
            end) entries
  end.

(** ** The same document under another enumeration order *)

Definition sameEntry (same : Value -> Value -> Prop) (e e' : Scalar * Value) : Prop :=
  fst e = fst e' /\ same (snd e) (snd e').

(** Two values that differ only in the order in which their maps, at any
    depth, list their entries: the same Go value, enumerated differently. *)
Inductive sameValue : Value -> Value -> Prop :=
| same_scalar (k : Scalar) : sameValue (VScalar k) (VScalar k)
| same_list (items items' : list Value) :
    Forall2 sameValue items items' -> sameValue (VList items) (VList items')
| same_map (entries reordered entries' : list (Scalar * Value)) :
    Permutation entries reordered ->
    Forall2 (sameEntry sameValue) reordered entries' ->
    sameValue (VMap entries) (VMap entries').




(** ** The grammar of type expressions *)

(** The type expressions of the grammar: a valid union string, a sequence
    holding one valid union string, a generic map (one entry whose key is a
    valid union string) and a fixed map (no key is a valid union string). *)
Inductive wellFormed : Value -> Prop :=
| wf_union (s : string) : isValidValueType s = true -> wellFormed (VStr s)
| wf_list (s : string) : isValidValueType s = true -> wellFormed (VList [VStr s])
| wf_generic (keyType : string) (valType : Value) :
    isValidValueType keyType = true ->
    wellFormed valType ->
    wellFormed (VMap [(SStr keyType, valType)])
| wf_fixed (entries : list (Scalar * Value)) :
    foundGenericKey entries = false ->
    Forall (fun e => wellFormed (snd e)) entries ->
    wellFormed (VMap entries).

(** ** The values of a declared type *)

Definition kindOf (k : Scalar) : option ValueType :=
  match k with
  | SNil => None
  | SInt _ => Some IntegerValueType
  | SFloat _ => Some FloatValueType
  | SStr _ => Some StringValueType
  | SBool _ => Some BoolValueType
  end.

(** A scalar of a union: nil, or a scalar of a kind that the union names. *)
Definition scalarOfUnion (valueTypeStr : string) (k : Scalar) : Prop :=
  match kindOf k with
  | None => True
  | Some t => hasKind (Split valueTypeStr pipe) t = true
  end.

(** A value of a type expression: nil, a scalar of the union, a sequence of
    scalars of the union, the empty map for the empty type map, a map whose
    keys and values are of the key and value type of a generic map, a map
    holding the fields of a fixed map, in the schema's order, each of its
    field's type.  Maps hold a key once. *)
Inductive conforms : Value -> Value -> Prop :=
| conforms_nil (valueType : Value) : conforms VNil valueType
| conforms_union (k : Scalar) (valueTypeStr : string) :
    scalarOfUnion valueTypeStr k -> conforms (VScalar k) (VStr valueTypeStr)
| conforms_list (items : list Value) (valueTypeStr : string) :
    Forall (fun item => exists k, item = VScalar k /\ scalarOfUnion valueTypeStr k) items ->
    conforms (VList items) (VList [VStr valueTypeStr])
| conforms_empty : conforms (VMap []) (VMap [])
| conforms_generic (entries : list (Scalar * Value)) (keyType : string) (valType : Value) :
    isValidValueType keyType = true ->
    NoDup (map fst entries) ->
    Forall (fun e => scalarOfUnion keyType (fst e) /\ conforms (snd e) valType) entries ->
    conforms (VMap entries) (VMap [(SStr keyType, valType)])
| conforms_fixed (entries valueTypeMap : list (Scalar * Value)) :
    valueTypeMap <> [] ->
    genericMapOf valueTypeMap = None ->
    Forall2 (fun e t => fst e = fst t /\ conforms (snd e) (snd t)) entries valueTypeMap ->
    conforms (VMap entries) (VMap valueTypeMap).

(** ** Column runtime types *)

(** Modelled from the spec: the column kinds ([ColumnType], its reserved
    [UnknownColumnType], [ColumnType.String] and [ColumnTypeStrings] are not in
    the sources) are a closed enumeration with a reserved unknown kind; the
    column validators are embedded over any such enumeration. *)
Class ColumnLib : Type := {
  ColumnType : Type;
  UnknownColumnType : ColumnType;
  ColumnType_eq_dec : forall a b : ColumnType, {a = b} + {a <> b};
  ColumnType_String : ColumnType -> string;
  ColumnTypeStrings : list string
}.

Section ColumnRuntime.
Context {columnLib : ColumnLib}.

(** What an entry of a runtime-type map ([map[string]interface{}]) holds: a
    [ColumnType], a [[]ColumnType], or a value of another dynamic type. *)
Inductive RuntimeValue : Type :=
| OfColumnType (columnType : ColumnType)
| OfColumnTypes (columnTypes : list ColumnType)
| OfValue (value : Value).

(** The errors of the column validators: the two of this package, and the
    errors of the configuration reader that the validators above return. *)
Inductive ColumnErrorKind : Type :=
| ErrorInvalidColumnRuntimeType
| ErrorUnsupportedColumnType (provided : RuntimeValue) (allowedTypes : list string)
| ErrorCannotBeNull
| ConfigError (k : ErrorKind).

Record ColumnError : Type := mkColumnError {
  columnPath : list Segment;
  columnKind : ColumnErrorKind
}.

(** [errors.Wrap(err, segs...)] on a fresh error of kind [k]. *)
Definition wrapped (k : ColumnErrorKind) (segs : list Segment) : ColumnError :=
  mkColumnError segs k.

(** The outcome of a column validator, which returns an [error] only. *)
Inductive columnResult : Type :=
| ColumnOk
| ColumnErr (e : ColumnError)
| ColumnPanic.

Definition andThen (r k : columnResult) : columnResult :=
  match r with
  | ColumnOk => k
  | _ => r
  end.

(** The outcome of a validator above, as the column validators return it. *)
Definition ofResult (r : result unit) : columnResult :=
  match r with
  | Ok _ => ColumnOk
  | Err e => ColumnErr (mkColumnError (path e) (ConfigError (kind e)))
  | Panic => ColumnPanic
  end.

Definition runtimeGet := GoMap.get string_dec (V := RuntimeValue).

Definition isUnknown (columnType : ColumnType) : bool :=
  if ColumnType_eq_dec columnType UnknownColumnType then true else false.

(** The body of the loop of [ValidateColumnInputValues] for one entry (lines
    75-84).  The decoded slice is nil exactly for the nil value (see
    [InterfaceToStrSlice]). *)
Definition validateColumnInputValue (columnInputName : string) (columnInputValue : Value)
  : columnResult :=
  match assertString columnInputValue with
  | Some _ => ColumnOk
  | None =>
      match InterfaceToStrSlice columnInputValue with
      | Some columnNames =>
          if isNil columnInputValue
          then ColumnErr (wrapped ErrorCannotBeNull [SegName columnInputName])
          else ColumnOk
      | None =>
          ColumnErr (wrapped (ConfigError (ErrorInvalidPrimitiveType
                                             columnInputValue
                                             [PrimTypeString; PrimTypeStringList]))
                             [SegName columnInputName])
      end
  end.

(** validators.go, lines 73-88. *)
Fixpoint ValidateColumnInputValues (columnInputValues : list (string * Value)) : columnResult :=
  match columnInputValues with
  | [] => ColumnOk
  | (columnInputName, columnInputValue) :: rest =>
      andThen (validateColumnInputValue columnInputName columnInputValue)
              (ValidateColumnInputValues rest)
  end.

(** The inner loop of [ValidateColumnRuntimeTypes] (lines 99-103). *)
Fixpoint validateColumnTypes (columnInputName : string) (columnTypes : list ColumnType)
         (i : nat) : columnResult :=
  match columnTypes with
  | [] => ColumnOk
  | columnType :: rest =>
      if isUnknown columnType
      then ColumnErr (wrapped ErrorInvalidColumnRuntimeType
                              [SegName columnInputName; SegIndex i])
      else validateColumnTypes columnInputName rest (S i)
  end.

(** The body of the loop of [ValidateColumnRuntimeTypes] for one entry (lines
    92-106). *)
Definition validateColumnRuntimeType (columnInputName : string)
           (columnTypeInter : RuntimeValue) : columnResult :=
  match columnTypeInter with
  | OfColumnType columnType =>
      if isUnknown columnType
      then ColumnErr (wrapped ErrorInvalidColumnRuntimeType [SegName columnInputName])
      else ColumnOk
  | OfColumnTypes columnTypes => validateColumnTypes columnInputName columnTypes 0
  | OfValue _ => ColumnErr (wrapped ErrorInvalidColumnRuntimeType [SegName columnInputName])
  end.

(** validators.go, lines 90-110. *)
Fixpoint ValidateColumnRuntimeTypes (columnRuntimeTypes : list (string * RuntimeValue))
  : columnResult :=
  match columnRuntimeTypes with
  | [] => ColumnOk
  | (columnInputName, columnTypeInter) :: rest =>
      andThen (validateColumnRuntimeType columnInputName columnTypeInter)
              (ValidateColumnRuntimeTypes rest)
  end.

(** The loop over a runtime slice in [CheckColumnRuntimeTypesMatch] (lines
    151-155). *)
Fixpoint matchColumnTypes (columnInputName : string) (validTypes : list string)
         (columnRuntimeTypeSlice : list ColumnType) (i : nat) : columnResult :=
  match columnRuntimeTypeSlice with
  | [] => ColumnOk
  | columnRuntimeType :: rest =>
      if negb (HasString validTypes (ColumnType_String columnRuntimeType))
      then ColumnErr (wrapped (ErrorUnsupportedColumnType (OfColumnType columnRuntimeType)
                                                          validTypes)
                              [SegName columnInputName; SegIndex i])
      else matchColumnTypes columnInputName validTypes rest (S i)
  end.

(** The body of the first loop of [CheckColumnRuntimeTypesMatch] once the
    runtime entry is found (lines 133-160): the string case, then the
    string-slice case, whose index 0 is taken before the runtime entry is
    looked at. *)
Definition matchColumn (columnInputName : string) (columnSchemaType : Value)
           (columnRuntimeTypeInter : RuntimeValue) : columnResult :=
  match assertString columnSchemaType with
  | Some columnSchemaTypeStr =>
      let validTypes := Split columnSchemaTypeStr pipe in
      match columnRuntimeTypeInter with
      | OfColumnType columnRuntimeType =>
          if negb (HasString validTypes (ColumnType_String columnRuntimeType))
          then ColumnErr (wrapped (ErrorUnsupportedColumnType (OfColumnType columnRuntimeType)
                                                              validTypes)
                                  [SegName columnInputName])
          else ColumnOk
      | _ =>
          ColumnErr (wrapped (ErrorUnsupportedColumnType columnRuntimeTypeInter validTypes)
                             [SegName columnInputName])
      end
  | None =>
      match InterfaceToStrSlice columnSchemaType with
      | Some columnSchemaTypeStrs =>
          match columnSchemaTypeStrs with
          | [] => ColumnPanic
          | columnSchemaTypeStr0 :: _ =>
              let validTypes := Split columnSchemaTypeStr0 pipe in
              match columnRuntimeTypeInter with
              | OfColumnTypes columnRuntimeTypeSlice =>
                  matchColumnTypes columnInputName validTypes columnRuntimeTypeSlice 0
              | _ =>
                  ColumnErr (wrapped (ErrorUnsupportedColumnType columnRuntimeTypeInter
                                                                 columnSchemaTypeStrs)
                                     [SegName columnInputName])
              end
          end
      | None =>
          ColumnErr (wrapped (ConfigError (ErrorInvalidColumnInputType columnSchemaType))
                             [SegName columnInputName])
      end
  end.

(** The first loop of [CheckColumnRuntimeTypesMatch] (lines 124-160). *)
Definition matchColumns (columnRuntimeTypes : list (string * RuntimeValue))
           (columnSchemaTypes : list (string * Value))
  : list (string * Value) -> columnResult :=
  fix range (entries : list (string * Value)) :=
    match entries with
    | [] => ColumnOk
    | (columnInputName, columnSchemaType) :: rest =>
        if List.length columnRuntimeTypes =? 0
        then ColumnErr (wrapped (ConfigError (ErrorMapMustBeDefined (map fst columnSchemaTypes)))
                                [])
        else match runtimeGet columnRuntimeTypes columnInputName with
             | None => ColumnErr (wrapped (ConfigError ErrorMustBeDefined)
                                          [SegName columnInputName])
             | Some columnRuntimeTypeInter =>
                 andThen (matchColumn columnInputName columnSchemaType columnRuntimeTypeInter)
                         (range rest)
             end
    end.

(** The second loop of [CheckColumnRuntimeTypesMatch] (lines 162-166). *)
Fixpoint columnKeysSupported (columnSchemaTypes : list (string * Value))
         (entries : list (string * RuntimeValue)) : columnResult :=
  match entries with
  | [] => ColumnOk
  | (columnInputName, _) :: rest =>
      match argGet columnSchemaTypes columnInputName with
      | None => ColumnErr (wrapped (ConfigError (ErrorUnsupportedKey (SStr columnInputName))) [])
      | Some _ => columnKeysSupported columnSchemaTypes rest
      end
  end.

(** validators.go, lines 113-169. *)
Definition CheckColumnRuntimeTypesMatch (columnRuntimeTypes : list (string * RuntimeValue))
           (columnSchemaTypes : list (string * Value)) : columnResult :=
  andThen (ofResult (ValidateColumnInputTypes ColumnTypeStrings columnSchemaTypes))
  (andThen (ValidateColumnRuntimeTypes columnRuntimeTypes)
  (andThen (matchColumns columnRuntimeTypes columnSchemaTypes columnSchemaTypes)
           (columnKeysSupported columnSchemaTypes columnRuntimeTypes))).

(** A runtime entry that [ValidateColumnRuntimeTypes] accepts: a known column
    kind, or a slice of known column kinds. *)
Definition knownRuntimeType (columnTypeInter : RuntimeValue) : Prop :=
  match columnTypeInter with
  | OfColumnType columnType => columnType <> UnknownColumnType
  | OfColumnTypes columnTypes => Forall (fun columnType => columnType <> UnknownColumnType)
                                        columnTypes
  | OfValue _ => False
  end.

(** A runtime entry of the shape and the kinds that a declared column type
    asks for: one kind of the union for a union string, a slice of kinds of the
    union for a one-element sequence. *)
Definition columnMatches (columnSchemaType : Value) (columnTypeInter : RuntimeValue) : Prop :=
  match columnSchemaType, columnTypeInter with
  | VStr columnSchemaTypeStr, OfColumnType columnType =>
      In (ColumnType_String columnType) (Split columnSchemaTypeStr pipe)
  | VList [VStr columnSchemaTypeStr], OfColumnTypes columnTypes =>
      Forall (fun columnType => In (ColumnType_String columnType)
                                   (Split columnSchemaTypeStr pipe)) columnTypes
  | _, _ => False
  end.

(** A declared column kind: not the unknown kind, and named by
    [ColumnTypeStrings]; a runtime entry that holds declared kinds only. *)
Definition declaredKind (columnType : ColumnType) : Prop :=
  columnType <> UnknownColumnType /\ In (ColumnType_String columnType) ColumnTypeStrings.

Definition declaredRuntimeType (columnTypeInter : RuntimeValue) : Prop :=
  match columnTypeInter with
  | OfColumnType columnType => declaredKind columnType
  | OfColumnTypes columnTypes => Forall declaredKind columnTypes
  | OfValue _ => False
  end.
End ColumnRuntime.

(** Modelled from the spec: an enumeration of column kinds with the reserved
    unknown kind, for the examples. *)
Inductive specColumnType : Type :=
| SpecUnknownColumn | SpecIntColumn | SpecFloatColumn | SpecStringColumn.

Definition specColumnType_String (columnType : specColumnType) : string :=
  match columnType with
  | SpecUnknownColumn => "unknown"
  | SpecIntColumn => "INT_COLUMN"
  | SpecFloatColumn => "FLOAT_COLUMN"
  | SpecStringColumn => "STRING_COLUMN"
  end.

Definition specColumnType_eq_dec (a b : specColumnType) : {a = b} + {a <> b}.
Proof. decide equality. Defined.

Definition specColumnLib : ColumnLib :=
  {| ColumnType := specColumnType;
     UnknownColumnType := SpecUnknownColumn;
     ColumnType_eq_dec := specColumnType_eq_dec;
     ColumnType_String := specColumnType_String;
     ColumnTypeStrings := ["INT_COLUMN"; "FLOAT_COLUMN"; "STRING_COLUMN"]%string |}.

Unset Implicit Arguments.

(** ** Properties *)

(** [strings.Split] on the cases the validators meet. *)
Example Split_cases :
  Split "INT|FLOAT" pipe = ["INT"; "FLOAT"]%string
  /\ Split "INT" pipe = ["INT"]%string
  /\ Split "" pipe = [""]%string
  /\ Split "INT||" pipe = ["INT"; ""; ""]%string.
Proof. repeat split. Qed.

(** The examples of the spec that do not depend on a claim below, with the
    coercions modelled from the spec. *)
Example validate_unknown_kind :
  ValidateValueType (VStr "INT|FLOAT|BOGUS")
  = Err (raise (ErrorInvalidValueDataType (VStr "INT|FLOAT|BOGUS"))).
Proof. reflexivity. Qed.

Example cast_list_of_numeric_strings :
  CastValue (castLib := specCastLib) (VList [VStr "1"; VStr "2"]) (VList [VStr "INT"])
  = Ok (VList [VInt 1; VInt 2]).
Proof. reflexivity. Qed.

Example cast_generic_map :
  CastValue (castLib := specCastLib)
            (VMap [(SStr "a", VStr "1"); (SStr "b", VStr "2")])
            (VMap [(SStr "STRING", VStr "INT")])
  = Ok (VMap [(SStr "a", VInt 1); (SStr "b", VInt 2)]).
Proof. reflexivity. Qed.

Example cast_falls_through_to_string :
  CastValue (castLib := specCastLib) (VStr "abc") (VStr "INT|STRING") = Ok (VStr "abc").
Proof. reflexivity. Qed.

Example cast_empty_type_map :
  CastValue (castLib := specCastLib) (VMap []) (VMap []) = Ok (VMap [])
  /\ CastValue (castLib := specCastLib) (VMap [(SStr "a", VInt 1)]) (VMap [])
     = Err (Wrap (raise ErrorMustBeEmpty) [SegValue (VMap [(SStr "a", VInt 1)])]).
Proof. split; reflexivity. Qed.

Lemma HasString_In (l : list string) (q : string) : HasString l q = true <-> In q l.
Proof.
  unfold HasString. rewrite existsb_exists. split.
  - intros [x [Hin Heq]]. apply String.eqb_eq in Heq. now subst.
  - intros Hin. exists q. split; [assumption | apply String.eqb_refl].
Qed.


Lemma unionContained_iff (validTypes : list string) (r : string) :
  forallb (fun o => HasString validTypes o) (Split r pipe) = true
  <-> (forall k, In k (Split r pipe) -> In k validTypes).
Proof.
  rewrite forallb_forall. split; intros Hall k Hk.
  - apply HasString_In. now apply Hall.
  - apply HasString_In. now apply Hall.
Qed.

(** C2.  Against a union schema string the matcher succeeds exactly when the
    runtime type is a string all of whose pipe-split kinds are among the
    schema's pipe-split kinds; every failure is [UnsupportedDataType];
    ["INT"] matches ["INT|FLOAT"], and ["INT|STRING"] does not match ["INT"]. *)
Theorem C2_union_match_is_containment :
  (forall (runtimeType : Value) (schemaTypeStr : string),
      (CheckValueRuntimeTypesMatch runtimeType (VStr schemaTypeStr) = Ok tt
       <-> exists runtimeTypeStr,
             runtimeType = VStr runtimeTypeStr
             /\ forall k, In k (Split runtimeTypeStr pipe) -> In k (Split schemaTypeStr pipe))
      /\ (CheckValueRuntimeTypesMatch runtimeType (VStr schemaTypeStr) <> Ok tt ->
          exists provided,
            CheckValueRuntimeTypesMatch runtimeType (VStr schemaTypeStr)
            = Err (raise (ErrorUnsupportedDataType provided (VStr schemaTypeStr)))))
  /\ CheckValueRuntimeTypesMatch (VStr "INT") (VStr "INT|FLOAT") = Ok tt
  /\ CheckValueRuntimeTypesMatch (VStr "INT|STRING") (VStr "INT")
     = Err (raise (ErrorUnsupportedDataType (VStr "INT|STRING") (VStr "INT"))).
Proof.
  split; [| split; reflexivity].
  intros runtimeType schemaTypeStr. simpl. unfold matchUnion.
  destruct runtimeType as [[ | n | f | r | b] | items | entries]; simpl;
    try (split; [split; [discriminate | intros [r [Hr _]]; discriminate]
                | intros _; eexists; reflexivity]).
  destruct (forallb _ (Split r pipe)) eqn:Hall.
  - split; [| intros Hne; now contradiction Hne].
    split; [intros _ | reflexivity].
    exists r. split; [reflexivity | now apply unionContained_iff].
  - split; [| intros _; eexists; reflexivity].
    split; [discriminate |].
    intros [r' [Hr Hsub]]. injection Hr as <-.
    apply unionContained_iff in Hsub. congruence.
Qed.

Section CastFacts.
Context {castLib : CastLib}.

Lemma castUnion_firstAccepted (v : Value) (s : string) :
  castUnion v s =
  match firstAccepted (Split s pipe) v priority with
  | Some c => Ok c
  | None => Err (raise (ErrorInvalidPrimitiveType v (acceptedNames (Split s pipe))))
  end.
Proof.
  unfold castUnion, acceptedNames, priority. cbn [firstAccepted filter map coerce].
  destruct (hasKind (Split s pipe) IntegerValueType);
    [destruct (InterfaceToInt64 v); [reflexivity |] |];
    (destruct (hasKind (Split s pipe) FloatValueType);
     [destruct (InterfaceToFloat64 v); [reflexivity |] |]);
    (destruct (hasKind (Split s pipe) StringValueType);
     [destruct (assertString v); [reflexivity |] |]);
    (destruct (hasKind (Split s pipe) BoolValueType);
     [destruct (assertBool v); [reflexivity |] |]);
    reflexivity.
Qed.

(** [CastValue] against a string type expression is [castValueStr]. *)
Lemma CastValue_VStr (v : Value) (s : string) :
  CastValue v (VStr s) = c <- castValueStr v s ;; Ok (VScalar c).
Proof.
  unfold castValueStr. cbn [CastValue].
  destruct (ValidateValueType (VStr s)); cbn [bind]; try reflexivity.
  destruct (isNil v); reflexivity.
Qed.

Lemma ValidateValueType_VStr (s : string) :
  ValidateValueType (VStr s) =
  if isValidValueType s then Ok tt else Err (raise (ErrorInvalidValueDataType (VStr s))).
Proof. cbn. now destruct (isValidValueType s). Qed.


End CastFacts.


Section UnionPriority.
Context {castLib : CastLib}.


End UnionPriority.


(** C4.  Whatever the schema, casting nil returns nil as soon as the schema has
    passed validation: no check of the value against the schema's shape is
    made. *)
Theorem C4_nil_casts_to_nil {castLib : CastLib} :
  forall valueType : Value,
    ValidateValueType valueType = Ok tt ->
    CastValue VNil valueType = Ok VNil.
Proof.
  intros valueType Hvalid.
  destruct valueType as [k | items | entries]; cbn [CastValue];
    rewrite Hvalid; reflexivity.
Qed.

Lemma C4_nil_casts_to_nil_witness :
  CastValue (castLib := specCastLib) VNil
            (VMap [(SStr "x", VStr "INT"); (SStr "y", VList [VStr "STRING"])]) = Ok VNil.
Proof.
  apply C4_nil_casts_to_nil. reflexivity.
Defined.

(** ** The column grammar *)

Lemma allStrings_singleton (items : list Value) (s : string) :
  allStrings items = Some [s] -> items = [VStr s].
Proof.
  destruct items as [| [[ | | | s0 | ] | |] [| y r]]; cbn; try discriminate.
  - intros [= ->]. reflexivity.
  - destruct y as [[ | | | s1 | ] | |]; cbn; try discriminate.
    destruct (allStrings r); discriminate.
Qed.

Lemma InterfaceToStrSlice_singleton (v : Value) (s : string) :
  InterfaceToStrSlice v = Some [s] -> v = VList [VStr s].
Proof.
  destruct v as [[ | | | | ] | items | entries]; cbn; try discriminate.
  intros H. now rewrite (allStrings_singleton _ _ H).
Qed.

Lemma length_one (A : Type) (l : list A) :
  (List.length l =? 1) = true -> exists x, l = [x].
Proof.
  destruct l as [| x [| y r]]; cbn; try discriminate. intros _. now exists x.
Qed.

Lemma validateColumnInputType_ok (cts : list string) (name : string) (columnType : Value) :
  validateColumnInputType cts name columnType = Ok tt
  <-> flatColumnType cts columnType \/ listColumnType cts columnType.
Proof.
  unfold validateColumnInputType, flatColumnType, listColumnType. split.
  - destruct (assertString columnType) as [s |] eqn:Hs.
    + destruct columnType as [[ | | | s0 | ] | |]; try discriminate.
      injection Hs as ->.
      destruct (isValidColumnInputType cts s) eqn:Hv; cbn; [| discriminate].
      intros _. left. now exists s.
    + destruct (InterfaceToStrSlice columnType) as [strs |] eqn:Hstrs; [| discriminate].
      destruct (List.length strs =? 1) eqn:Hlen; cbn; [| discriminate].
      destruct (length_one _ _ Hlen) as [s0 ->].
      destruct (isValidColumnInputType cts s0) eqn:Hv; cbn; [| discriminate].
      intros _. right. exists s0. split; [| assumption].
      now apply InterfaceToStrSlice_singleton.
  - intros [[s [-> Hv]] | [s [-> Hv]]]; cbn; rewrite Hv; reflexivity.
Qed.

Lemma ValidateColumnInputTypes_ok (cts : list string) (columnTypes : list (string * Value)) :
  ValidateColumnInputTypes cts columnTypes = Ok tt
  <-> Forall (fun entry => flatColumnType cts (snd entry) \/ listColumnType cts (snd entry))
             columnTypes.
Proof.
  induction columnTypes as [| [name columnType] rest IH]; cbn [ValidateColumnInputTypes].
  - split; [constructor | reflexivity].
  - destruct (validateColumnInputType cts name columnType) as [[] | e |] eqn:Hentry;
      cbn [bind].
    + rewrite IH. split.
      * intros Hrest. constructor; [| assumption].
        now apply (validateColumnInputType_ok cts name).
      * intros Hall. now inversion Hall.
    + split; [discriminate |]. intros Hall. inversion Hall as [| ? ? Hhead _]; subst.
      apply (validateColumnInputType_ok cts name) in Hhead. cbn in Hhead. congruence.
    + split; [discriminate |]. intros Hall. inversion Hall as [| ? ? Hhead _]; subst.
      apply (validateColumnInputType_ok cts name) in Hhead. cbn in Hhead. congruence.
Qed.

(** C8, as the code has it.  A declaration of column input types is accepted
    exactly when each declared type is a pipe-union string over the column
    kinds or a sequence holding one such string; maps, nil and sequences of
    another length are rejected. *)
Theorem C8_column_input_types_shapes :
  forall (ColumnTypeStrings : list string) (columnTypes : list (string * Value)),
    (ValidateColumnInputTypes ColumnTypeStrings columnTypes = Ok tt
     <-> Forall (fun entry => flatColumnType ColumnTypeStrings (snd entry)
                              \/ listColumnType ColumnTypeStrings (snd entry)) columnTypes)
    /\ (forall name entries,
           ValidateColumnInputTypes ColumnTypeStrings [(name, VMap entries)] <> Ok tt)
    /\ (forall name items,
           List.length items <> 1 ->
           ValidateColumnInputTypes ColumnTypeStrings [(name, VList items)] <> Ok tt).
Proof.
  intros cts columnTypes. split; [| split].
  - apply ValidateColumnInputTypes_ok.
  - intros name entries. cbn. discriminate.
  - intros name items Hlen. cbn [ValidateColumnInputTypes].
    destruct (validateColumnInputType cts name (VList items)) as [[] | e |] eqn:Hentry;
      cbn [bind]; try discriminate.
    apply validateColumnInputType_ok in Hentry.
    destruct Hentry as [[s [Heq _]] | [s [Heq _]]]; [discriminate |].
    injection Heq as ->. now contradiction Hlen.
Qed.

(** C8, as the spec has it, fails: a list-shaped declared type is accepted. *)
Lemma C8_list_shaped_type_accepted :
  ValidateColumnInputTypes ["INT_COLUMN"%string; "FLOAT_COLUMN"%string]
                           [("age"%string, VList [VStr "INT_COLUMN|FLOAT_COLUMN"])] = Ok tt
  /\ ~ (exists s, VList [VStr "INT_COLUMN|FLOAT_COLUMN"] = VStr s).
Proof.
  split; [reflexivity |]. intros [s Hs]. discriminate.
Qed.

Lemma C8_column_input_types_shapes_witness :
  ValidateColumnInputTypes ["INT_COLUMN"%string] [("age"%string, VList [])] <> Ok tt.
Proof.
  apply (C8_column_input_types_shapes ["INT_COLUMN"%string] []). cbn. lia.
Defined.

(** ** Validation never panics, and what it establishes *)

Lemma validateFlatType_no_panic (valueType : Value) : validateFlatType valueType <> Panic.
Proof.
  unfold validateFlatType.
  destruct (assertString valueType) as [s |].
  - destruct (isValidValueType s); discriminate.
  - destruct (InterfaceToStrSlice valueType) as [strs |]; [| discriminate].
    destruct (List.length strs =? 1) eqn:Hlen; cbn; [| discriminate].
    destruct (length_one _ _ Hlen) as [s0 ->].
    destruct (isValidValueType s0); discriminate.
Qed.

Lemma validateEntries_ok (validate : Value -> result unit) (found : bool)
      (entries : list (Scalar * Value)) :
  validateEntries validate found entries = Ok tt
  <-> Forall (fun e => (found = true -> validateFlatType (VScalar (fst e)) = Ok tt)
                       /\ validate (snd e) = Ok tt) entries.
Proof.
  induction entries as [| [key val] rest IH]; cbn [validateEntries].
  - split; [constructor | reflexivity].
  - split.
    + destruct found.
      * destruct (validateFlatType (VScalar key)) as [[] | |] eqn:Hk; cbn [bind];
          try discriminate.
        destruct (validate val) as [[] | |] eqn:Hv; cbn [bind wrapErr]; try discriminate.
        intros Hrest. constructor; [cbn [fst snd]; now split | now apply IH].
      * cbn [bind]. destruct (validate val) as [[] | |] eqn:Hv; cbn [bind wrapErr];
          try discriminate.
        intros Hrest. constructor; [cbn [fst snd]; split; [discriminate | assumption]
                                   | now apply IH].
    + intros Hall. inversion Hall as [| ? ? [Hkey Hval] Hrest]; subst. cbn [fst snd] in *.
      rewrite Hval. cbn [wrapErr bind]. apply IH in Hrest.
      destruct found; [rewrite Hkey by reflexivity |]; cbn [bind]; exact Hrest.
Qed.

Lemma validateEntries_no_panic (validate : Value -> result unit) (found : bool)
      (entries : list (Scalar * Value)) :
  Forall (fun e => validate (snd e) <> Panic) entries ->
  validateEntries validate found entries <> Panic.
Proof.
  induction 1 as [| [key val] rest Hval _ IH]; cbn [validateEntries]; [discriminate |].
  cbn [snd] in Hval.
  assert (Hkey : (if found then validateFlatType (VScalar key) else Ok tt) <> Panic).
  { destruct found; [apply validateFlatType_no_panic | discriminate]. }
  destruct (if found then validateFlatType (VScalar key) else Ok tt) as [[] | |];
    cbn [bind]; try discriminate; [| now contradiction Hkey].
  destruct (validate val) as [[] | |]; cbn [wrapErr bind]; try discriminate; [exact IH |].
  now contradiction Hval.
Qed.

Lemma ValidateValueType_no_panic (valueType : Value) : ValidateValueType valueType <> Panic.
Proof.
  induction valueType as [k | items _ | entries IH] using Value_nested_ind;
    cbn [ValidateValueType]; try apply validateFlatType_no_panic.
  destruct (foundGenericKey entries && negb (List.length entries =? 1)); [discriminate |].
  now apply validateEntries_no_panic.
Qed.

Lemma ValidateValueType_VMap_values (entries : list (Scalar * Value)) :
  ValidateValueType (VMap entries) = Ok tt ->
  Forall (fun e => ValidateValueType (snd e) = Ok tt) entries.
Proof.
  cbn [ValidateValueType].
  destruct (foundGenericKey entries && negb (List.length entries =? 1)); [discriminate |].
  intros H. apply validateEntries_ok in H.
  eapply Forall_impl; [| exact H]. now intros e [_ He].
Qed.

Lemma ValidateValueType_VList (items : list Value) :
  ValidateValueType (VList items) = Ok tt ->
  exists s, items = [VStr s] /\ isValidValueType s = true.
Proof.
  cbn [ValidateValueType]. unfold validateFlatType. cbn [assertString InterfaceToStrSlice].
  destruct (allStrings items) as [strs |] eqn:Hstrs; [| discriminate].
  destruct (List.length strs =? 1) eqn:Hlen; cbn; [| discriminate].
  destruct (length_one _ _ Hlen) as [s0 ->].
  destruct (isValidValueType s0) eqn:Hv; cbn; [| discriminate].
  intros _. exists s0. split; [now apply allStrings_singleton | assumption].
Qed.

Lemma mapGet_In (m : list (Scalar * Value)) (k : Scalar) (v : Value) :
  mapGet m k = Some v -> In (k, v) m.
Proof.
  unfold mapGet. induction m as [| [k' v'] r IH]; cbn; [discriminate |].
  destruct (Scalar_eq_dec k' k) as [-> | _].
  - intros [= ->]. now left.
  - intros H. right. now apply IH.
Qed.

(** ** The matcher on sequences, and its unguarded indexing *)

Lemma matchUnion_no_panic (runtimeType : Value) (s : string) :
  matchUnion runtimeType s <> Panic.
Proof.
  unfold matchUnion. destruct (assertString runtimeType); [| discriminate].
  destruct (forallb _ _); discriminate.
Qed.

Lemma checkKeysSupported_no_panic (typeMap entries : list (Scalar * Value)) :
  checkKeysSupported typeMap entries <> Panic.
Proof.
  induction entries as [| [k v] r IH]; cbn; [discriminate |].
  destruct (mapGet typeMap k); [exact IH | discriminate].
Qed.

Lemma matchGenericEntries_no_panic (matchVal : Value -> result unit) (keyType : string)
      (entries : list (Scalar * Value)) :
  Forall (fun e => matchVal (snd e) <> Panic) entries ->
  matchGenericEntries matchVal keyType entries <> Panic.
Proof.
  induction 1 as [| [k v] r Hv _ IH]; cbn [matchGenericEntries]; [discriminate |].
  pose proof (matchUnion_no_panic (VScalar k) keyType) as Hk.
  destruct (matchUnion (VScalar k) keyType) as [[] | |]; cbn [bind]; try discriminate;
    [| now contradiction Hk].
  cbn [snd] in Hv.
  destruct (matchVal v) as [[] | |]; cbn [wrapErr bind]; try discriminate; [exact IH |].
  now contradiction Hv.
Qed.

Lemma matchFixedEntries_no_panic (matchAs : Value -> Value -> result unit)
      (runtimeTypeMap schemaEntries : list (Scalar * Value)) :
  Forall (fun e => forall r, In (fst e, r) runtimeTypeMap -> matchAs r (snd e) <> Panic)
         schemaEntries ->
  matchFixedEntries matchAs runtimeTypeMap schemaEntries <> Panic.
Proof.
  induction 1 as [| [k t] rest Ht _ IH]; cbn [matchFixedEntries]; [discriminate |].
  destruct (mapGet runtimeTypeMap k) as [r |] eqn:Hget; [| discriminate].
  cbn [fst snd] in Ht. specialize (Ht r (mapGet_In _ _ _ Hget)).
  destruct (matchAs r t) as [[] | |]; cbn [wrapErr bind]; try discriminate; [exact IH |].
  now contradiction Ht.
Qed.

Lemma empty_slice_not_valid (v : Value) :
  InterfaceToStrSlice v = Some [] -> ValidateValueType v <> Ok tt.
Proof.
  destruct v as [[ | | | | ] | items | entries]; cbn [InterfaceToStrSlice];
    try discriminate.
  intros H. cbn [ValidateValueType]. unfold validateFlatType.
  cbn [assertString InterfaceToStrSlice]. rewrite H. cbn. discriminate.
Qed.

Lemma matchList_validated_no_panic (runtimeType schemaType : Value) :
  ValidateValueType runtimeType = Ok tt ->
  ValidateValueType schemaType = Ok tt ->
  matchList runtimeType schemaType <> Panic.
Proof.
  intros Hr Hs. unfold matchList.
  destruct (InterfaceToStrSlice schemaType) as [[| s0 srest] |] eqn:Hschema;
    [| | discriminate].
  - now contradiction (empty_slice_not_valid _ Hschema).
  - destruct (InterfaceToStrSlice runtimeType) as [[| r0 rrest] |] eqn:Hruntime;
      [| | discriminate].
    + now contradiction (empty_slice_not_valid _ Hruntime).
    + destruct (forallb _ _); discriminate.
Qed.

Lemma CheckValueRuntimeTypesMatch_validated_no_panic (schemaType : Value) :
  forall runtimeType,
    ValidateValueType runtimeType = Ok tt ->
    ValidateValueType schemaType = Ok tt ->
    CheckValueRuntimeTypesMatch runtimeType schemaType <> Panic.
Proof.
  induction schemaType as [k | items _ | entries IH] using Value_nested_ind;
    intros runtimeType Hr Hs.
  - destruct k; cbn [CheckValueRuntimeTypesMatch];
      try (now apply matchList_validated_no_panic);
      try apply matchUnion_no_panic.
    destruct (InterfaceToInterfaceInterfaceMap runtimeType); [| discriminate].
    apply checkKeysSupported_no_panic.
  - cbn [CheckValueRuntimeTypesMatch]. now apply matchList_validated_no_panic.
  - cbn [CheckValueRuntimeTypesMatch].
    destruct (InterfaceToInterfaceInterfaceMap runtimeType) as [runtimeTypeMap |] eqn:Hmap;
      [| discriminate].
    assert (Hrvals : Forall (fun e => ValidateValueType (snd e) = Ok tt) runtimeTypeMap).
    { destruct runtimeType as [[ | | | | ] | | rm]; try discriminate.
      injection Hmap as <-. now apply ValidateValueType_VMap_values. }
    pose proof (ValidateValueType_VMap_values _ Hs) as Hsvals.
    assert (Hfixed :
              (_ <- matchFixedEntries (fun r t => CheckValueRuntimeTypesMatch r t)
                                      runtimeTypeMap entries ;;
               checkKeysSupported entries runtimeTypeMap) <> Panic).
    { assert (Hloop : matchFixedEntries (fun r t => CheckValueRuntimeTypesMatch r t)
                                        runtimeTypeMap entries <> Panic).
      { apply matchFixedEntries_no_panic.
        rewrite Forall_forall in *. intros e He r Hin.
        apply (IH e He); [| now apply Hsvals].
        apply (Hrvals (fst e, r) Hin). }
      destruct (matchFixedEntries _ runtimeTypeMap entries) as [[] | |]; cbn [bind];
        try discriminate; [apply checkKeysSupported_no_panic | now contradiction Hloop]. }
    destruct entries as [| [[ | | | keyStr | ] t] [| e2 rest]]; try exact Hfixed.
    destruct (isValidValueType keyStr); [| exact Hfixed].
    apply matchGenericEntries_no_panic.
    inversion IH as [| ? ? IHt _]; subst. cbn [snd] in IHt.
    inversion Hsvals as [| ? ? Ht _]; subst. cbn [snd] in Ht.
    rewrite Forall_forall in *. intros e He. apply IHt; [now apply Hrvals | exact Ht].
Qed.

Lemma ValidateArgTypes_no_panic (argTypes : list (string * Value)) :
  ValidateArgTypes argTypes <> Panic.
Proof.
  induction argTypes as [| [name t] rest IH]; cbn [ValidateArgTypes]; [discriminate |].
  destruct (isValidValueType name); [discriminate |].
  pose proof (ValidateValueType_no_panic t) as Ht.
  destruct (ValidateValueType t) as [[] | |]; cbn [wrapErr bind]; try discriminate;
    [exact IH | now contradiction Ht].
Qed.

Lemma ValidateArgTypes_values (argTypes : list (string * Value)) :
  ValidateArgTypes argTypes = Ok tt ->
  Forall (fun e => ValidateValueType (snd e) = Ok tt) argTypes.
Proof.
  induction argTypes as [| [name t] rest IH]; cbn [ValidateArgTypes]; [constructor |].
  destruct (isValidValueType name); [discriminate |].
  destruct (ValidateValueType t) as [[] | |] eqn:Ht; cbn [wrapErr bind]; try discriminate.
  intros Hrest. constructor; [exact Ht | now apply IH].
Qed.

Lemma argGet_In (m : list (string * Value)) (k : string) (v : Value) :
  argGet m k = Some v -> In (k, v) m.
Proof.
  unfold argGet. induction m as [| [k' v'] r IH]; cbn; [discriminate |].
  destruct (string_dec k' k) as [-> | _].
  - intros [= ->]. now left.
  - intros H. right. now apply IH.
Qed.

Lemma argKeysSupported_no_panic (schema entries : list (string * Value)) :
  argKeysSupported schema entries <> Panic.
Proof.
  induction entries as [| [k v] r IH]; cbn; [discriminate |].
  destruct (argGet schema k); [exact IH | discriminate].
Qed.

Lemma CheckArgRuntimeTypesMatch_no_panic (argRuntimeTypes argSchemaTypes : list (string * Value)) :
  CheckArgRuntimeTypesMatch argRuntimeTypes argSchemaTypes <> Panic.
Proof.
  unfold CheckArgRuntimeTypesMatch.
  pose proof (ValidateArgTypes_no_panic argSchemaTypes) as Hs.
  destruct (ValidateArgTypes argSchemaTypes) as [[] | |] eqn:Hschema; cbn [bind];
    try discriminate; [| now contradiction Hs].
  pose proof (ValidateArgTypes_no_panic argRuntimeTypes) as Hr.
  destruct (ValidateArgTypes argRuntimeTypes) as [[] | |] eqn:Hruntime; cbn [bind];
    try discriminate; [| now contradiction Hr].
  apply ValidateArgTypes_values in Hschema, Hruntime.
  assert (Hloop : forall entries,
             Forall (fun e => ValidateValueType (snd e) = Ok tt) entries ->
             matchArgs argRuntimeTypes argSchemaTypes entries <> Panic).
  { induction 1 as [| [name t] rest Ht _ IH]; cbn [matchArgs]; [discriminate |].
    destruct (List.length argRuntimeTypes =? 0); [discriminate |].
    destruct (argGet argRuntimeTypes name) as [r |] eqn:Hget; [| discriminate].
    apply argGet_In in Hget. rewrite Forall_forall in Hruntime.
    pose proof (CheckValueRuntimeTypesMatch_validated_no_panic
                  t r (Hruntime _ Hget) Ht) as Hmatch.
    cbn [snd] in Hmatch.
    destruct (CheckValueRuntimeTypesMatch r t) as [[] | |]; cbn [wrapErr bind];
      try discriminate; [exact IH | now contradiction Hmatch]. }
  specialize (Hloop argSchemaTypes Hschema).
  destruct (matchArgs argRuntimeTypes argSchemaTypes argSchemaTypes) as [[] | |];
    cbn [bind]; try discriminate; [apply argKeysSupported_no_panic | now contradiction Hloop].
Qed.

Lemma allStrings_strs (strs : list string) :
  allStrings (map (fun s => VStr s) strs) = Some strs.
Proof.
  induction strs as [| s r IH]; cbn; [reflexivity |]. now rewrite IH.
Qed.

Lemma InterfaceToStrSlice_strs (strs : list string) :
  InterfaceToStrSlice (strsValue strs) = Some strs.
Proof. apply allStrings_strs. Qed.

Lemma matchList_first_elements (r0 s0 : string) (rrest srest : list string) :
  CheckValueRuntimeTypesMatch (strsValue (r0 :: rrest)) (strsValue (s0 :: srest)) = Ok tt
  <-> CheckValueRuntimeTypesMatch (VStr r0) (VStr s0) = Ok tt.
Proof.
  change (CheckValueRuntimeTypesMatch (strsValue (r0 :: rrest)) (strsValue (s0 :: srest)))
    with (matchList (strsValue (r0 :: rrest)) (strsValue (s0 :: srest))).
  unfold matchList. rewrite !InterfaceToStrSlice_strs.
  cbn [CheckValueRuntimeTypesMatch]. unfold matchUnion. cbn [assertString].
  destruct (forallb _ (Split r0 pipe)); split; intros H; try reflexivity; discriminate.
Qed.

(** C5, as the code has it.  Against a sequence schema that has passed
    validation, a runtime type that has passed validation matches exactly when
    it is a one-element sequence whose element matches the schema's element.
    The matcher itself checks no length: of two non-empty string sequences it
    compares the first elements only. *)
Theorem C5_list_match_first_elements :
  (forall (runtimeType : Value) (schemaItems : list Value),
      ValidateValueType runtimeType = Ok tt ->
      ValidateValueType (VList schemaItems) = Ok tt ->
      (CheckValueRuntimeTypesMatch runtimeType (VList schemaItems) = Ok tt
       <-> exists r s,
             runtimeType = VList [VStr r] /\ schemaItems = [VStr s]
             /\ CheckValueRuntimeTypesMatch (VStr r) (VStr s) = Ok tt))
  /\ (forall (r0 s0 : string) (rrest srest : list string),
         CheckValueRuntimeTypesMatch (strsValue (r0 :: rrest)) (strsValue (s0 :: srest)) = Ok tt
         <-> CheckValueRuntimeTypesMatch (VStr r0) (VStr s0) = Ok tt).
Proof.
  split; [| exact matchList_first_elements].
  intros runtimeType schemaItems Hr Hs.
  destruct (ValidateValueType_VList _ Hs) as [s [-> Hsvalid]].
  destruct runtimeType as [k | ritems | rentries].
  - split.
    + destruct k; cbn in Hr |- *; try discriminate.
    + intros [r [s' [Hrt _]]]. discriminate.
  - destruct (ValidateValueType_VList _ Hr) as [r [-> Hrvalid]].
    change (VList [VStr r]) with (strsValue [r]).
    change (VList [VStr s]) with (strsValue [s]).
    rewrite matchList_first_elements. split.
    + intros H. exists r, s. now repeat split.
    + intros [r' [s' [Hrt [Hst H]]]]. cbn in Hrt, Hst.
      injection Hrt as <-. injection Hst as <-. exact H.
  - split.
    + cbn. discriminate.
    + intros [r [s' [Hrt _]]]. discriminate.
Qed.

Lemma C5_list_match_first_elements_witness :
  CheckValueRuntimeTypesMatch (VList [VStr "INT"]) (VList [VStr "INT|FLOAT"]) = Ok tt
  <-> exists r s,
        VList [VStr "INT"] = VList [VStr r] /\ [VStr "INT|FLOAT"] = [VStr s]
        /\ CheckValueRuntimeTypesMatch (VStr r) (VStr s) = Ok tt.
Proof.
  apply (proj1 C5_list_match_first_elements); reflexivity.
Defined.

(** C5, as the spec has it, fails: a runtime sequence of two elements, the
    second not even a kind, is accepted against a sequence schema. *)
Lemma C5_longer_sequence_accepted :
  CheckValueRuntimeTypesMatch (VList [VStr "INT"; VStr "BOGUS"]) (VList [VStr "INT"]) = Ok tt
  /\ List.length [VStr "INT"; VStr "BOGUS"] <> 1.
Proof.
  split; [reflexivity | discriminate].
Qed.

(** C10.  The matcher validates nothing (two strings that name no kind match
    each other) and indexes element 0 of the schema sequence and of the runtime
    sequence without a length check: an empty sequence on either side panics.
    When both arguments have passed validation, which makes every sequence a
    singleton, no call panics; [CheckArgRuntimeTypesMatch] validates both sides
    first and never panics. *)
Theorem C10_index_safe_after_validation :
  (forall runtimeType schemaType : Value,
      ValidateValueType runtimeType = Ok tt ->
      ValidateValueType schemaType = Ok tt ->
      CheckValueRuntimeTypesMatch runtimeType schemaType <> Panic)
  /\ (forall items : list Value,
         ValidateValueType (VList items) = Ok tt -> List.length items = 1)
  /\ (forall argRuntimeTypes argSchemaTypes : list (string * Value),
         CheckArgRuntimeTypesMatch argRuntimeTypes argSchemaTypes <> Panic)
  /\ (forall runtimeType : Value,
         CheckValueRuntimeTypesMatch runtimeType (VList []) = Panic)
  /\ (forall (s : string) (rest : list string),
         CheckValueRuntimeTypesMatch (VList []) (strsValue (s :: rest)) = Panic)
  /\ (ValidateValueType (VStr "BOGUS") <> Ok tt
      /\ CheckValueRuntimeTypesMatch (VStr "BOGUS") (VStr "BOGUS") = Ok tt).
Proof.
  repeat split.
  - intros runtimeType schemaType. apply CheckValueRuntimeTypesMatch_validated_no_panic.
  - intros items H. destruct (ValidateValueType_VList _ H) as [s [-> _]]. reflexivity.
  - exact CheckArgRuntimeTypesMatch_no_panic.
  - intros s rest.
    change (CheckValueRuntimeTypesMatch (VList []) (strsValue (s :: rest)))
      with (matchList (VList []) (strsValue (s :: rest))).
    unfold matchList. rewrite InterfaceToStrSlice_strs. reflexivity.
  - cbn. discriminate.
Qed.

Lemma C10_index_safe_after_validation_witness :
  CheckValueRuntimeTypesMatch (VMap [(SStr "xs", VList [VStr "INT"])])
                              (VMap [(SStr "xs", VList [VStr "INT|FLOAT"])]) <> Panic
  /\ CheckValueRuntimeTypesMatch (VMap [(SStr "xs", VList [])])
                                 (VMap [(SStr "xs", VList [VStr "INT|FLOAT"])]) = Panic.
Proof.
  split; [| reflexivity].
  apply (proj1 C10_index_safe_after_validation); reflexivity.
Defined.

(** ** The map cases of the caster *)

Section MapCast.
Context {castLib : CastLib}.

(** [CastValue] against a map type expression, case by case. *)
Lemma CastValue_VMap (value : Value) (valueTypeMap : list (Scalar * Value)) :
  CastValue value (VMap valueTypeMap) =
  _ <- ValidateValueType (VMap valueTypeMap) ;;
  if isNil value then Ok VNil else
  match InterfaceToInterfaceInterfaceMap value with
  | None => Err (raise (ErrorInvalidPrimitiveType value [PrimTypeMap]))
  | Some valueMap =>
      if List.length valueTypeMap =? 0 then castEmptyMap valueMap
      else match genericMapOf valueTypeMap with
           | Some (keyType, valType) => castGenericMap valueMap keyType valType
           | None => castFixedMap valueMap valueTypeMap
           end
  end.
Proof.
  cbn [CastValue]. destruct (ValidateValueType (VMap valueTypeMap)); cbn [bind]; try reflexivity.
  destruct (isNil value); [reflexivity |].
  destruct (InterfaceToInterfaceInterfaceMap value) as [valueMap |]; [| reflexivity].
  destruct (List.length valueTypeMap =? 0); [reflexivity |].
  unfold genericMapOf, castFixedMap, castGenericMap.
  destruct valueTypeMap as [| [[ | | | keyStr | ] t] [| e2 rest]]; try reflexivity.
  destruct (isValidValueType keyStr); reflexivity.
Qed.
End MapCast.

Lemma mapGet_None_iff (m : list (Scalar * Value)) (k : Scalar) :
  mapGet m k = None <-> ~ In k (map fst m).
Proof.
  unfold mapGet. induction m as [| [k' v'] r IH]; cbn.
  - split; [intros _ [] | reflexivity].
  - destruct (Scalar_eq_dec k' k) as [-> | Hne].
    + split; [discriminate | intros H; contradiction H; now left].
    + rewrite IH. split; [intros H [Heq | Hin]; [congruence | now apply H]
                         | intros H Hin; apply H; now right].
Qed.

Lemma mapGet_Some_keys (m : list (Scalar * Value)) (k : Scalar) (v : Value) :
  mapGet m k = Some v -> In k (map fst m).
Proof.
  intros H. apply mapGet_In in H. now apply (in_map fst) in H.
Qed.

Lemma mapSet_fresh (acc : list (Scalar * Value)) (k : Scalar) (v : Value) :
  ~ In k (map fst acc) -> mapSet acc k v = acc ++ [(k, v)].
Proof.
  unfold mapSet. induction acc as [| [k' v'] r IH]; cbn; [reflexivity |].
  intros Hfresh. destruct (Scalar_eq_dec k' k) as [-> | Hne].
  - contradiction Hfresh. now left.
  - f_equal. apply IH. intros Hin. apply Hfresh. now right.
Qed.

Lemma mapGet_NoDup_In (m : list (Scalar * Value)) (k : Scalar) (v : Value) :
  NoDup (map fst m) -> In (k, v) m -> mapGet m k = Some v.
Proof.
  unfold mapGet. induction m as [| [k' v'] r IH]; cbn; [intros _ [] |].
  intros Hnd [Heq | Hin]; inversion Hnd as [| ? ? Hfresh Hnd']; subst.
  - injection Heq as -> ->. destruct (Scalar_eq_dec k k); [reflexivity | congruence].
  - destruct (Scalar_eq_dec k' k) as [-> | Hne]; [| now apply IH].
    contradiction Hfresh. now apply (in_map fst) in Hin.
Qed.

Lemma checkKeysSupported_ok (typeMap entries : list (Scalar * Value)) :
  checkKeysSupported typeMap entries = Ok tt
  <-> Forall (fun e => In (fst e) (map fst typeMap)) entries.
Proof.
  induction entries as [| [k v] r IH]; cbn [checkKeysSupported].
  - split; [constructor | reflexivity].
  - destruct (mapGet typeMap k) as [t |] eqn:Hget.
    + rewrite IH. split; [| now inversion 1].
      intros H. constructor; [| assumption]. now apply mapGet_Some_keys in Hget.
    + split; [discriminate |]. inversion 1 as [| ? ? Hin _]; subst.
      apply mapGet_None_iff in Hget. now contradiction Hget.
Qed.


Section FixedLoop.
Variable castAs : Value -> Value -> result Value.
Variable valueMap : list (Scalar * Value).

Lemma castFixedEntries_ok (typeEntries acc : list (Scalar * Value)) :
  (exists casted, castFixedEntries castAs valueMap typeEntries acc = Ok casted)
  <-> Forall (fieldCasts castAs valueMap) typeEntries.
Proof.
  revert acc. induction typeEntries as [| [k t] rest IH]; intros acc;
    cbn [castFixedEntries].
  - split; [constructor | intros _; now exists acc].
  - destruct (mapGet valueMap k) as [v |] eqn:Hget.
    + destruct (castAs v t) as [c | e |] eqn:Hcast; cbn [wrapErr bind].
      * rewrite IH. split; [| now inversion 1].
        intros H. constructor; [| assumption]. exists v, c. now split.
      * split; [intros [? H]; discriminate |].
        inversion 1 as [| ? ? [v' [c' [Hv Hc]]] _]; subst. cbn [fst snd] in *. congruence.
      * split; [intros [? H]; discriminate |].
        inversion 1 as [| ? ? [v' [c' [Hv Hc]]] _]; subst. cbn [fst snd] in *. congruence.
    + split; [intros [? H]; discriminate |].
      inversion 1 as [| ? ? [v' [c' [Hv Hc]]] _]; subst. cbn [fst snd] in *. congruence.
Qed.


Lemma castFixedEntries_panic (typeEntries acc : list (Scalar * Value)) :
  castFixedEntries castAs valueMap typeEntries acc = Panic ->
  exists k t v, In (k, t) typeEntries /\ castAs v t = Panic.
Proof.
  revert acc. induction typeEntries as [| [k t] rest IH]; intros acc;
    cbn [castFixedEntries]; [discriminate |].
  destruct (mapGet valueMap k) as [v |] eqn:Hget; [| discriminate].
  destruct (castAs v t) as [c | e' |] eqn:Hcast; cbn [wrapErr bind]; [| discriminate |].
  - intros H. destruct (IH _ H) as [k' [t' [v' [Hin Hp]]]].
    exists k', t', v'. split; [now right | assumption].
  - intros _. exists k, t, v. split; [now left | assumption].
Qed.


Lemma castFixedEntries_result (typeEntries acc casted : list (Scalar * Value)) :
  NoDup (map fst typeEntries) ->
  (forall k, In k (map fst typeEntries) -> ~ In k (map fst acc)) ->
  castFixedEntries castAs valueMap typeEntries acc = Ok casted ->
  exists fields, casted = acc ++ fields /\ Forall2 (castOfField castAs valueMap) typeEntries fields.
Proof.
  revert acc. induction typeEntries as [| [k t] rest IH]; intros acc Hnd Hfresh;
    cbn [castFixedEntries].
  - intros [= <-]. exists []. split; [now rewrite app_nil_r | constructor].
  - destruct (mapGet valueMap k) as [v |] eqn:Hget; [| discriminate].
    destruct (castAs v t) as [c | e' |] eqn:Hcast; cbn [wrapErr bind]; try discriminate.
    inversion Hnd as [| ? ? Hk Hnd']; subst.
    rewrite mapSet_fresh by (apply Hfresh; now left).
    intros H. apply IH in H; [| assumption |].
    + destruct H as [fields [-> Hfields]]. exists ((k, c) :: fields).
      split; [now rewrite <- app_assoc |].
      constructor; [| assumption]. split; [reflexivity |]. exists v. now split.
    + intros k' Hin. rewrite map_app, in_app_iff. cbn.
      intros [Hacc | [<- | []]]; [| contradiction].
      apply (Hfresh k'); [now right | assumption].
Qed.
End FixedLoop.

(** ** The caster never panics *)

Section CastTotal.
Context {castLib : CastLib}.

Lemma castUnion_no_panic (v : Value) (s : string) : castUnion v s <> Panic.
Proof.
  rewrite castUnion_firstAccepted. destruct (firstAccepted _ v priority); discriminate.
Qed.

Lemma castValueStr_no_panic (v : Value) (s : string) : castValueStr v s <> Panic.
Proof.
  unfold castValueStr. rewrite ValidateValueType_VStr.
  destruct (isValidValueType s); cbn [bind ValidateValue]; [| discriminate].
  destruct (isNil v); [discriminate | apply castUnion_no_panic].
Qed.

Lemma castItems_no_panic (s : string) (items : list Value) (i : nat) :
  castItems s items i <> Panic.
Proof.
  revert i. induction items as [| item rest IH]; intros i; cbn [castItems]; [discriminate |].
  pose proof (castValueStr_no_panic item s) as Hitem.
  destruct (castValueStr item s) as [c | e |]; cbn [wrapErr bind]; try discriminate;
    [| now contradiction Hitem].
  specialize (IH (S i)). destruct (castItems s rest (S i)); cbn [bind]; try discriminate.
  now contradiction IH.
Qed.

Lemma castGenericEntries_no_panic (castVal : Value -> result Value) (keyType : string)
      (entries acc : list (Scalar * Value)) :
  Forall (fun e => castVal (snd e) <> Panic) entries ->
  castGenericEntries castVal keyType entries acc <> Panic.
Proof.
  intros Hall. revert acc.
  induction Hall as [| [k v] rest Hv _ IH]; intros acc; cbn [castGenericEntries];
    [discriminate |].
  pose proof (castValueStr_no_panic (VScalar k) keyType) as Hk.
  destruct (castValueStr (VScalar k) keyType) as [kc | e |]; cbn [bind]; try discriminate;
    [| now contradiction Hk].
  cbn [snd] in Hv.
  destruct (castVal v) as [vc | e |]; cbn [wrapErr bind]; try discriminate; [apply IH |].
  now contradiction Hv.
Qed.

Lemma castList_no_panic (value valueType : Value) :
  ValidateValueType valueType = Ok tt -> castList value valueType <> Panic.
Proof.
  intros Hvalid. unfold castList.
  destruct (InterfaceToStrSlice valueType) as [[| s rest] |] eqn:Hstrs; [| | discriminate].
  - now contradiction (empty_slice_not_valid _ Hstrs).
  - destruct (InterfaceToInterfaceSlice value) as [items |]; [| discriminate].
    pose proof (castItems_no_panic s items 0) as Hitems.
    destruct (castItems s items 0); cbn [bind]; try discriminate. now contradiction Hitems.
Qed.

Lemma castEmptyMap_no_panic (valueMap : list (Scalar * Value)) : castEmptyMap valueMap <> Panic.
Proof. unfold castEmptyMap. destruct (List.length valueMap =? 0); discriminate. Qed.

Lemma CastValue_no_panic (valueType : Value) : forall value, CastValue value valueType <> Panic.
Proof.
  induction valueType as [k | items _ | entries IH] using Value_nested_ind; intros value.
  - cbn [CastValue].
    destruct (ValidateValueType (VScalar k)) as [[] | e |] eqn:Hvalid; cbn [bind ValidateValue];
      [| discriminate | now contradiction (ValidateValueType_no_panic (VScalar k))].
    destruct (isNil value); [discriminate |].
    destruct k; try (now apply castList_no_panic); try discriminate.
    pose proof (castUnion_no_panic value s) as Hu.
    destruct (castUnion value s); cbn [bind]; try discriminate. now contradiction Hu.
  - cbn [CastValue].
    destruct (ValidateValueType (VList items)) as [[] | e |] eqn:Hvalid; cbn [bind ValidateValue];
      [| discriminate | now contradiction (ValidateValueType_no_panic (VList items))].
    destruct (isNil value); [discriminate | now apply castList_no_panic].
  - rewrite CastValue_VMap.
    destruct (ValidateValueType (VMap entries)) as [[] | e |] eqn:Hvalid; cbn [bind];
      [| discriminate | now contradiction (ValidateValueType_no_panic (VMap entries))].
    destruct (isNil value); [discriminate |].
    destruct (InterfaceToInterfaceInterfaceMap value) as [valueMap |]; [| discriminate].
    destruct (List.length entries =? 0); [apply castEmptyMap_no_panic |].
    destruct (genericMapOf entries) as [[keyType valType] |] eqn:Hgen.
    + unfold castGenericMap.
      assert (Hval : forall v, CastValue v valType <> Panic).
      { destruct entries as [| [[ | | | keyStr | ] t] [| e2 rest]]; try discriminate.
        cbn in Hgen. destruct (isValidValueType keyStr); [| discriminate].
        injection Hgen as _ <-. inversion IH as [| ? ? IHt _]; subst. exact IHt. }
      pose proof (castGenericEntries_no_panic (fun v => CastValue v valType) keyType
                    valueMap []) as Hloop.
      destruct (castGenericEntries _ keyType valueMap []); cbn [bind]; try discriminate.
      exfalso. apply Hloop; [| reflexivity]. apply Forall_forall. intros e _. apply Hval.
    + unfold castFixedMap.
      destruct (castFixedEntries _ valueMap entries []) as [casted | e |] eqn:Hloop;
        cbn [bind]; try discriminate.
      * pose proof (checkKeysSupported_no_panic entries valueMap) as Hkeys.
        destruct (checkKeysSupported entries valueMap); cbn [bind]; try discriminate.
        now contradiction Hkeys.
      * apply castFixedEntries_panic in Hloop. destruct Hloop as [k [t [v [Hin Hp]]]].
        rewrite Forall_forall in IH. now contradiction (IH (k, t) Hin v).
Qed.
End CastTotal.

(** ** The location path of a cast error *)

Section ErrorPaths.
Context {castLib : CastLib}.




End ErrorPaths.

(** ** Fixed maps *)

Section FixedMap.
Context {castLib : CastLib}.

Lemma CastValue_fixed (valueMap valueTypeMap : list (Scalar * Value)) :
  ValidateValueType (VMap valueTypeMap) = Ok tt ->
  valueTypeMap <> [] ->
  genericMapOf valueTypeMap = None ->
  CastValue (VMap valueMap) (VMap valueTypeMap) = castFixedMap valueMap valueTypeMap.
Proof.
  intros Hvalid Hne Hgen. rewrite CastValue_VMap, Hvalid, Hgen. cbn [bind isNil].
  cbn [InterfaceToInterfaceInterfaceMap].
  destruct valueTypeMap; [now contradiction Hne | reflexivity].
Qed.

Lemma castFixedMap_ok (valueMap valueTypeMap : list (Scalar * Value)) :
  (exists casted, castFixedMap valueMap valueTypeMap = Ok casted)
  <-> Forall (fieldCasts CastValue valueMap) valueTypeMap
      /\ Forall (fun e => In (fst e) (map fst valueTypeMap)) valueMap.
Proof.
  unfold castFixedMap. rewrite <- (castFixedEntries_ok _ valueMap valueTypeMap []).
  rewrite <- checkKeysSupported_ok.
  destruct (castFixedEntries _ valueMap valueTypeMap []) as [casted | e |]; cbn [bind].
  - destruct (checkKeysSupported valueTypeMap valueMap) as [[] | e |]; cbn [bind].
    + split; [intros _; split; [now exists casted | reflexivity] | intros _; eexists; reflexivity].
    + split; [intros [? H]; discriminate | intros [_ H]; discriminate].
    + split; [intros [? H]; discriminate | intros [_ H]; discriminate].
  - split; [intros [? H]; discriminate | intros [[? H] _]; discriminate].
  - split; [intros [? H]; discriminate | intros [[? H] _]; discriminate].
Qed.

End FixedMap.



Section WrappedErrors.
Context {castLib : CastLib}.


Lemma CastValue_generic (valueMap : list (Scalar * Value)) (keyType : string) (valType : Value) :
  ValidateValueType (VMap [(SStr keyType, valType)]) = Ok tt ->
  isValidValueType keyType = true ->
  CastValue (VMap valueMap) (VMap [(SStr keyType, valType)])
  = castGenericMap valueMap keyType valType.
Proof.
  intros Hvalid Hkey. rewrite CastValue_VMap, Hvalid. cbn [bind isNil].
  cbn [InterfaceToInterfaceInterfaceMap List.length Nat.eqb genericMapOf].
  now rewrite Hkey.
Qed.

Lemma CastValue_list (items : list Value) (s : string) :
  isValidValueType s = true ->
  CastValue (VList items) (VList [VStr s])
  = valueSliceCasted <- castItems s items 0 ;; Ok (VList valueSliceCasted).
Proof.
  intros Hvalid. cbn [CastValue]. unfold validateFlatType, castList.
  cbn. rewrite Hvalid. reflexivity.
Qed.

End WrappedErrors.



(** The full path of a failure two maps and one list deep. *)
Example nested_error_path :
  CastValue (castLib := specCastLib)
            (VMap [(SStr "a", VMap [(SStr "k", VList [VStr "1"; VBool true])])])
            (VMap [(SStr "a", VMap [(SStr "STRING", VList [VStr "INT"])])])
  = Err (mkError [SegKey (SStr "a"); SegKey (SStr "k"); SegIndex 1]
                 (ErrorInvalidPrimitiveType (VBool true) [PrimTypeInt])).
Proof. reflexivity. Qed.

(** ** Casting a canonical value again *)

Lemma uniqueKeys_VMap (entries : list (Scalar * Value)) :
  uniqueKeys (VMap entries)
  <-> NoDup (map fst entries) /\ Forall (fun e => uniqueKeys (snd e)) entries.
Proof.
  cbn [uniqueKeys]. apply and_iff_compat_l.
  induction entries as [| e r IH].
  - split; [constructor | reflexivity].
  - rewrite IH. split; [intros [He Hr]; now constructor | now inversion 1].
Qed.

Lemma mapSet_keys (acc : list (Scalar * Value)) (k : Scalar) (v : Value) :
  In k (map fst acc) /\ map fst (mapSet acc k v) = map fst acc
  \/ ~ In k (map fst acc) /\ mapSet acc k v = acc ++ [(k, v)].
Proof.
  unfold mapSet. induction acc as [| [k' v'] r IH]; cbn.
  - right. split; [intros [] | reflexivity].
  - destruct (Scalar_eq_dec k' k) as [-> | Hne].
    + left. split; [now left | reflexivity].
    + destruct IH as [[Hin Hkeys] | [Hnin Hset]].
      * left. split; [now right |]. cbn. now rewrite Hkeys.
      * right. split; [intros [Heq | Hin]; [congruence | contradiction] |].
        now rewrite Hset.
Qed.

Lemma mapSet_NoDup (acc : list (Scalar * Value)) (k : Scalar) (v : Value) :
  NoDup (map fst acc) -> NoDup (map fst (mapSet acc k v)).
Proof.
  intros Hnd. destruct (mapSet_keys acc k v) as [[_ ->] | [Hnin ->]]; [assumption |].
  rewrite map_app. cbn. apply NoDup_app; [assumption | repeat constructor; intros [] |].
  intros x Hacc [<- | []]. contradiction.
Qed.

Lemma mapSet_Forall (Q : Scalar * Value -> Prop) (acc : list (Scalar * Value))
      (k : Scalar) (v : Value) :
  Forall Q acc -> Q (k, v) -> Forall Q (mapSet acc k v).
Proof.
  intros Hacc Hnew. unfold mapSet.
  induction Hacc as [| [k' v'] r Hhead Htail IH]; cbn; [now repeat constructor |].
  destruct (Scalar_eq_dec k' k) as [-> | Hne]; constructor; assumption.
Qed.

Section Idempotence.
Context {castLib : CastLib}.
Hypothesis int_keeps_int : forall n, InterfaceToInt64 (VInt n) = Some n.
Hypothesis float_keeps_float : forall f, InterfaceToFloat64 (VFloat f) = Some f.
Hypothesis no_narrowing :
  forall v f, InterfaceToInt64 v = None -> InterfaceToFloat64 v = Some f ->
              InterfaceToInt64 (VFloat f) = None.

Lemma castUnion_not_nil (v : Value) (s : string) (c : Scalar) :
  castUnion v s = Ok c -> c <> SNil.
Proof.
  unfold castUnion.
  repeat match goal with
         | |- context [match (if ?b then ?x else None) with _ => _ end] =>
             destruct (if b then x else None)
         end; intros [= <-]; discriminate.
Qed.

Lemma castUnion_idempotent (v : Value) (s : string) (c : Scalar) :
  castUnion v s = Ok c -> castUnion (VScalar c) s = Ok c.
Proof.
  unfold castUnion.
  destruct (hasKind (Split s pipe) IntegerValueType).
  - destruct (InterfaceToInt64 v) as [n |] eqn:Hint.
    + intros [= <-]. now rewrite int_keeps_int.
    + destruct (hasKind (Split s pipe) FloatValueType).
      * destruct (InterfaceToFloat64 v) as [f |] eqn:Hfloat.
        -- intros [= <-]. now rewrite (no_narrowing v f Hint Hfloat), float_keeps_float.
        -- destruct (hasKind (Split s pipe) StringValueType).
           ++ destruct (assertString v) as [str |] eqn:Hstr.
              ** destruct v as [[ | | | str' | ] | |]; try discriminate.
                 injection Hstr as ->. intros [= <-]. now rewrite Hint, Hfloat.
              ** destruct (hasKind (Split s pipe) BoolValueType); [| discriminate].
                 destruct (assertBool v) as [b |] eqn:Hb; [| discriminate].
                 destruct v as [[ | | | | b'] | |]; try discriminate.
                 injection Hb as ->. intros [= <-]. now rewrite Hint, Hfloat.
           ++ destruct (hasKind (Split s pipe) BoolValueType); [| discriminate].
              destruct (assertBool v) as [b |] eqn:Hb; [| discriminate].
              destruct v as [[ | | | | b'] | |]; try discriminate.
              injection Hb as ->. intros [= <-]. now rewrite Hint, Hfloat.
      * destruct (hasKind (Split s pipe) StringValueType).
        -- destruct (assertString v) as [str |] eqn:Hstr.
           ++ destruct v as [[ | | | str' | ] | |]; try discriminate.
              injection Hstr as ->. intros [= <-]. now rewrite Hint.
           ++ destruct (hasKind (Split s pipe) BoolValueType); [| discriminate].
              destruct (assertBool v) as [b |] eqn:Hb; [| discriminate].
              destruct v as [[ | | | | b'] | |]; try discriminate.
              injection Hb as ->. intros [= <-]. now rewrite Hint.
        -- destruct (hasKind (Split s pipe) BoolValueType); [| discriminate].
           destruct (assertBool v) as [b |] eqn:Hb; [| discriminate].
           destruct v as [[ | | | | b'] | |]; try discriminate.
           injection Hb as ->. intros [= <-]. now rewrite Hint.
  - destruct (hasKind (Split s pipe) FloatValueType).
    + destruct (InterfaceToFloat64 v) as [f |] eqn:Hfloat.
      * intros [= <-]. now rewrite float_keeps_float.
      * destruct (hasKind (Split s pipe) StringValueType).
        -- destruct (assertString v) as [str |] eqn:Hstr.
           ++ destruct v as [[ | | | str' | ] | |]; try discriminate.
              injection Hstr as ->. intros [= <-]. now rewrite Hfloat.
           ++ destruct (hasKind (Split s pipe) BoolValueType); [| discriminate].
              destruct (assertBool v) as [b |] eqn:Hb; [| discriminate].
              destruct v as [[ | | | | b'] | |]; try discriminate.
              injection Hb as ->. intros [= <-]. now rewrite Hfloat.
        -- destruct (hasKind (Split s pipe) BoolValueType); [| discriminate].
           destruct (assertBool v) as [b |] eqn:Hb; [| discriminate].
           destruct v as [[ | | | | b'] | |]; try discriminate.
           injection Hb as ->. intros [= <-]. now rewrite Hfloat.
    + destruct (hasKind (Split s pipe) StringValueType).
      * destruct (assertString v) as [str |] eqn:Hstr.
        -- destruct v as [[ | | | str' | ] | |]; try discriminate.
           injection Hstr as ->. now intros [= <-].
        -- destruct (hasKind (Split s pipe) BoolValueType); [| discriminate].
           destruct (assertBool v) as [b |] eqn:Hb; [| discriminate].
           destruct v as [[ | | | | b'] | |]; try discriminate.
           injection Hb as ->. now intros [= <-].
      * destruct (hasKind (Split s pipe) BoolValueType); [| discriminate].
        destruct (assertBool v) as [b |] eqn:Hb; [| discriminate].
        destruct v as [[ | | | | b'] | |]; try discriminate.
        injection Hb as ->. now intros [= <-].
Qed.

Lemma castValueStr_idempotent (v : Value) (s : string) (c : Scalar) :
  castValueStr v s = Ok c -> castValueStr (VScalar c) s = Ok c.
Proof.
  unfold castValueStr.
  destruct (ValidateValueType (VStr s)); cbn [bind ValidateValue]; try discriminate.
  destruct (isNil v).
  - now intros [= <-].
  - intros H. pose proof (castUnion_not_nil v s c H) as Hnil.
    destruct c; [now contradiction Hnil | | | |]; cbn [isNil];
      now apply castUnion_idempotent in H.
Qed.

Lemma castItems_idempotent (s : string) (items casted : list Value) (i j : nat) :
  castItems s items i = Ok casted -> castItems s casted j = Ok casted.
Proof.
  revert casted i j. induction items as [| item rest IH]; intros casted i j;
    cbn [castItems].
  - now intros [= <-].
  - destruct (castValueStr item s) as [c | |] eqn:Hitem; cbn [wrapErr bind]; try discriminate.
    destruct (castItems s rest (S i)) as [cs | |] eqn:Hrest; cbn [bind]; try discriminate.
    intros [= <-]. cbn [castItems].
    rewrite (castValueStr_idempotent item s c Hitem). cbn [wrapErr bind].
    now rewrite (IH cs (S i) (S j) Hrest).
Qed.

Lemma castGenericEntries_canonical (castVal : Value -> result Value) (keyType : string) :
  (forall v c, castVal v = Ok c -> castVal c = Ok c) ->
  forall entries acc casted,
    Forall (canonicalEntry castVal keyType) acc ->
    NoDup (map fst acc) ->
    castGenericEntries castVal keyType entries acc = Ok casted ->
    Forall (canonicalEntry castVal keyType) casted /\ NoDup (map fst casted).
Proof.
  intros Hidem. induction entries as [| [key val] rest IH]; intros acc casted Hacc Hnd;
    cbn [castGenericEntries].
  - intros [= <-]. now split.
  - destruct (castValueStr (VScalar key) keyType) as [kc | |] eqn:Hkey; cbn [bind];
      try discriminate.
    destruct (castVal val) as [vc | |] eqn:Hval; cbn [wrapErr bind]; try discriminate.
    apply IH; [| now apply mapSet_NoDup].
    apply mapSet_Forall; [assumption |]. split; cbn [fst snd].
    + now apply castValueStr_idempotent in Hkey.
    + now apply Hidem in Hval.
Qed.

Lemma castGenericEntries_refl (castVal : Value -> result Value) (keyType : string) :
  forall entries acc,
    Forall (canonicalEntry castVal keyType) entries ->
    NoDup (map fst entries) ->
    (forall k, In k (map fst entries) -> ~ In k (map fst acc)) ->
    castGenericEntries castVal keyType entries acc = Ok (acc ++ entries).
Proof.
  induction entries as [| [key val] rest IH]; intros acc Hcanon Hnd Hfresh;
    cbn [castGenericEntries].
  - now rewrite app_nil_r.
  - inversion Hcanon as [| ? ? [Hkey Hval] Hrest]; subst. cbn [fst snd] in Hkey, Hval.
    inversion Hnd as [| ? ? Hnotin Hnd']; subst.
    rewrite Hkey, Hval. cbn [wrapErr bind].
    rewrite mapSet_fresh by (apply Hfresh; now left).
    rewrite IH; [now rewrite <- app_assoc | assumption | assumption |].
    intros k Hin. rewrite map_app, in_app_iff. cbn.
    intros [Hacc | [<- | []]]; [| contradiction].
    apply (Hfresh k); [now right | assumption].
Qed.

Lemma castFixedEntries_refl (castAs : Value -> Value -> result Value)
      (fields : list (Scalar * Value)) :
  forall typeEntries fs acc,
    Forall2 (fun e r => fst r = fst e /\ mapGet fields (fst e) = Some (snd r)
                        /\ castAs (snd r) (snd e) = Ok (snd r)) typeEntries fs ->
    NoDup (map fst typeEntries) ->
    (forall k, In k (map fst typeEntries) -> ~ In k (map fst acc)) ->
    castFixedEntries castAs fields typeEntries acc = Ok (acc ++ fs).
Proof.
  induction typeEntries as [| [k t] rest IH]; intros fs acc Hpairs Hnd Hfresh;
    inversion Hpairs as [| ? [k' c] ? fs' [Hk [Hget Hcast]] Hrest]; subst;
    cbn [castFixedEntries].
  - now rewrite app_nil_r.
  - cbn [fst snd] in Hk, Hget, Hcast. subst k'.
    inversion Hnd as [| ? ? Hnotin Hnd']; subst.
    rewrite Hget, Hcast. cbn [wrapErr bind].
    rewrite mapSet_fresh by (apply Hfresh; now left).
    rewrite (IH fs'); [now rewrite <- app_assoc | assumption | assumption |].
    intros k' Hin. rewrite map_app, in_app_iff. cbn.
    intros [Hacc | [<- | []]]; [| contradiction].
    apply (Hfresh k'); [now right | assumption].
Qed.

Lemma Forall2_In_r (A B : Type) (R : A -> B -> Prop) (l : list A) (l' : list B) :
  Forall2 R l l' -> Forall2 (fun a b => R a b /\ In b l') l l'.
Proof.
  induction 1 as [| a b l l' Hab _ IH]; constructor.
  - split; [assumption | now left].
  - eapply Forall2_impl; [| exact IH]. intros a' b' [HR Hin]. split; [assumption | now right].
Qed.

Lemma Forall2_Forall_l (A B : Type) (P : A -> Prop) (R : A -> B -> Prop)
      (l : list A) (l' : list B) :
  Forall P l -> Forall2 R l l' -> Forall2 (fun a b => P a /\ R a b) l l'.
Proof.
  intros HP HR. induction HR as [| a b l l' Hab _ IH]; constructor;
    inversion HP; subst; [now split | now apply IH].
Qed.

Lemma Forall2_fst_keys (R : Scalar * Value -> Scalar * Value -> Prop)
      (l l' : list (Scalar * Value)) :
  Forall2 (fun e r => fst r = fst e /\ R e r) l l' -> map fst l' = map fst l.
Proof.
  induction 1 as [| e r l l' [Hk _] _ IH]; cbn; [reflexivity | now rewrite Hk, IH].
Qed.

Lemma CastValue_nil (valueType : Value) :
  ValidateValueType valueType = Ok tt -> CastValue VNil valueType = Ok VNil.
Proof.
  intros Hvalid. destruct valueType; cbn [CastValue]; rewrite Hvalid; reflexivity.
Qed.

Lemma isNil_true (v : Value) : isNil v = true -> v = VNil.
Proof. destruct v as [[ | | | | ] | |]; cbn; congruence. Qed.

Lemma castFixedMap_idempotent (valueMap valueTypeMap : list (Scalar * Value)) (casted : Value) :
  NoDup (map fst valueTypeMap) ->
  Forall (fun e => forall v c, CastValue v (snd e) = Ok c -> CastValue c (snd e) = Ok c)
         valueTypeMap ->
  castFixedMap valueMap valueTypeMap = Ok casted ->
  exists fields, casted = VMap fields /\ castFixedMap fields valueTypeMap = Ok casted.
Proof.
  intros Hnd IH. unfold castFixedMap.
  destruct (castFixedEntries _ valueMap valueTypeMap []) as [fields | |] eqn:Hloop;
    cbn [bind]; try discriminate.
  destruct (checkKeysSupported valueTypeMap valueMap) as [[] | |]; cbn [bind];
    try discriminate.
  intros [= <-]. exists fields. split; [reflexivity |].
  apply castFixedEntries_result in Hloop; [| assumption | now intros k _ []].
  destruct Hloop as [fields' [Heq Hpairs]]. cbn [app] in Heq. subst fields'.
  pose proof (Forall2_fst_keys _ _ _ Hpairs) as Hkeys.
  assert (Hpairs' :
            Forall2 (fun e r => fst r = fst e /\ mapGet fields (fst e) = Some (snd r)
                                /\ CastValue (snd r) (snd e) = Ok (snd r))
                    valueTypeMap fields).
  { apply Forall2_In_r in Hpairs. apply (Forall2_Forall_l _ _ _ _ _ _ IH) in Hpairs.
    eapply Forall2_impl; [| exact Hpairs].
    intros e [k c] [He [[Hk [v [_ Hc]]] Hin]]. cbn [fst snd] in *. subst k.
    split; [reflexivity |]. split.
    - apply mapGet_NoDup_In; [now rewrite Hkeys | assumption].
    - now apply (He v). }
  rewrite (castFixedEntries_refl (fun v t => CastValue v t) fields valueTypeMap fields []
             Hpairs' Hnd)
    by (now intros k _ []).
  cbn [app bind].
  assert (Hsupported : checkKeysSupported valueTypeMap fields = Ok tt).
  { apply checkKeysSupported_ok. apply Forall_forall. intros r Hin.
    rewrite <- Hkeys. now apply in_map. }
  now rewrite Hsupported.
Qed.

Lemma castGenericMap_idempotent (valueMap : list (Scalar * Value)) (keyType : string)
      (valType casted : Value) :
  (forall v c, CastValue v valType = Ok c -> CastValue c valType = Ok c) ->
  castGenericMap valueMap keyType valType = Ok casted ->
  exists entries, casted = VMap entries /\ castGenericMap entries keyType valType = Ok casted.
Proof.
  intros IH. unfold castGenericMap.
  destruct (castGenericEntries _ keyType valueMap []) as [entries | |] eqn:Hloop;
    cbn [bind]; try discriminate.
  intros [= <-]. exists entries. split; [reflexivity |].
  apply castGenericEntries_canonical in Hloop; [| exact IH | constructor | constructor].
  destruct Hloop as [Hcanon Hnd].
  rewrite (castGenericEntries_refl (fun v => CastValue v valType) keyType entries []
             Hcanon Hnd) by (now intros k _ []).
  reflexivity.
Qed.

Lemma genericMapOf_Some (entries : list (Scalar * Value)) (keyType : string) (valType : Value) :
  genericMapOf entries = Some (keyType, valType) -> entries = [(SStr keyType, valType)].
Proof.
  destruct entries as [| [[ | | | keyStr | ] t] [| e2 rest]]; cbn; try discriminate.
  destruct (isValidValueType keyStr); [| discriminate]. now intros [= -> ->].
Qed.

Lemma CastValue_idempotent :
  forall value valueType casted : Value,
    uniqueKeys valueType ->
    CastValue value valueType = Ok casted ->
    CastValue casted valueType = Ok casted.
Proof.
  intros value valueType. revert value.
  induction valueType as [k | items _ | entries IH] using Value_nested_ind;
    intros value casted Huniq Hcast.
  - destruct k; try (cbn in Hcast; discriminate).
    rewrite CastValue_VStr in Hcast |- *.
    destruct (castValueStr value s) as [c | |] eqn:Hc; cbn [bind] in Hcast; try discriminate.
    injection Hcast as <-. now rewrite (castValueStr_idempotent value s c Hc).
  - destruct (ValidateValueType (VList items)) as [[] | |] eqn:Hvalid;
      [| cbn [CastValue] in Hcast; rewrite Hvalid in Hcast; discriminate ..].
    destruct (isNil value) eqn:Hnil.
    { apply isNil_true in Hnil. subst value. rewrite (CastValue_nil _ Hvalid) in Hcast.
      injection Hcast as <-. now apply CastValue_nil. }
    destruct (ValidateValueType_VList _ Hvalid) as [s [-> Hs]].
    destruct value as [[ | | | | ] | vitems | ventries]; try discriminate Hnil;
      try (cbn in Hcast; rewrite Hs in Hcast; cbn in Hcast; discriminate).
    rewrite (CastValue_list vitems s Hs) in Hcast.
    destruct (castItems s vitems 0) as [cs | |] eqn:Hitems; cbn [bind] in Hcast;
      try discriminate.
    injection Hcast as <-. rewrite (CastValue_list cs s Hs).
    now rewrite (castItems_idempotent s vitems cs 0 0 Hitems).
  - apply uniqueKeys_VMap in Huniq. destruct Huniq as [Hnd Hvals].
    destruct (ValidateValueType (VMap entries)) as [[] | |] eqn:Hvalid;
      [| cbn [CastValue] in Hcast; rewrite Hvalid in Hcast; discriminate ..].
    destruct (isNil value) eqn:Hnil.
    { apply isNil_true in Hnil. subst value. rewrite (CastValue_nil _ Hvalid) in Hcast.
      injection Hcast as <-. now apply CastValue_nil. }
    assert (IH' : Forall (fun e => forall v c, CastValue v (snd e) = Ok c ->
                                               CastValue c (snd e) = Ok c) entries).
    { rewrite Forall_forall in *. intros e He v c. apply (IH e He). now apply Hvals. }
    rewrite CastValue_VMap, Hvalid in Hcast. cbn [bind] in Hcast. rewrite Hnil in Hcast.
    destruct (InterfaceToInterfaceInterfaceMap value) as [valueMap |]; [| discriminate].
    destruct (List.length entries =? 0) eqn:Hlen.
    + unfold castEmptyMap in Hcast.
      destruct (List.length valueMap =? 0); [| discriminate]. injection Hcast as <-.
      rewrite CastValue_VMap, Hvalid. cbn [bind isNil InterfaceToInterfaceInterfaceMap].
      now rewrite Hlen.
    + destruct (genericMapOf entries) as [[keyType valType] |] eqn:Hgen.
      * pose proof (genericMapOf_Some _ _ _ Hgen) as ->.
        inversion IH' as [| ? ? IHt _]; subst. cbn [snd] in IHt.
        destruct (castGenericMap_idempotent _ _ _ _ IHt Hcast) as [rm [-> Hre]].
        rewrite CastValue_VMap, Hvalid. cbn [bind isNil InterfaceToInterfaceInterfaceMap].
        now rewrite Hlen, Hgen.
      * destruct (castFixedMap_idempotent _ _ _ Hnd IH' Hcast) as [fields [-> Hre]].
        rewrite CastValue_VMap, Hvalid. cbn [bind isNil InterfaceToInterfaceInterfaceMap].
        now rewrite Hlen, Hgen.
Qed.
End Idempotence.


(** ** Enumeration order and outcomes *)

Lemma Forall_same_entries (A : Type) (P P' : A -> Prop) (R : A -> A -> Prop)
      (m p m' : list A) :
  Permutation m p ->
  Forall2 R p m' ->
  (forall e e', In e m -> In e' m' -> R e e' -> (P e <-> P' e')) ->
  (Forall P m <-> Forall P' m').
Proof.
  intros Hperm Hpairs Hiff.
  assert (Hiff' : forall e e', In e p -> In e' m' -> R e e' -> (P e <-> P' e')).
  { intros e e' Hin. apply Hiff. now apply (Permutation_in _ (Permutation_sym Hperm)). }
  clear Hiff. transitivity (Forall P p).
  - split; apply Permutation_Forall; [assumption | now apply Permutation_sym].
  - clear Hperm. induction Hpairs as [| e e' p m' Hee' _ IH].
    + split; constructor.
    + assert (Hhead : P e <-> P' e') by (apply Hiff'; [now left | now left | assumption]).
      assert (Htail : Forall P p <-> Forall P' m').
      { apply IH. intros x x' Hin Hin'. apply Hiff'; now right. }
      split; inversion 1; subst; constructor; tauto.
Qed.

Lemma sameEntries_keys (same : Value -> Value -> Prop) (p m' : list (Scalar * Value)) :
  Forall2 (sameEntry same) p m' -> map fst p = map fst m'.
Proof.
  induction 1 as [| e e' p m' [Hk _] _ IH]; cbn; [reflexivity | now rewrite Hk, IH].
Qed.

Lemma sameEntries_keys_perm (same : Value -> Value -> Prop) (m p m' : list (Scalar * Value)) :
  Permutation m p -> Forall2 (sameEntry same) p m' ->
  Permutation (map fst m) (map fst m').
Proof.
  intros Hperm Hpairs. rewrite <- (sameEntries_keys _ _ _ Hpairs).
  now apply Permutation_map.
Qed.

Lemma sameEntries_length (same : Value -> Value -> Prop) (m p m' : list (Scalar * Value)) :
  Permutation m p -> Forall2 (sameEntry same) p m' -> List.length m = List.length m'.
Proof.
  intros Hperm Hpairs. rewrite (Permutation_length Hperm).
  now apply (Forall2_length Hpairs).
Qed.

Lemma foundGenericKey_same (same : Value -> Value -> Prop) (m p m' : list (Scalar * Value)) :
  Permutation m p -> Forall2 (sameEntry same) p m' ->
  foundGenericKey m = foundGenericKey m'.
Proof.
  intros Hperm Hpairs.
  assert (Hkeys : forall k, In k (map fst m) <-> In k (map fst m')).
  { intros k. pose proof (sameEntries_keys_perm _ _ _ _ Hperm Hpairs) as Hp.
    split; apply Permutation_in; [assumption | now apply Permutation_sym]. }
  assert (Hfound : forall l, foundGenericKey l = true
                             <-> exists k, In k (map fst l) /\ isGenericKey k = true).
  { intros l. unfold foundGenericKey. rewrite existsb_exists. split.
    - intros [e [Hin He]]. exists (fst e). split; [now apply in_map | assumption].
    - intros [k [Hin Hk]]. apply in_map_iff in Hin. destruct Hin as [e [<- Hin]]. now exists e. }
  destruct (foundGenericKey m) eqn:E1, (foundGenericKey m') eqn:E2; try reflexivity.
  - apply Hfound in E1. destruct E1 as [k [Hin Hk]].
    rewrite <- E2. symmetry. apply Hfound. exists k. split; [now apply Hkeys | assumption].
  - apply Hfound in E2. destruct E2 as [k [Hin Hk]].
    rewrite <- E1. apply Hfound. exists k. split; [now apply Hkeys | assumption].
Qed.

Lemma allStrings_same (items items' : list Value) :
  Forall2 sameValue items items' -> allStrings items = allStrings items'.
Proof.
  induction 1 as [| x x' items items' Hx _ IH]; [reflexivity |].
  inversion Hx; subst; cbn [allStrings]; [| reflexivity | reflexivity].
  destruct k; try reflexivity. now rewrite IH.
Qed.

Lemma InterfaceToStrSlice_same (v v' : Value) :
  sameValue v v' -> InterfaceToStrSlice v = InterfaceToStrSlice v'.
Proof.
  inversion 1; subst; cbn [InterfaceToStrSlice]; try reflexivity. now apply allStrings_same.
Qed.

Lemma assertString_same (v v' : Value) : sameValue v v' -> assertString v = assertString v'.
Proof. inversion 1; reflexivity. Qed.



Lemma validateFlatType_same (v v' : Value) :
  sameValue v v' -> (validateFlatType v = Ok tt <-> validateFlatType v' = Ok tt).
Proof.
  intros Hsame. unfold validateFlatType.
  rewrite <- (assertString_same _ _ Hsame), <- (InterfaceToStrSlice_same _ _ Hsame).
  destruct (assertString v); [reflexivity |].
  destruct (InterfaceToStrSlice v) as [strs |]; [reflexivity |].
  split; discriminate.
Qed.

Lemma ValidateValueType_same (valueType : Value) :
  forall valueType',
    sameValue valueType valueType' ->
    (ValidateValueType valueType = Ok tt <-> ValidateValueType valueType' = Ok tt).
Proof.
  induction valueType as [k | items _ | entries IH] using Value_nested_ind;
    intros valueType' Hsame.
  - inversion Hsame; subst. reflexivity.
  - inversion Hsame; subst. cbn [ValidateValueType]. now apply validateFlatType_same.
  - inversion Hsame as [| | ? p entries' Hperm Hpairs]; subst. cbn [ValidateValueType].
    rewrite <- (foundGenericKey_same _ _ _ _ Hperm Hpairs).
    rewrite <- (sameEntries_length _ _ _ _ Hperm Hpairs).
    destruct (foundGenericKey entries && negb (List.length entries =? 1));
      [split; discriminate |].
    rewrite !validateEntries_ok.
    apply (Forall_same_entries _ _ _ (sameEntry sameValue) entries p entries' Hperm Hpairs).
    intros e e' Hin _ [Hk Hv]. rewrite <- Hk.
    rewrite Forall_forall in IH. now rewrite (IH e Hin (snd e') Hv).
Qed.

Lemma Forall2_In_left (A B : Type) (R : A -> B -> Prop) (l : list A) (l' : list B) (x : A) :
  Forall2 R l l' -> In x l -> exists y, In y l' /\ R x y.
Proof.
  induction 1 as [| a b l l' Hab _ IH]; [intros [] |].
  intros [<- | Hin].
  - exists b. split; [now left | assumption].
  - destruct (IH Hin) as [y [Hy HR]]. exists y. split; [now right | assumption].
Qed.

Lemma Forall2_In_right (A B : Type) (R : A -> B -> Prop) (l : list A) (l' : list B) (y : B) :
  Forall2 R l l' -> In y l' -> exists x, In x l /\ R x y.
Proof.
  induction 1 as [| a b l l' Hab _ IH]; [intros [] |].
  intros [<- | Hin].
  - exists a. split; [now left | assumption].
  - destruct (IH Hin) as [x [Hx HR]]. exists x. split; [now right | assumption].
Qed.

Lemma mapGet_same (same : Value -> Value -> Prop) (m p m' : list (Scalar * Value)) (k : Scalar) :
  Permutation m p ->
  Forall2 (sameEntry same) p m' ->
  NoDup (map fst m) ->
  NoDup (map fst m') ->
  (forall v, mapGet m k = Some v -> exists v', mapGet m' k = Some v' /\ same v v')
  /\ (forall v', mapGet m' k = Some v' -> exists v, mapGet m k = Some v /\ same v v').
Proof.
  intros Hperm Hpairs Hnd Hnd'. split.
  - intros v Hget. apply mapGet_In in Hget.
    apply (Permutation_in _ Hperm) in Hget.
    destruct (Forall2_In_left _ _ _ _ _ _ Hpairs Hget) as [[k' v'] [Hin [Hk Hv]]].
    cbn [fst snd] in Hk, Hv. subst k'. exists v'. split; [| assumption].
    now apply mapGet_NoDup_In.
  - intros v' Hget. apply mapGet_In in Hget.
    destruct (Forall2_In_right _ _ _ _ _ _ Hpairs Hget) as [[k' v] [Hin [Hk Hv]]].
    cbn [fst snd] in Hk, Hv. subst k'. exists v. split; [| assumption].
    apply mapGet_NoDup_In; [assumption |].
    now apply (Permutation_in _ (Permutation_sym Hperm)).
Qed.

Lemma genericMapOf_same (m p m' : list (Scalar * Value)) :
  Permutation m p ->
  Forall2 (sameEntry sameValue) p m' ->
  match genericMapOf m, genericMapOf m' with
  | Some (k, t), Some (k', t') => k = k' /\ sameValue t t'
  | None, None => True
  | _, _ => False
  end.
Proof.
  intros Hperm Hpairs.
  pose proof (sameEntries_length _ _ _ _ Hperm Hpairs) as Hlen.
  destruct m as [| [k t] [| e2 rest]].
  - destruct m'; [exact I | discriminate].
  - apply Permutation_length_1_inv in Hperm. subst p.
    inversion Hpairs as [| ? [k' t'] ? ? [Hk Ht] Hrest]; subst.
    inversion Hrest; subst. cbn [fst snd] in Hk, Ht. subst k'.
    cbn [genericMapOf]. destruct k; try exact I.
    destruct (isValidValueType s); [now split | exact I].
  - destruct m' as [| [k' t'] [| e2' rest']]; try discriminate.
    cbn [genericMapOf]. destruct k, k'; exact I.
Qed.


Lemma bind_unit_ok (r : result unit) (k : result unit) :
  (_ <- r ;; k) = Ok tt <-> r = Ok tt /\ k = Ok tt.
Proof.
  destruct r as [[] | |]; cbn [bind]; split; try tauto; try discriminate;
    intros [H _]; discriminate.
Qed.

Lemma matchGenericEntries_ok (matchVal : Value -> result unit) (keyType : string)
      (entries : list (Scalar * Value)) :
  matchGenericEntries matchVal keyType entries = Ok tt
  <-> Forall (fun e => matchUnion (VScalar (fst e)) keyType = Ok tt
                       /\ matchVal (snd e) = Ok tt) entries.
Proof.
  induction entries as [| [k v] rest IH]; cbn [matchGenericEntries].
  - split; [constructor | reflexivity].
  - rewrite bind_unit_ok, bind_unit_ok, IH. cbn [fst snd].
    assert (Hwrap : wrapErr (matchVal v) [SegKey k] = Ok tt <-> matchVal v = Ok tt).
    { destruct (matchVal v) as [[] | |]; cbn; split; congruence. }
    rewrite Hwrap. split.
    + intros [Hk [Hv Hrest]]. now constructor.
    + inversion 1 as [| ? ? [Hk Hv] Hrest]; subst. now repeat split.
Qed.

Lemma matchFixedEntries_ok (matchAs : Value -> Value -> result unit)
      (runtimeTypeMap schemaEntries : list (Scalar * Value)) :
  matchFixedEntries matchAs runtimeTypeMap schemaEntries = Ok tt
  <-> Forall (fun e => exists r, mapGet runtimeTypeMap (fst e) = Some r
                                 /\ matchAs r (snd e) = Ok tt) schemaEntries.
Proof.
  induction schemaEntries as [| [k t] rest IH]; cbn [matchFixedEntries].
  - split; [constructor | reflexivity].
  - destruct (mapGet runtimeTypeMap k) as [r |] eqn:Hget.
    + rewrite bind_unit_ok, IH.
      assert (Hwrap : wrapErr (matchAs r t) [SegKey k] = Ok tt <-> matchAs r t = Ok tt).
      { destruct (matchAs r t) as [[] | |]; cbn; split; congruence. }
      rewrite Hwrap. split.
      * intros [Hr Hrest]. constructor; [| assumption]. exists r. now split.
      * inversion 1 as [| ? ? [r' [Hr' Hm]] Hrest]; subst. cbn [fst snd] in *.
        split; [congruence | assumption].
    + split; [discriminate |].
      inversion 1 as [| ? ? [r' [Hr' Hm]] Hrest]; subst. cbn [fst snd] in *. congruence.
Qed.

Lemma CheckValueRuntimeTypesMatch_VMap (runtimeType : Value)
      (schemaTypeMap : list (Scalar * Value)) :
  CheckValueRuntimeTypesMatch runtimeType (VMap schemaTypeMap) =
  match InterfaceToInterfaceInterfaceMap runtimeType with
  | None => Err (raise (ErrorUnsupportedDataType runtimeType (VMap schemaTypeMap)))
  | Some runtimeTypeMap =>
      match genericMapOf schemaTypeMap with
      | Some (keyType, valType) =>
          matchGenericEntries (fun r => CheckValueRuntimeTypesMatch r valType)
                              keyType runtimeTypeMap
      | None =>
          _ <- matchFixedEntries (fun r t => CheckValueRuntimeTypesMatch r t)
                                 runtimeTypeMap schemaTypeMap ;;
          checkKeysSupported schemaTypeMap runtimeTypeMap
      end
  end.
Proof.
  cbn [CheckValueRuntimeTypesMatch].
  destruct (InterfaceToInterfaceInterfaceMap runtimeType) as [runtimeTypeMap |]; [| reflexivity].
  unfold genericMapOf.
  destruct schemaTypeMap as [| [[ | | | keyStr | ] t] [| e2 rest]]; try reflexivity.
  destruct (isValidValueType keyStr); reflexivity.
Qed.

Lemma decoded_map_uniqueKeys (v : Value) (m : list (Scalar * Value)) :
  InterfaceToInterfaceInterfaceMap v = Some m ->
  uniqueKeys v ->
  NoDup (map fst m) /\ Forall (fun e => uniqueKeys (snd e)) m.
Proof.
  destruct v as [[ | | | | ] | | entries]; cbn [InterfaceToInterfaceInterfaceMap];
    try discriminate; intros [= <-].
  - intros _. split; constructor.
  - apply uniqueKeys_VMap.
Qed.

Lemma keys_supported_same (m p m' rm q rm' : list (Scalar * Value)) :
  Permutation m p -> Forall2 (sameEntry sameValue) p m' ->
  Permutation rm q -> Forall2 (sameEntry sameValue) q rm' ->
  (checkKeysSupported m rm = Ok tt <-> checkKeysSupported m' rm' = Ok tt).
Proof.
  intros Hperm Hpairs Hrperm Hrpairs. rewrite !checkKeysSupported_ok.
  apply (Forall_same_entries _ _ _ (sameEntry sameValue) rm q rm' Hrperm Hrpairs).
  intros e e' _ _ [Hk _]. rewrite <- Hk.
  pose proof (sameEntries_keys_perm _ _ _ _ Hperm Hpairs) as Hkeys.
  split; apply Permutation_in; [assumption | now apply Permutation_sym].
Qed.


Lemma is_ok_true (A : Type) (r : result A) : is_ok r = true <-> exists a, r = Ok a.
Proof.
  destruct r as [a | e |]; cbn; split; try discriminate.
  - intros _. now exists a.
  - reflexivity.
  - intros [a H]. discriminate.
  - intros [a H]. discriminate.
Qed.


Section SameOutcome.
Context {castLib : CastLib}.
Hypothesis int_same :
  forall v v', sameValue v v' -> InterfaceToInt64 v = InterfaceToInt64 v'.
Hypothesis float_same :
  forall v v', sameValue v v' -> InterfaceToFloat64 v = InterfaceToFloat64 v'.


Lemma castItems_ok (s : string) (items : list Value) (i : nat) :
  is_ok (castItems s items i) = true
  <-> Forall (fun item => is_ok (castValueStr item s) = true) items.
Proof.
  revert i. induction items as [| item rest IH]; intros i; cbn [castItems].
  - split; [constructor | reflexivity].
  - rewrite Forall_cons_iff, <- (IH (S i)).
    destruct (castValueStr item s) as [c | e |]; cbn [wrapErr bind is_ok];
      [| split; [discriminate | intros [H _]; discriminate] ..].
    destruct (castItems s rest (S i)) as [cs | e |]; cbn [bind is_ok]; tauto.
Qed.

Lemma castGenericEntries_ok (castVal : Value -> result Value) (keyType : string)
      (entries acc : list (Scalar * Value)) :
  is_ok (castGenericEntries castVal keyType entries acc) = true
  <-> Forall (fun e => is_ok (castValueStr (VScalar (fst e)) keyType) = true
                       /\ is_ok (castVal (snd e)) = true) entries.
Proof.
  revert acc. induction entries as [| [k v] rest IH]; intros acc; cbn [castGenericEntries].
  - split; [constructor | reflexivity].
  - rewrite Forall_cons_iff. cbn [fst snd].
    destruct (castValueStr (VScalar k) keyType) as [kc | e |]; cbn [bind is_ok];
      [| split; [discriminate | intros [[H _] _]; discriminate] ..].
    destruct (castVal v) as [vc | e |]; cbn [wrapErr bind is_ok];
      [| split; [discriminate | intros [[_ H] _]; discriminate] ..].
    rewrite IH. tauto.
Qed.





End SameOutcome.

(** *** The wrappers over argument and column maps *)


Lemma argGet_None_iff (m : list (string * Value)) (k : string) :
  argGet m k = None <-> ~ In k (map fst m).
Proof.
  unfold argGet. induction m as [| [k' v'] r IH]; cbn.
  - split; [intros _ [] | reflexivity].
  - destruct (string_dec k' k) as [-> | Hne].
    + split; [discriminate | intros H; contradiction H; now left].
    + rewrite IH. split; [intros H [Heq | Hin]; [congruence | now apply H]
                         | intros H Hin; apply H; now right].
Qed.




Lemma ValidateArgTypes_ok (argTypes : list (string * Value)) :
  ValidateArgTypes argTypes = Ok tt
  <-> Forall (fun e => isValidValueType (fst e) = false
                       /\ ValidateValueType (snd e) = Ok tt) argTypes.
Proof.
  induction argTypes as [| [name t] rest IH]; cbn [ValidateArgTypes].
  - split; [constructor | reflexivity].
  - rewrite Forall_cons_iff. cbn [fst snd].
    destruct (isValidValueType name);
      [split; [discriminate | intros [[H _] _]; discriminate] |].
    destruct (ValidateValueType t) as [[] | e |]; cbn [wrapErr bind];
      [| split; [discriminate | intros [[_ H] _]; discriminate] ..].
    rewrite IH. tauto.
Qed.













(** Two keys of a generic map that cast to the same key: the entry that
    survives is the one enumerated last. *)
Example colliding_keys_depend_on_enumeration :
  CastValue (castLib := specCastLib)
            (VMap [(SStr "1", VStr "a"); (SInt 1, VStr "b")])
            (VMap [(SStr "INT", VStr "STRING")])
  = Ok (VMap [(SInt 1, VStr "b")])
  /\ CastValue (castLib := specCastLib)
               (VMap [(SInt 1, VStr "b"); (SStr "1", VStr "a")])
               (VMap [(SStr "INT", VStr "STRING")])
     = Ok (VMap [(SInt 1, VStr "a")]).
Proof. split; reflexivity. Qed.

(** ** Casting a canonical value again, under any enumeration order *)

Lemma sameValue_refl (v : Value) : sameValue v v.
Proof.
  induction v as [k | items IH | entries IH] using Value_nested_ind.
  - constructor.
  - constructor. induction IH; constructor; assumption.
  - apply same_map with (reordered := entries); [apply Permutation_refl |].
    induction IH as [| e rest He _ IHrest]; constructor; [now split | assumption].
Qed.

Lemma sameValue_scalars (items items' : list Value) :
  Forall (fun x => exists k, x = VScalar k) items ->
  Forall2 sameValue items items' -> items' = items.
Proof.
  intros Hscalars Hsame. induction Hsame as [| x x' items items' Hx _ IH]; [reflexivity |].
  inversion Hscalars as [| ? ? [k ->] Hrest]; subst.
  inversion Hx; subst. now rewrite (IH Hrest).
Qed.

Lemma Forall2_exists_mid (A B C : Type) (R2 : B -> C -> Prop) (R3 : A -> C -> Prop)
      (l : list A) (l' : list B) :
  Forall2 (fun a b => exists c, R2 b c /\ R3 a c) l l' ->
  exists cs, Forall2 R2 l' cs /\ Forall2 R3 l cs.
Proof.
  induction 1 as [| a b l l' [c [H2 H3]] _ [cs [IH2 IH3]]].
  - exists []. split; constructor.
  - exists (c :: cs). split; constructor; assumption.
Qed.

Lemma castFixedEntries_build (castAs : Value -> Value -> result Value)
      (valueMap : list (Scalar * Value)) :
  forall typeEntries fields acc,
    Forall2 (castOfField castAs valueMap) typeEntries fields ->
    NoDup (map fst typeEntries) ->
    (forall k, In k (map fst typeEntries) -> ~ In k (map fst acc)) ->
    castFixedEntries castAs valueMap typeEntries acc = Ok (acc ++ fields).
Proof.
  induction typeEntries as [| [k t] rest IH]; intros fields acc Hpairs Hnd Hfresh;
    inversion Hpairs as [| ? [k' c] ? fields' [Hk [v [Hget Hcast]]] Hrest]; subst;
    cbn [castFixedEntries].
  - now rewrite app_nil_r.
  - cbn [fst snd] in Hk, Hget, Hcast. subst k'.
    inversion Hnd as [| ? ? Hnotin Hnd']; subst.
    rewrite Hget, Hcast. cbn [wrapErr bind].
    rewrite mapSet_fresh by (apply Hfresh; now left).
    rewrite (IH fields'); [now rewrite <- app_assoc | assumption | assumption |].
    intros k' Hin. rewrite map_app, in_app_iff. cbn.
    intros [Hacc | [<- | []]]; [| contradiction].
    apply (Hfresh k'); [now right | assumption].
Qed.

Lemma Forall2_In_l (A B : Type) (R : A -> B -> Prop) (l : list A) (l' : list B) :
  Forall2 R l l' -> Forall2 (fun a b => R a b /\ In a l) l l'.
Proof.
  induction 1 as [| a b l l' Hab _ IH]; constructor.
  - split; [assumption | now left].
  - eapply Forall2_impl; [| exact IH]. intros a' b' [HR Hin]. split; [assumption | now right].
Qed.

Lemma Forall2_common_left (A B C : Type) (R : A -> B -> Prop) (S : A -> C -> Prop)
      (l : list A) (l1 : list B) (l2 : list C) :
  Forall2 R l l1 -> Forall2 S l l2 -> Forall2 (fun b c => exists a, R a b /\ S a c) l1 l2.
Proof.
  intros HR. revert l2. induction HR as [| a b l l1 Hab _ IH]; intros l2 HS;
    inversion HS; subst; constructor.
  - now exists a.
  - now apply IH.
Qed.

Section Reordered.
Context {castLib : CastLib}.
Hypothesis int_keeps_int : forall n, InterfaceToInt64 (VInt n) = Some n.
Hypothesis float_keeps_float : forall f, InterfaceToFloat64 (VFloat f) = Some f.
Hypothesis no_narrowing :
  forall v f, InterfaceToInt64 v = None -> InterfaceToFloat64 v = Some f ->
              InterfaceToInt64 (VFloat f) = None.

Lemma castGenericEntries_build (castVal : Value -> result Value) (keyType : string) :
  forall entries casted acc,
    Forall2 (fun e r => fst r = fst e
                        /\ castValueStr (VScalar (fst e)) keyType = Ok (fst e)
                        /\ castVal (snd e) = Ok (snd r)) entries casted ->
    NoDup (map fst entries) ->
    (forall k, In k (map fst entries) -> ~ In k (map fst acc)) ->
    castGenericEntries castVal keyType entries acc = Ok (acc ++ casted).
Proof.
  induction entries as [| [key val] rest IH]; intros casted acc Hpairs Hnd Hfresh;
    inversion Hpairs as [| ? [key' c] ? casted' [Hk [Hkey Hval]] Hrest]; subst;
    cbn [castGenericEntries].
  - now rewrite app_nil_r.
  - cbn [fst snd] in Hk, Hkey, Hval. subst key'.
    inversion Hnd as [| ? ? Hnotin Hnd']; subst.
    rewrite Hkey, Hval. cbn [wrapErr bind].
    rewrite mapSet_fresh by (apply Hfresh; now left).
    rewrite (IH casted'); [now rewrite <- app_assoc | assumption | assumption |].
    intros k Hin. rewrite map_app, in_app_iff. cbn.
    intros [Hacc | [<- | []]]; [| contradiction].
    apply (Hfresh k); [now right | assumption].
Qed.

Lemma castItems_scalars (s : string) (items casted : list Value) (i : nat) :
  castItems s items i = Ok casted -> Forall (fun x => exists k, x = VScalar k) casted.
Proof.
  revert casted i. induction items as [| item rest IH]; intros casted i; cbn [castItems].
  - intros [= <-]. constructor.
  - destruct (castValueStr item s) as [c | |]; cbn [wrapErr bind]; try discriminate.
    destruct (castItems s rest (S i)) as [cs | |] eqn:Hrest; cbn [bind]; try discriminate.
    intros [= <-]. constructor; [now exists c | now apply (IH cs (S i))].
Qed.

(** A value that casts to itself against a generic map is a map of entries that
    cast to themselves, with distinct keys. *)
Lemma canonical_generic (fields : list (Scalar * Value)) (keyType : string) (valType : Value) :
  uniqueKeys valType ->
  castGenericMap fields keyType valType = Ok (VMap fields) ->
  Forall (canonicalEntry (fun v => CastValue v valType) keyType) fields
  /\ NoDup (map fst fields).
Proof.
  intros Hu. unfold castGenericMap.
  destruct (castGenericEntries _ keyType fields []) as [casted | |] eqn:Hloop; cbn [bind];
    try discriminate.
  intros [= ->].
  apply (castGenericEntries_canonical int_keeps_int float_keeps_float no_narrowing
           (fun v => CastValue v valType) keyType) in Hloop;
    [assumption | | constructor | constructor].
  intros v c. now apply (CastValue_idempotent int_keeps_int float_keeps_float no_narrowing).
Qed.

(** A value that casts to itself against a fixed map with distinct keys is a
    map with the schema's keys whose fields cast to themselves. *)
Lemma canonical_fixed (fields valueTypeMap : list (Scalar * Value)) :
  NoDup (map fst valueTypeMap) ->
  castFixedMap fields valueTypeMap = Ok (VMap fields) ->
  map fst fields = map fst valueTypeMap
  /\ Forall2 (fun e r => fst r = fst e /\ mapGet fields (fst e) = Some (snd r)
                         /\ CastValue (snd r) (snd e) = Ok (snd r)) valueTypeMap fields
  /\ checkKeysSupported valueTypeMap fields = Ok tt.
Proof.
  intros Hnd. unfold castFixedMap.
  destruct (castFixedEntries _ fields valueTypeMap []) as [casted | |] eqn:Hloop; cbn [bind];
    try discriminate.
  destruct (checkKeysSupported valueTypeMap fields) as [[] | |]; cbn [bind]; try discriminate.
  intros [= ->].
  apply castFixedEntries_result in Hloop; [| assumption | now intros k _ []].
  destruct Hloop as [fields' [Heq Hpairs]]. cbn [app] in Heq. subst fields'.
  pose proof (Forall2_fst_keys _ _ _ Hpairs) as Hkeys.
  split; [assumption |]. split; [| reflexivity].
  apply Forall2_In_r in Hpairs. eapply Forall2_impl; [| exact Hpairs].
  intros e [k c] [[Hk [v [Hget Hcast]]] Hin]. cbn [fst snd] in *. subst k.
  assert (Hget' : mapGet fields (fst e) = Some c).
  { apply mapGet_NoDup_In; [now rewrite Hkeys | assumption]. }
  rewrite Hget' in Hget. injection Hget as <-. now repeat split.
Qed.

Lemma sameEntries_NoDup (m p m' : list (Scalar * Value)) :
  Permutation m p -> Forall2 (sameEntry sameValue) p m' ->
  NoDup (map fst m) -> NoDup (map fst m').
Proof.
  intros Hperm Hpairs. apply Permutation_NoDup.
  now apply (sameEntries_keys_perm sameValue m p m').
Qed.

Lemma CastValue_reordered (valueType : Value) :
  forall valueType' casted casted',
    uniqueKeys valueType ->
    sameValue valueType valueType' ->
    sameValue casted casted' ->
    CastValue casted valueType = Ok casted ->
    exists recast, CastValue casted' valueType' = Ok recast /\ sameValue casted recast.
Proof.
  induction valueType as [k | items _ | entries IH] using Value_nested_ind;
    intros t' c c' Hu Ht Hc Hcanon.
  - inversion Ht; subst. destruct k; try (cbn in Hcanon; discriminate).
    rewrite CastValue_VStr in Hcanon.
    destruct (castValueStr c s) as [r | |] eqn:Hr; cbn [bind] in Hcanon; try discriminate.
    injection Hcanon as <-. inversion Hc; subst.
    exists (VScalar r). split; [| constructor]. now rewrite CastValue_VStr, Hr.
  - destruct (ValidateValueType (VList items)) as [[] | |] eqn:Hvalid;
      [| cbn [CastValue] in Hcanon; rewrite Hvalid in Hcanon; discriminate ..].
    destruct (ValidateValueType_VList _ Hvalid) as [s [-> Hs]].
    inversion Ht as [| ? items' Hitems |]; subst.
    inversion Hitems as [| ? x' ? rest' Hx Hrest]; subst. inversion Hrest; subst.
    inversion Hx; subst.
    destruct c as [[ | | | | ] | cs | fields];
      try (cbn in Hcanon; rewrite Hs in Hcanon; cbn in Hcanon; discriminate).
    + inversion Hc; subst. exists VNil. split; [now apply CastValue_nil | constructor].
    + rewrite (CastValue_list cs s Hs) in Hcanon.
      destruct (castItems s cs 0) as [cs' | |] eqn:Hloop; cbn [bind] in Hcanon; try discriminate.
      injection Hcanon as ->. apply castItems_scalars in Hloop as Hscalars.
      inversion Hc as [| ? cs'' Hcs |]; subst.
      rewrite (sameValue_scalars cs cs'' Hscalars Hcs).
      exists (VList cs). split; [| apply sameValue_refl].
      now rewrite (CastValue_list cs s Hs), Hloop.
  - apply uniqueKeys_VMap in Hu. destruct Hu as [Hnd Hvals].
    destruct (ValidateValueType (VMap entries)) as [[] | |] eqn:Hvalid;
      [| cbn [CastValue] in Hcanon; rewrite Hvalid in Hcanon; discriminate ..].
    pose proof (proj1 (ValidateValueType_same _ _ Ht) Hvalid) as Hvalid'.
    inversion Ht as [| | ? p entries' Hperm Hpairs]; subst.
    rewrite CastValue_VMap, Hvalid in Hcanon. cbn [bind] in Hcanon.
    destruct c as [[ | | | | ] | cs | fields]; cbn [isNil InterfaceToInterfaceInterfaceMap]
      in Hcanon; try discriminate.
    + inversion Hc; subst. exists VNil. split; [now apply CastValue_nil | constructor].
    + inversion Hc as [| | ? q fields' Hfperm Hfpairs]; subst.
      rewrite CastValue_VMap, Hvalid'. cbn [bind isNil InterfaceToInterfaceInterfaceMap].
      rewrite <- (sameEntries_length _ _ _ _ Hperm Hpairs).
      rewrite Forall_forall in IH, Hvals.
      destruct (List.length entries =? 0) eqn:Hlen.
      * unfold castEmptyMap in Hcanon |- *.
        rewrite <- (sameEntries_length _ _ _ _ Hfperm Hfpairs).
        destruct (List.length fields =? 0); [| discriminate].
        injection Hcanon as <-. exists (VMap []). split; [reflexivity | apply sameValue_refl].
      * pose proof (genericMapOf_same _ _ _ Hperm Hpairs) as Hgen.
        destruct (genericMapOf entries) as [[keyType valType] |] eqn:Hg,
                 (genericMapOf entries') as [[keyType' valType'] |] eqn:Hg';
          try contradiction.
        -- destruct Hgen as [<- Hval].
           apply genericMapOf_Some in Hg. subst entries.
           assert (Huval : uniqueKeys valType) by apply (Hvals (SStr keyType, valType)), in_eq.
           destruct (canonical_generic fields keyType valType Huval Hcanon) as [Hcanonical Hfnd].
           rewrite Forall_forall in Hcanonical.
           assert (Hbuild :
                     Forall2 (fun e e' =>
                                exists r,
                                  (fst r = fst e'
                                   /\ castValueStr (VScalar (fst e')) keyType = Ok (fst e')
                                   /\ CastValue (snd e') valType' = Ok (snd r))
                                  /\ sameEntry sameValue e r) q fields').
           { apply Forall2_In_l in Hfpairs. eapply Forall2_impl; [| exact Hfpairs].
             intros e e' [[Hk Hsame] Hin].
             apply (Permutation_in _ (Permutation_sym Hfperm)) in Hin.
             destruct (Hcanonical e Hin) as [Hkey Hself].
             destruct (IH (SStr keyType, valType) (in_eq _ _) valType' (snd e) (snd e')
                          Huval Hval Hsame Hself) as [rv [Hcast Hrv]].
             exists (fst e', rv). cbn [fst snd]. rewrite <- Hk. now repeat split. }
           apply Forall2_exists_mid in Hbuild. destruct Hbuild as [rs [Hrs Hsame]].
           exists (VMap rs). split; [| now apply same_map with (reordered := q)].
           unfold castGenericMap.
           rewrite (castGenericEntries_build (fun v => CastValue v valType') keyType
                      fields' rs [] Hrs); [reflexivity | | now intros k _ []].
           now apply (sameEntries_NoDup fields q fields').
        -- destruct (canonical_fixed fields entries Hnd Hcanon) as [Hkeys [Hfields Hsupported]].
           assert (Hfnd : NoDup (map fst fields)) by now rewrite Hkeys.
           pose proof (sameEntries_NoDup _ _ _ Hfperm Hfpairs Hfnd) as Hfnd'.
           assert (Hfield : forall e, In e entries ->
                                      exists c0, mapGet fields (fst e) = Some c0
                                                 /\ CastValue c0 (snd e) = Ok c0).
           { intros e Hin.
             destruct (Forall2_In_left _ _ _ _ _ _ Hfields Hin) as [r [_ [_ [Hget Hself]]]].
             now exists (snd r). }
           assert (Hbuild :
                     Forall2 (fun e e' =>
                                exists r,
                                  castOfField (fun v t => CastValue v t) fields' e' r
                                  /\ (fst r = fst e
                                      /\ exists c0, mapGet fields (fst e) = Some c0
                                                    /\ sameValue c0 (snd r))) p entries').
           { apply Forall2_In_l in Hpairs. eapply Forall2_impl; [| exact Hpairs].
             intros e e' [[Hk Hsame] Hin].
             apply (Permutation_in _ (Permutation_sym Hperm)) in Hin.
             destruct (Hfield e Hin) as [c0 [Hget Hself]].
             destruct (mapGet_same sameValue fields q fields' (fst e) Hfperm Hfpairs Hfnd Hfnd')
               as [Hto _].
             destruct (Hto c0 Hget) as [c0' [Hget' Hc0]].
             destruct (IH e Hin (snd e') c0 c0' (Hvals e Hin) Hsame Hc0 Hself)
               as [rv [Hcast Hrv]].
             exists (fst e', rv). unfold castOfField. cbn [fst snd]. rewrite <- Hk.
             split; [split; [reflexivity | now exists c0'] |].
             split; [reflexivity | now exists c0]. }
           apply Forall2_exists_mid in Hbuild. destruct Hbuild as [rs [Hrs Hsame]].
           exists (VMap rs). split.
           ++ unfold castFixedMap.
              rewrite (castFixedEntries_build (fun v t => CastValue v t) fields' entries' rs []
                         Hrs); [| | now intros k _ []].
              ** cbn [bind app].
                 rewrite (proj1 (keys_supported_same entries p entries' fields q fields'
                                   Hperm Hpairs Hfperm Hfpairs) Hsupported).
                 reflexivity.
              ** now apply (sameEntries_NoDup entries p entries').
           ++ destruct (Permutation_Forall2 Hperm Hfields) as [fq [Hfq Hpfq]].
              apply same_map with (reordered := fq); [assumption |].
              pose proof (Forall2_common_left _ _ _ _ _ _ _ _ Hpfq Hsame) as Hzip.
              eapply Forall2_impl; [| exact Hzip].
              intros r0 r [e [[Hk0 [Hget0 _]] [Hk [c0 [Hget Hc0]]]]].
              split; [congruence |].
              rewrite Hget0 in Hget. injection Hget as <-. assumption.
Qed.

(** C7.  When a cast succeeds, casting its result against the same type
    expression succeeds and returns that result; and whatever the order in
    which the result's maps and the type expression's maps are enumerated for
    the second cast, it succeeds and returns the same value.  The numeric
    coercions are assumed to keep an integer and a float as they are, and the
    integer coercion to reject a float that the float coercion made of a value
    the integer coercion rejected; the type expression holds no key twice. *)
Theorem C7_cast_idempotent :
  forall value valueType casted : Value,
    uniqueKeys valueType ->
    CastValue value valueType = Ok casted ->
    CastValue casted valueType = Ok casted
    /\ forall valueType' casted',
         sameValue valueType valueType' ->
         sameValue casted casted' ->
         exists recast,
           CastValue casted' valueType' = Ok recast /\ sameValue casted recast.
Proof.
  intros value valueType casted Hu Hcast.
  pose proof (CastValue_idempotent int_keeps_int float_keeps_float no_narrowing
                value valueType casted Hu Hcast) as Hself.
  split; [assumption |].
  intros valueType' casted' Ht Hc.
  now apply (CastValue_reordered valueType valueType' casted casted').
Qed.
End Reordered.

Lemma C7_cast_idempotent_witness :
  CastValue (castLib := specCastLib)
            (VMap [(SStr "b", VList [VInt 2; VInt 3]); (SStr "a", VList [])])
            (VMap [(SStr "STRING", VList [VStr "INT|STRING"])])
  = Ok (VMap [(SStr "b", VList [VInt 2; VInt 3]); (SStr "a", VList [])])
  /\ forall valueType' casted',
       sameValue (VMap [(SStr "STRING", VList [VStr "INT|STRING"])]) valueType' ->
       sameValue (VMap [(SStr "b", VList [VInt 2; VInt 3]); (SStr "a", VList [])]) casted' ->
       exists recast,
         CastValue (castLib := specCastLib) casted' valueType' = Ok recast
         /\ sameValue (VMap [(SStr "b", VList [VInt 2; VInt 3]); (SStr "a", VList [])]) recast.
Proof.
  apply (C7_cast_idempotent (castLib := specCastLib))
    with (value := VMap [(SStr "b", VList [VStr "2"; VInt 3]); (SStr "a", VList [])]).
  - reflexivity.
  - reflexivity.
  - intros v f Hint Hfloat. destruct v as [[ | | | | ] | |]; try discriminate. reflexivity.
  - cbn. repeat split. repeat constructor. intros [].
  - reflexivity.
Defined.

(** * Further properties of the validators *)

(** ** Union strings *)

Lemma Split_nonempty (s : string) (sep : ascii) : Split s sep <> [].
Proof.
  destruct s as [| c r]; cbn; [discriminate |].
  destruct (Ascii.eqb c sep); [discriminate |].
  destruct (Split r sep); discriminate.
Qed.

Lemma Split_app (a b : string) (sep : ascii) :
  Split (a ++ String sep b)%string sep = Split a sep ++ Split b sep.
Proof.
  induction a as [| c a IH]; cbn [append Split].
  - now rewrite Ascii.eqb_refl.
  - destruct (Ascii.eqb c sep); [now rewrite IH |].
    rewrite IH. pose proof (Split_nonempty a sep) as Hne.
    destruct (Split a sep) as [| piece pieces]; [now contradiction Hne | reflexivity].
Qed.

Lemma isValidValueType_pieces (s : string) :
  isValidValueType s = true
  <-> forall piece, In piece (Split s pipe) -> exists t, piece = ValueType_String t.
Proof.
  unfold isValidValueType. rewrite forallb_forall. split; intros Hall piece Hin.
  - specialize (Hall piece Hin). apply HasString_In in Hall. cbn in Hall.
    destruct Hall as [<- | [<- | [<- | [<- | []]]]];
      [now exists IntegerValueType | now exists FloatValueType
       | now exists StringValueType | now exists BoolValueType].
  - apply HasString_In. destruct (Hall piece Hin) as [t ->]. destruct t; cbn; tauto.
Qed.

(** X1.  A union written [a|b] is valid exactly when [a] and [b] are: validity
    does not depend on the order of the kinds nor on repeated kinds, and since
    the empty string is not valid, a union with a leading, trailing or doubled
    pipe is not valid.  The same law holds for column unions. *)
Theorem X1_union_validity_composes :
  (forall a b : string,
      isValidValueType (a ++ String pipe b)%string = isValidValueType a && isValidValueType b)
  /\ (forall (ColumnTypeStrings : list string) (a b : string),
         isValidColumnInputType ColumnTypeStrings (a ++ String pipe b)%string
         = isValidColumnInputType ColumnTypeStrings a
           && isValidColumnInputType ColumnTypeStrings b)
  /\ isValidValueType EmptyString = false
  /\ (forall a : string, isValidValueType (a ++ String pipe EmptyString)%string = false)
  /\ (forall b : string, isValidValueType (String pipe b) = false)
  /\ (forall a b : string,
         isValidValueType (a ++ String pipe b)%string
         = isValidValueType (b ++ String pipe a)%string)
  /\ (forall a : string, isValidValueType (a ++ String pipe a)%string = isValidValueType a).
Proof.
  assert (Hcomp : forall a b : string,
             isValidValueType (a ++ String pipe b)%string
             = isValidValueType a && isValidValueType b).
  { intros a b. unfold isValidValueType. now rewrite Split_app, forallb_app. }
  split; [exact Hcomp |].
  split; [intros cts a b; unfold isValidColumnInputType; now rewrite Split_app, forallb_app |].
  split; [reflexivity |].
  split; [intros a; rewrite Hcomp; apply andb_false_r |].
  split; [intros b; apply (Hcomp EmptyString b) |].
  split; [intros a b; rewrite !Hcomp; apply andb_comm |].
  intros a. rewrite Hcomp. now destruct (isValidValueType a).
Qed.

(** X2.  A valid union names at least one of the four kinds, and every piece of
    it is the name of a kind; so the [InvalidPrimitiveType] error of a cast
    against a valid union always lists at least one accepted kind. *)
Theorem X2_valid_union_names_a_kind :
  forall s : string,
    isValidValueType s = true ->
    (forall piece, In piece (Split s pipe) -> exists t, piece = ValueType_String t)
    /\ (exists t, hasKind (Split s pipe) t = true)
    /\ acceptedNames (Split s pipe) <> [].
Proof.
  intros s Hvalid. pose proof (proj1 (isValidValueType_pieces s) Hvalid) as Hpieces.
  split; [exact Hpieces |].
  assert (Hkind : exists t, hasKind (Split s pipe) t = true).
  { pose proof (Split_nonempty s pipe) as Hne.
    destruct (Split s pipe) as [| piece pieces] eqn:Hsplit; [now contradiction Hne |].
    destruct (Hpieces piece (or_introl eq_refl)) as [t ->].
    exists t. unfold hasKind. apply HasString_In. now left. }
  split; [exact Hkind |].
  destruct Hkind as [t Ht]. unfold acceptedNames, priority. cbn [filter].
  destruct t; rewrite ?Ht;
    repeat match goal with
           | |- context [if ?b then _ else _] => destruct b
           end; cbn; discriminate || congruence.
Qed.

Lemma X2_valid_union_names_a_kind_witness :
  acceptedNames (Split "BOOL|INT" pipe) <> [].
Proof.
  apply (X2_valid_union_names_a_kind "BOOL|INT"). reflexivity.
Defined.

(** ** The grammar that [ValidateValueType] accepts *)

Lemma foundGenericKey_In (entries : list (Scalar * Value)) :
  foundGenericKey entries = true
  <-> exists s t, In (SStr s, t) entries /\ isValidValueType s = true.
Proof.
  unfold foundGenericKey. rewrite existsb_exists. split.
  - intros [[k t] [Hin Hk]]. destruct k; try discriminate. now exists s, t.
  - intros [s [t [Hin Hs]]]. now exists (SStr s, t).
Qed.

Lemma ValidateValueType_wellFormed (valueType : Value) :
  ValidateValueType valueType = Ok tt <-> wellFormed valueType.
Proof.
  induction valueType as [k | items _ | entries IH] using Value_nested_ind.
  - destruct k; cbn; try (split; [discriminate | inversion 1]).
    destruct (isValidValueType s) eqn:Hs; cbn.
    + split; [intros _; now constructor | reflexivity].
    + split; [discriminate | inversion 1; congruence].
  - split.
    + intros H. destruct (ValidateValueType_VList _ H) as [s [-> Hs]]. now constructor.
    + inversion 1 as [| s Hs | |]; subst. cbn. now rewrite Hs.
  - cbn [ValidateValueType]. split.
    + destruct (foundGenericKey entries) eqn:Hfound; cbn [andb].
      * destruct (List.length entries =? 1) eqn:Hlen; cbn [negb]; [| discriminate].
         destruct (length_one _ _ Hlen) as [[k t] ->].
         intros H. apply validateEntries_ok in H.
         inversion H as [| ? ? [_ Ht] _]; subst. cbn [snd] in Ht.
         inversion IH as [| ? ? IHt _]; subst. cbn [snd] in IHt.
         cbn in Hfound. rewrite orb_false_r in Hfound.
         destruct k; try discriminate. apply wf_generic; [assumption | now apply IHt].
      * intros H. apply validateEntries_ok in H. apply wf_fixed; [assumption |].
         rewrite Forall_forall in *. intros e He. apply (IH e He). now apply H.
    + inversion 1 as [| | keyType valType Hk Hv | ? Hfound Hall]; subst.
      * cbn. rewrite Hk. cbn.
         inversion IH as [| ? ? IHt _]; subst. cbn [snd] in IHt.
         now rewrite (proj2 IHt Hv).
      * rewrite Hfound. cbn [andb]. apply validateEntries_ok.
         rewrite Forall_forall in *. intros e He.
         split; [discriminate | now apply (IH e He), Hall].
Qed.

(** X3.  [ValidateValueType] accepts exactly the type expressions of the
    grammar.  A map in which some key is a valid union string and which has
    another entry is rejected with [GenericTypeMapLength], whatever its other
    entries; a sequence of strings whose length is not 1 is rejected with
    [TypeListLength]. *)
Theorem X3_validate_accepts_the_grammar :
  (forall valueType : Value, ValidateValueType valueType = Ok tt <-> wellFormed valueType)
  /\ (forall (entries : list (Scalar * Value)) (s : string) (t : Value),
         In (SStr s, t) entries ->
         isValidValueType s = true ->
         List.length entries <> 1 ->
         ValidateValueType (VMap entries) = Err (raise (ErrorGenericTypeMapLength entries)))
  /\ (forall strs : list string,
         List.length strs <> 1 ->
         ValidateValueType (strsValue strs) = Err (raise (ErrorTypeListLength strs))).
Proof.
  split; [| split].
  - exact ValidateValueType_wellFormed.
  - intros entries s t Hin Hs Hlen. cbn [ValidateValueType].
    rewrite (proj2 (foundGenericKey_In entries)) by now exists s, t.
    apply Nat.eqb_neq in Hlen. now rewrite Hlen.
  - intros strs Hlen.
    assert (Hflat : ValidateValueType (strsValue strs) = validateFlatType (strsValue strs))
      by reflexivity.
    rewrite Hflat. unfold validateFlatType. rewrite InterfaceToStrSlice_strs.
    cbn [assertString strsValue]. apply Nat.eqb_neq in Hlen. now rewrite Hlen.
Qed.

Lemma X3_validate_accepts_the_grammar_witness :
  ValidateValueType (VMap [(SStr "INT", VStr "STRING"); (SStr "name", VStr "BOGUS")])
  = Err (raise (ErrorGenericTypeMapLength
                  [(SStr "INT", VStr "STRING"); (SStr "name", VStr "BOGUS")])).
Proof.
  apply (proj1 (proj2 X3_validate_accepts_the_grammar) _ "INT"%string (VStr "STRING")).
  - now left.
  - reflexivity.
  - discriminate.
Defined.

(** ** Argument maps *)

Lemma ValidateArgTypes_first_failure (before after : list (string * Value))
      (argName : string) (valueType : Value) :
  ValidateArgTypes before = Ok tt ->
  ValidateArgTypes (before ++ (argName, valueType) :: after)
  = if isValidValueType argName
    then Err (raise (ErrorArgNameCannotBeType argName))
    else _ <- wrapErr (ValidateValueType valueType) [SegName argName] ;;
         ValidateArgTypes after.
Proof.
  induction before as [| [name t] rest IH]; cbn [app ValidateArgTypes]; [reflexivity |].
  destruct (isValidValueType name); [discriminate |].
  destruct (ValidateValueType t) as [[] | |]; cbn [wrapErr bind]; try discriminate.
  exact IH.
Qed.

(** X4.  [ValidateArgTypes] accepts an argument map exactly when no argument name
    is itself a valid union string and every declared type is in the grammar.
    The error is that of the first offending entry in enumeration order: a
    name that is a valid union string gives [ArgNameCannotBeType] even when
    its type is valid, otherwise the error of its type is wrapped with the
    name. *)
Theorem X4_arg_types_names_and_types :
  forall argTypes : list (string * Value),
    (ValidateArgTypes argTypes = Ok tt
     <-> Forall (fun e => isValidValueType (fst e) = false /\ wellFormed (snd e)) argTypes)
    /\ (forall before after argName valueType,
           argTypes = before ++ (argName, valueType) :: after ->
           ValidateArgTypes before = Ok tt ->
           (isValidValueType argName = true ->
            ValidateArgTypes argTypes = Err (raise (ErrorArgNameCannotBeType argName)))
           /\ (forall e,
                  isValidValueType argName = false ->
                  ValidateValueType valueType = Err e ->
                  ValidateArgTypes argTypes = Err (Wrap e [SegName argName]))).
Proof.
  intros argTypes. split.
  - rewrite ValidateArgTypes_ok. split; apply Forall_impl; intros e [Hname Htype];
      (split; [assumption | now apply ValidateValueType_wellFormed]).
  - intros before after argName valueType -> Hbefore.
    rewrite (ValidateArgTypes_first_failure before after argName valueType Hbefore).
    split.
    + now intros ->.
    + intros e -> ->. reflexivity.
Qed.

Lemma X4_arg_types_names_and_types_witness :
  ValidateArgTypes [("x"%string, VStr "INT"); ("INT"%string, VStr "STRING")]
  = Err (raise (ErrorArgNameCannotBeType "INT")).
Proof.
  apply (proj2 (X4_arg_types_names_and_types _) [("x"%string, VStr "INT")] []
               "INT"%string (VStr "STRING")); reflexivity.
Defined.

Lemma argGet_Some_keys (m : list (string * Value)) (k : string) (v : Value) :
  argGet m k = Some v -> In k (map fst m).
Proof.
  intros H. apply argGet_In in H. now apply (in_map fst) in H.
Qed.



(** ** What the caster never does *)

(** X6.  [CastValue] never panics, whatever the value and the type expression:
    it validates the type expression first, so the sequence it indexes at 0
    has one element.  Neither do [ValidateValueType] and [ValidateArgTypes].
    A successful cast was made against a type expression of the grammar. *)
Theorem X6_cast_never_panics {castLib : CastLib} :
  (forall value valueType : Value, CastValue value valueType <> Panic)
  /\ (forall valueType : Value, ValidateValueType valueType <> Panic)
  /\ (forall argTypes : list (string * Value), ValidateArgTypes argTypes <> Panic)
  /\ (forall value valueType casted : Value,
         CastValue value valueType = Ok casted -> wellFormed valueType).
Proof.
  split; [intros value valueType; apply CastValue_no_panic |].
  split; [exact ValidateValueType_no_panic |].
  split; [exact ValidateArgTypes_no_panic |].
  intros value valueType casted Hcast. apply ValidateValueType_wellFormed.
  destruct valueType as [k | items | entries]; cbn [CastValue] in Hcast.
  - destruct (ValidateValueType (VScalar k)) as [[] | |]; [reflexivity | discriminate ..].
  - destruct (ValidateValueType (VList items)) as [[] | |]; [reflexivity | discriminate ..].
  - destruct (ValidateValueType (VMap entries)) as [[] | |]; [reflexivity | discriminate ..].
Qed.

Lemma X6_cast_never_panics_witness :
  wellFormed (VList [VStr "INT"]).
Proof.
  apply (proj2 (proj2 (proj2 (X6_cast_never_panics (castLib := specCastLib))))
               (VList [VStr "1"]) (VList [VStr "INT"]) (VList [VInt 1])).
  reflexivity.
Defined.

(** ** A cast value is of the declared type *)

Section CastSound.
Context {castLib : CastLib}.

Lemma castUnion_scalarOfUnion (value : Value) (valueTypeStr : string) (c : Scalar) :
  castUnion value valueTypeStr = Ok c -> scalarOfUnion valueTypeStr c.
Proof.
  unfold castUnion, scalarOfUnion.
  destruct (hasKind (Split valueTypeStr pipe) IntegerValueType) eqn:Hint;
    [destruct (InterfaceToInt64 value); [intros [= <-]; exact Hint |] |];
    (destruct (hasKind (Split valueTypeStr pipe) FloatValueType) eqn:Hfloat;
     [destruct (InterfaceToFloat64 value); [intros [= <-]; exact Hfloat |] |];
     (destruct (hasKind (Split valueTypeStr pipe) StringValueType) eqn:Hstr;
      [destruct (assertString value); [intros [= <-]; exact Hstr |] |];
      (destruct (hasKind (Split valueTypeStr pipe) BoolValueType) eqn:Hbool;
       [destruct (assertBool value); [intros [= <-]; exact Hbool |] |];
       discriminate))).
Qed.

Lemma castValueStr_scalarOfUnion (value : Value) (valueTypeStr : string) (c : Scalar) :
  castValueStr value valueTypeStr = Ok c -> scalarOfUnion valueTypeStr c.
Proof.
  unfold castValueStr.
  destruct (ValidateValueType (VStr valueTypeStr)) as [[] | |]; cbn [bind ValidateValue];
    try discriminate.
  destruct (isNil value); [intros [= <-]; exact I | apply castUnion_scalarOfUnion].
Qed.

Lemma castItems_scalarOfUnion (valueTypeStr : string) (items casted : list Value) (i : nat) :
  castItems valueTypeStr items i = Ok casted ->
  Forall (fun item => exists k, item = VScalar k /\ scalarOfUnion valueTypeStr k) casted.
Proof.
  revert casted i. induction items as [| item rest IH]; intros casted i; cbn [castItems].
  - intros [= <-]. constructor.
  - destruct (castValueStr item valueTypeStr) as [c | |] eqn:Hitem; cbn [wrapErr bind];
      try discriminate.
    destruct (castItems valueTypeStr rest (S i)) as [cs | |] eqn:Hrest; cbn [bind];
      try discriminate.
    intros [= <-]. constructor; [| now apply (IH cs (S i))].
    exists c. split; [reflexivity | now apply (castValueStr_scalarOfUnion item)].
Qed.

Lemma castGenericEntries_invariant (Q : Scalar * Value -> Prop)
      (castVal : Value -> result Value) (keyType : string) :
  forall entries acc casted,
    Forall (fun e => forall kc vc,
                castValueStr (VScalar (fst e)) keyType = Ok kc ->
                castVal (snd e) = Ok vc -> Q (kc, vc)) entries ->
    Forall Q acc ->
    NoDup (map fst acc) ->
    castGenericEntries castVal keyType entries acc = Ok casted ->
    Forall Q casted /\ NoDup (map fst casted).
Proof.
  induction entries as [| [key val] rest IH]; intros acc casted Hall Hacc Hnd;
    cbn [castGenericEntries].
  - intros [= <-]. now split.
  - inversion Hall as [| ? ? Hhead Htail]; subst. cbn [fst snd] in Hhead.
    destruct (castValueStr (VScalar key) keyType) as [kc | |]; cbn [bind]; try discriminate.
    destruct (castVal val) as [vc | |]; cbn [wrapErr bind]; try discriminate.
    apply IH; [assumption | | now apply mapSet_NoDup].
    apply mapSet_Forall; [assumption | now apply Hhead].
Qed.

Lemma CastValue_conforms (valueType : Value) :
  forall value casted,
    uniqueKeys valueType ->
    CastValue value valueType = Ok casted ->
    conforms casted valueType /\ uniqueKeys casted.
Proof.
  induction valueType as [k | items IH | typeEntries IH] using Value_nested_ind;
    intros value casted Huniq Hcast.
  - destruct k as [ | n | f | s | b]; try discriminate Hcast.
    rewrite CastValue_VStr in Hcast.
    destruct (castValueStr value s) as [c | |] eqn:Hc; cbn [bind] in Hcast; try discriminate.
    injection Hcast as <-. split; [| exact I].
    destruct c; [apply conforms_nil | ..];
      constructor; now apply (castValueStr_scalarOfUnion value).
  - cbn [CastValue] in Hcast.
    destruct (ValidateValueType (VList items)) as [[] | |] eqn:Hvalid; cbn [bind] in Hcast;
      try discriminate.
    destruct (ValidateValueType_VList _ Hvalid) as [s [-> Hs]].
    cbn [ValidateValue bind] in Hcast.
    destruct (isNil value) eqn:Hnil.
    + injection Hcast as <-. split; [apply conforms_nil | exact I].
    + unfold castList in Hcast. cbn [InterfaceToStrSlice allStrings option_map] in Hcast.
      destruct (InterfaceToInterfaceSlice value) as [valueSlice |]; [| discriminate].
      destruct (castItems s valueSlice 0) as [cs | |] eqn:Hitems; cbn [bind] in Hcast;
        try discriminate.
      injection Hcast as <-. apply castItems_scalarOfUnion in Hitems.
      split; [now constructor |].
      cbn [uniqueKeys]. induction Hitems as [| x r [k [-> _]] _ IHr]; [exact I | now split].
  - rewrite CastValue_VMap in Hcast.
    destruct (ValidateValueType (VMap typeEntries)) as [[] | |] eqn:Hvalid; cbn [bind] in Hcast;
      try discriminate.
    destruct (isNil value) eqn:Hnil.
    { injection Hcast as <-. split; [apply conforms_nil | exact I]. }
    destruct (InterfaceToInterfaceInterfaceMap value) as [valueMap |]; [| discriminate].
    apply uniqueKeys_VMap in Huniq. destruct Huniq as [Hnd Hvals].
    destruct (List.length typeEntries =? 0) eqn:Hlen.
    { unfold castEmptyMap in Hcast.
      destruct (List.length valueMap =? 0); [| discriminate].
      injection Hcast as <-. destruct typeEntries; [| discriminate].
      split; [constructor | apply uniqueKeys_VMap; split; constructor]. }
    assert (Hne : typeEntries <> []) by (intros ->; discriminate).
    destruct (genericMapOf typeEntries) as [[keyType valType] |] eqn:Hgen.
    + pose proof (genericMapOf_Some _ _ _ Hgen) as ->. cbn [genericMapOf] in Hgen.
      destruct (isValidValueType keyType) eqn:Hkey; [| discriminate].
      unfold castGenericMap in Hcast.
      destruct (castGenericEntries _ keyType valueMap []) as [cs | |] eqn:Hloop;
        cbn [bind] in Hcast; try discriminate.
      injection Hcast as <-.
      inversion IH as [| ? ? IHval _]; subst. cbn [snd] in IHval.
      inversion Hvals as [| ? ? Huval _]; subst. cbn [snd] in Huval.
      apply (castGenericEntries_invariant
               (fun e => (scalarOfUnion keyType (fst e) /\ conforms (snd e) valType)
                         /\ uniqueKeys (snd e))) in Hloop;
        [| | constructor | constructor].
      * destruct Hloop as [Hall Hnd']. split.
        -- apply conforms_generic; [assumption | assumption |].
           eapply Forall_impl; [| exact Hall]. now intros e [He _].
        -- apply uniqueKeys_VMap. split; [assumption |].
           eapply Forall_impl; [| exact Hall]. now intros e [_ He].
      * apply Forall_forall. intros e _ kc vc Hk Hv. cbn [fst snd].
        destruct (IHval _ _ Huval Hv) as [Hconf Hu].
        split; [split; [now apply (castValueStr_scalarOfUnion (VScalar (fst e))) | assumption]
               | assumption].
    + unfold castFixedMap in Hcast.
      destruct (castFixedEntries _ valueMap typeEntries []) as [cs | |] eqn:Hloop;
        cbn [bind] in Hcast; try discriminate.
      destruct (checkKeysSupported typeEntries valueMap) as [[] | |]; cbn [bind] in Hcast;
        try discriminate.
      injection Hcast as <-.
      apply castFixedEntries_result in Hloop; [| assumption | now intros k _ []].
      destruct Hloop as [fields [-> Hfields]]. cbn [app].
      assert (Hkeys : map fst fields = map fst typeEntries).
      { clear - Hfields. induction Hfields as [| t r ts rs [Hk _] _ IHf]; [reflexivity |].
        cbn. now rewrite Hk, IHf. }
      assert (Hboth : Forall2 (fun e t => (fst e = fst t /\ conforms (snd e) (snd t))
                                           /\ uniqueKeys (snd e)) fields typeEntries).
      { clear - Hfields IH Hvals.
        induction Hfields as [| t r ts rs [Hk [v [_ Hc]]] _ IHf]; [constructor |].
        inversion IH as [| ? ? IHt IHts]; subst. inversion Hvals as [| ? ? Hut Huts]; subst.
        destruct (IHt _ _ Hut Hc) as [Hconf Hu].
        constructor; [now repeat split | now apply IHf]. }
      split.
      * apply conforms_fixed; [assumption | assumption |].
        clear - Hboth. induction Hboth as [| e t es ts [He _] _ IHb]; now constructor.
      * apply uniqueKeys_VMap. split; [now rewrite Hkeys |].
        clear - Hboth. induction Hboth as [| e t es ts [_ He] _ IHb]; now constructor.
Qed.
End CastSound.

(** X7.  The result of a successful cast is a value of the declared type, and
    holds every map key once: nil, or a scalar of a kind the union names, a
    sequence of such scalars, the empty map, a generic map whose keys and
    values are of the key and value types, or a fixed map holding the
    schema's fields in the schema's order, each of its field's type.  This
    holds for any numeric coercions. *)
Theorem X7_cast_result_is_of_the_type {castLib : CastLib} :
  forall value valueType casted : Value,
    uniqueKeys valueType ->
    CastValue value valueType = Ok casted ->
    conforms casted valueType /\ uniqueKeys casted.
Proof.
  intros value valueType casted. apply CastValue_conforms.
Qed.

Lemma X7_cast_result_is_of_the_type_witness :
  conforms (VMap [(SStr "a", VList [VInt 1; VInt 2]); (SStr "b", VNil)])
           (VMap [(SStr "a", VList [VStr "INT"]); (SStr "b", VStr "FLOAT|STRING")])
  /\ uniqueKeys (VMap [(SStr "a", VList [VInt 1; VInt 2]); (SStr "b", VNil)]).
Proof.
  apply (X7_cast_result_is_of_the_type (castLib := specCastLib)
           (VMap [(SStr "b", VNil); (SStr "a", VList [VStr "1"; VInt 2])])).
  - cbn. split; [| tauto]. repeat constructor; cbn; intuition discriminate.
  - reflexivity.
Defined.

(** ** Sequences are cast element by element *)

Section ElementwiseCast.
Context {castLib : CastLib}.

Lemma castItems_Forall2 (s : string) (items : list Value) :
  forall (cs : list Value) (i : nat),
    castItems s items i = Ok cs
    <-> Forall2 (fun item c => CastValue item (VStr s) = Ok c) items cs.
Proof.
  induction items as [| item rest IH]; intros cs i; cbn [castItems].
  - split; [intros [= <-]; constructor | now inversion 1].
  - split.
    + destruct (castValueStr item s) as [c | |] eqn:Hitem; cbn [wrapErr bind]; try discriminate.
      destruct (castItems s rest (S i)) as [cs' | |] eqn:Hrest; cbn [bind]; try discriminate.
      intros [= <-]. constructor; [| now apply (IH cs' (S i))].
      now rewrite CastValue_VStr, Hitem.
    + inversion 1 as [| ? c ? cs' Hhead Htail]; subst.
      rewrite CastValue_VStr in Hhead.
      destruct (castValueStr item s) as [k | |]; cbn [bind] in Hhead; try discriminate.
      injection Hhead as <-. cbn [wrapErr bind].
      apply (proj2 (IH cs' (S i))) in Htail. now rewrite Htail.
Qed.

Lemma castItems_first_failure (s : string) (before after : list Value) (item : Value)
      (e : Error) :
  forall i : nat,
    Forall (fun x => is_ok (CastValue x (VStr s)) = true) before ->
    CastValue item (VStr s) = Err e ->
    castItems s (before ++ item :: after) i = Err (Wrap e [SegIndex (i + List.length before)]).
Proof.
  induction before as [| x before IH]; intros i Hbefore Hitem; cbn [app castItems List.length].
  - rewrite CastValue_VStr in Hitem.
    destruct (castValueStr item s) as [k | e' |]; cbn [bind] in Hitem; try discriminate.
    injection Hitem as ->. cbn [wrapErr bind]. now rewrite Nat.add_0_r.
  - inversion Hbefore as [| ? ? Hx Hrest]; subst. rewrite CastValue_VStr in Hx.
    destruct (castValueStr x s) as [k | |]; cbn [bind is_ok] in Hx; try discriminate.
    cbn [wrapErr bind]. rewrite (IH (S i) Hrest Hitem). cbn [bind].
    now rewrite Nat.add_succ_r.
Qed.
End ElementwiseCast.

(** X8.  Against a sequence type, a sequence is cast element by element
    against the union: the cast succeeds exactly when every element casts, and
    the result holds the elements' casts in the same order (so it has the
    length of the value).  When an element fails, the elements before it
    casting, the error is that element's error under the element's index. *)
Theorem X8_list_cast_is_elementwise {castLib : CastLib} :
  forall (items : list Value) (valueTypeStr : string),
    isValidValueType valueTypeStr = true ->
    (forall casted : Value,
        CastValue (VList items) (VList [VStr valueTypeStr]) = Ok casted
        <-> exists cs, casted = VList cs
                       /\ Forall2 (fun item c => CastValue item (VStr valueTypeStr) = Ok c)
                                  items cs)
    /\ (forall cs : list Value,
           CastValue (VList items) (VList [VStr valueTypeStr]) = Ok (VList cs) ->
           List.length cs = List.length items)
    /\ (forall (before after : list Value) (item : Value) (e : Error),
           items = before ++ item :: after ->
           Forall (fun x => is_ok (CastValue x (VStr valueTypeStr)) = true) before ->
           CastValue item (VStr valueTypeStr) = Err e ->
           CastValue (VList items) (VList [VStr valueTypeStr])
           = Err (Wrap e [SegIndex (List.length before)])).
Proof.
  intros items s Hvalid. rewrite (CastValue_list items s Hvalid).
  assert (Hok : forall casted : Value,
             (valueSliceCasted <- castItems s items 0 ;; Ok (VList valueSliceCasted)) = Ok casted
             <-> exists cs, casted = VList cs
                            /\ Forall2 (fun item c => CastValue item (VStr s) = Ok c) items cs).
  { intros casted. split.
    - destruct (castItems s items 0) as [cs | |] eqn:Hitems; cbn [bind]; try discriminate.
      intros [= <-]. exists cs. split; [reflexivity | now apply (castItems_Forall2 s items cs 0)].
    - intros [cs [-> Hall]]. apply (castItems_Forall2 s items cs 0) in Hall.
      now rewrite Hall. }
  split; [exact Hok |]. split.
  - intros cs Hcast. apply Hok in Hcast. destruct Hcast as [cs' [[= <-] Hall]].
    symmetry. exact (Forall2_length Hall).
  - intros before after item e -> Hbefore Hitem.
    now rewrite (castItems_first_failure s before after item e 0 Hbefore Hitem).
Qed.

Lemma X8_list_cast_is_elementwise_witness :
  CastValue (castLib := specCastLib)
            (VList [VStr "1"; VBool true; VStr "x"]) (VList [VStr "INT"])
  = Err (Wrap (raise (ErrorInvalidPrimitiveType (VBool true) [PrimTypeInt])) [SegIndex 1]).
Proof.
  apply (proj2 (proj2 (X8_list_cast_is_elementwise (castLib := specCastLib)
                         [VStr "1"; VBool true; VStr "x"] "INT"%string eq_refl))
               [VStr "1"] [VStr "x"] (VBool true)).
  - reflexivity.
  - repeat constructor.
  - reflexivity.
Defined.

(** ** Generic maps *)

Lemma mapSet_length (acc : list (Scalar * Value)) (k : Scalar) (v : Value) :
  List.length (mapSet acc k v) <= S (List.length acc).
Proof.
  destruct (mapSet_keys acc k v) as [[_ Hkeys] | [_ ->]].
  - rewrite <- (length_map fst (mapSet acc k v)), Hkeys, length_map. lia.
  - rewrite length_app. cbn. lia.
Qed.

Lemma mapSet_In_keys (acc : list (Scalar * Value)) (k k' : Scalar) (v : Value) :
  In k' (map fst (mapSet acc k v)) <-> k' = k \/ In k' (map fst acc).
Proof.
  destruct (mapSet_keys acc k v) as [[Hin ->] | [_ ->]].
  - split; [now right | intros [-> | H]; assumption].
  - rewrite map_app, in_app_iff. cbn. intuition congruence.
Qed.

Section GenericLoop.
Context {castLib : CastLib}.
Variable castVal : Value -> result Value.
Variable keyType : string.

Lemma castGenericEntries_keys :
  forall entries acc casted,
    castGenericEntries castVal keyType entries acc = Ok casted ->
    List.length casted <= List.length acc + List.length entries
    /\ (forall k, In k (map fst acc) -> In k (map fst casted))
    /\ Forall (fun e => exists kc, castValueStr (VScalar (fst e)) keyType = Ok kc
                                   /\ In kc (map fst casted)) entries.
Proof.
  induction entries as [| [key val] rest IH]; intros acc casted; cbn [castGenericEntries].
  - intros [= <-]. split; [cbn; lia |]. split; [tauto | constructor].
  - destruct (castValueStr (VScalar key) keyType) as [kc | |] eqn:Hkey; cbn [bind];
      try discriminate.
    destruct (castVal val) as [vc | |]; cbn [wrapErr bind]; try discriminate.
    intros Hloop. apply IH in Hloop. destruct Hloop as [Hlen [Hkeep Hall]].
    pose proof (mapSet_length acc kc vc) as Hset. split; [cbn [List.length]; lia |].
    split.
    + intros k Hin. apply Hkeep. apply mapSet_In_keys. now right.
    + constructor; [| assumption]. exists kc. cbn [fst]. split; [assumption |].
      apply Hkeep. apply mapSet_In_keys. now left.
Qed.
End GenericLoop.

Lemma is_ok_bind_scalar (r : result Scalar) :
  is_ok (c <- r ;; Ok (VScalar c)) = is_ok r.
Proof. now destruct r. Qed.

(** X9.  Against a generic map, a map value casts exactly when every key
    casts against the key type and every value against the value type.  The
    result holds the cast of every key of the value, each key once, and each
    of its entries is the cast of an entry of the value; it is never larger
    than the value (two keys that cast to the same key share one entry). *)
Theorem X9_generic_map_cast {castLib : CastLib} :
  forall (valueMap : list (Scalar * Value)) (keyType : string) (valType : Value),
    ValidateValueType (VMap [(SStr keyType, valType)]) = Ok tt ->
    isValidValueType keyType = true ->
    ((exists casted, CastValue (VMap valueMap) (VMap [(SStr keyType, valType)]) = Ok casted)
     <-> Forall (fun e => is_ok (CastValue (VScalar (fst e)) (VStr keyType)) = true
                          /\ is_ok (CastValue (snd e) valType) = true) valueMap)
    /\ (forall casted,
           CastValue (VMap valueMap) (VMap [(SStr keyType, valType)]) = Ok casted ->
           exists entries,
             casted = VMap entries
             /\ NoDup (map fst entries)
             /\ List.length entries <= List.length valueMap
             /\ Forall (fun r => exists e,
                            In e valueMap
                            /\ CastValue (VScalar (fst e)) (VStr keyType) = Ok (VScalar (fst r))
                            /\ CastValue (snd e) valType = Ok (snd r)) entries
             /\ Forall (fun e => exists kc,
                            CastValue (VScalar (fst e)) (VStr keyType) = Ok (VScalar kc)
                            /\ In kc (map fst entries)) valueMap).
Proof.
  intros valueMap keyType valType Hvalid Hkey.
  rewrite (CastValue_generic valueMap keyType valType Hvalid Hkey). unfold castGenericMap.
  split.
  - rewrite <- is_ok_true.
    assert (Hbind : forall r : result (list (Scalar * Value)),
               is_ok (valueMapCasted <- r ;; Ok (VMap valueMapCasted)) = is_ok r)
      by (now intros [| |]).
    rewrite Hbind, castGenericEntries_ok.
    split; apply Forall_impl; intros e; rewrite CastValue_VStr, is_ok_bind_scalar; tauto.
  - intros casted.
    destruct (castGenericEntries _ keyType valueMap []) as [entries | |] eqn:Hloop;
      cbn [bind]; try discriminate.
    intros [= <-]. exists entries. split; [reflexivity |].
    pose proof (castGenericEntries_keys _ keyType valueMap [] entries Hloop)
      as [Hlen [_ Hkeys]].
    apply (castGenericEntries_invariant
             (fun r => exists e,
                  In e valueMap
                  /\ CastValue (VScalar (fst e)) (VStr keyType) = Ok (VScalar (fst r))
                  /\ CastValue (snd e) valType = Ok (snd r))) in Hloop;
      [| | constructor | constructor].
    + destruct Hloop as [Hall Hnd]. split; [assumption |]. split; [exact Hlen |].
      split; [assumption |].
      eapply Forall_impl; [| exact Hkeys]. intros e [kc [Hk Hin]]. exists kc.
      split; [| assumption]. now rewrite CastValue_VStr, Hk.
    + apply Forall_forall. intros e Hin kc vc Hk Hv. exists e. cbn [fst snd].
      split; [assumption |]. split; [| assumption]. now rewrite CastValue_VStr, Hk.
Qed.

Lemma X9_generic_map_cast_witness :
  exists casted,
    CastValue (castLib := specCastLib)
              (VMap [(SStr "1", VStr "a"); (SInt 1, VStr "b"); (SInt 2, VNil)])
              (VMap [(SStr "INT", VStr "STRING")]) = Ok casted.
Proof.
  apply (proj1 (X9_generic_map_cast (castLib := specCastLib)
                  [(SStr "1", VStr "a"); (SInt 1, VStr "b"); (SInt 2, VNil)]
                  "INT"%string (VStr "STRING") eq_refl eq_refl)).
  repeat constructor.
Defined.

(** ** The shape of the value and of the type *)

(** X10.  The caster checks the type expression before the value: a type
    expression that does not validate gives its validation error for every
    value.  Against a validated type, a value of the wrong shape that is not
    nil gives [InvalidPrimitiveType], naming the map for a map type and the
    list for a sequence type; the empty type map accepts the empty map only,
    any other map gives [MustBeEmpty] at the value. *)
Theorem X10_cast_shape_errors {castLib : CastLib} :
  (forall (value valueType : Value) (e : Error),
      ValidateValueType valueType = Err e -> CastValue value valueType = Err e)
  /\ (forall (value : Value) (valueTypeMap : list (Scalar * Value)),
         ValidateValueType (VMap valueTypeMap) = Ok tt ->
         value <> VNil ->
         (forall valueMap, value <> VMap valueMap) ->
         CastValue value (VMap valueTypeMap)
         = Err (raise (ErrorInvalidPrimitiveType value [PrimTypeMap])))
  /\ (forall (value : Value) (valueTypeStr : string),
         isValidValueType valueTypeStr = true ->
         value <> VNil ->
         (forall items, value <> VList items) ->
         CastValue value (VList [VStr valueTypeStr])
         = Err (raise (ErrorInvalidPrimitiveType value [PrimTypeList])))
  /\ CastValue (VMap []) (VMap []) = Ok (VMap [])
  /\ (forall valueMap : list (Scalar * Value),
         valueMap <> [] ->
         CastValue (VMap valueMap) (VMap [])
         = Err (Wrap (raise ErrorMustBeEmpty) [SegValue (VMap valueMap)])).
Proof.
  split; [| split; [| split; [| split]]].
  - intros value valueType e Hvalid.
    destruct valueType; cbn [CastValue]; now rewrite Hvalid.
  - intros value valueTypeMap Hvalid Hnil Hmap. rewrite CastValue_VMap, Hvalid. cbn [bind].
    destruct value as [[ | | | | ] | items | valueMap]; try reflexivity.
    + now contradiction Hnil.
    + now contradiction (Hmap valueMap).
  - intros value s Hvalid Hnil Hlist.
    destruct value as [[ | | | | ] | items | valueMap];
      [now contradiction Hnil | | | | | now contradiction (Hlist items) |];
      cbn [CastValue]; unfold validateFlatType, castList; cbn; now rewrite Hvalid.
  - reflexivity.
  - intros valueMap Hne. destruct valueMap; [now contradiction Hne | reflexivity].
Qed.

Lemma X10_cast_shape_errors_witness :
  CastValue (castLib := specCastLib) (VInt 3) (VMap [(SStr "STRING", VStr "INT")])
  = Err (raise (ErrorInvalidPrimitiveType (VInt 3) [PrimTypeMap])).
Proof.
  apply (proj1 (proj2 (X10_cast_shape_errors (castLib := specCastLib)))).
  - reflexivity.
  - discriminate.
  - discriminate.
Defined.

(** ** The matcher as an order on type expressions *)

Lemma matchUnion_ok (runtimeType : Value) (s : string) :
  matchUnion runtimeType s = Ok tt
  <-> exists r, runtimeType = VStr r /\ forall k, In k (Split r pipe) -> In k (Split s pipe).
Proof.
  unfold matchUnion.
  destruct runtimeType as [[ | n | f | r | b] | items | entries]; cbn [assertString];
    try (split; [discriminate | intros [r [Hr _]]; discriminate]).
  destruct (forallb _ (Split r pipe)) eqn:Hall.
  - split; [| reflexivity].
    intros _. exists r. split; [reflexivity | now apply unionContained_iff].
  - split; [discriminate |].
    intros [r' [[= <-] Hsub]]. apply unionContained_iff in Hsub. congruence.
Qed.

Lemma matchList_ok (runtimeType schemaType : Value) :
  matchList runtimeType schemaType = Ok tt
  <-> exists r0 rrest s0 srest,
        InterfaceToStrSlice runtimeType = Some (r0 :: rrest)
        /\ InterfaceToStrSlice schemaType = Some (s0 :: srest)
        /\ forall k, In k (Split r0 pipe) -> In k (Split s0 pipe).
Proof.
  unfold matchList.
  destruct (InterfaceToStrSlice schemaType) as [[| s0 srest] |];
    try (split; [discriminate | intros [? [? [? [? [_ [H _]]]]]]; discriminate]).
  destruct (InterfaceToStrSlice runtimeType) as [[| r0 rrest] |];
    try (split; [discriminate | intros [? [? [? [? [H _]]]]]; discriminate]).
  destruct (forallb _ (Split r0 pipe)) eqn:Hall.
  - split; [| reflexivity].
    intros _. exists r0, rrest, s0, srest. repeat split. now apply unionContained_iff.
  - split; [discriminate |].
    intros [r0' [rrest' [s0' [srest' [[= <- <-] [[= <- <-] Hsub]]]]]].
    apply unionContained_iff in Hsub. congruence.
Qed.

Lemma CheckValueRuntimeTypesMatch_refl (schemaType : Value) :
  ValidateValueType schemaType = Ok tt ->
  uniqueKeys schemaType ->
  CheckValueRuntimeTypesMatch schemaType schemaType = Ok tt.
Proof.
  induction schemaType as [k | items _ | entries IH] using Value_nested_ind;
    intros Hvalid Huniq.
  - destruct k as [ | n | f | s | b]; try discriminate Hvalid.
    cbn [CheckValueRuntimeTypesMatch]. apply matchUnion_ok. exists s. now split.
  - destruct (ValidateValueType_VList _ Hvalid) as [s [-> _]].
    cbn [CheckValueRuntimeTypesMatch]. apply matchList_ok.
    exists s, [], s, []. now repeat split.
  - rewrite CheckValueRuntimeTypesMatch_VMap. cbn [InterfaceToInterfaceInterfaceMap].
    apply ValidateValueType_VMap_values in Hvalid.
    apply uniqueKeys_VMap in Huniq. destruct Huniq as [Hnd Hvals].
    assert (Hself : Forall (fun e => CheckValueRuntimeTypesMatch (snd e) (snd e) = Ok tt)
                           entries).
    { rewrite Forall_forall in IH, Hvalid, Hvals |- *. intros e Hin.
      apply IH; [assumption | now apply Hvalid | now apply Hvals]. }
    destruct (genericMapOf entries) as [[keyType valType] |] eqn:Hgen.
    + pose proof (genericMapOf_Some _ _ _ Hgen) as ->.
      apply matchGenericEntries_ok.
      inversion Hself as [| ? ? Hval _]; subst. cbn [snd] in Hval.
      constructor; [| constructor]. cbn [fst snd]. split; [| assumption].
      apply matchUnion_ok. exists keyType. now split.
    + rewrite bind_unit_ok, matchFixedEntries_ok, checkKeysSupported_ok. split.
      * rewrite Forall_forall in Hself |- *. intros [k t] Hin. exists t. cbn [fst snd].
        split; [now apply mapGet_NoDup_In | exact (Hself _ Hin)].
      * apply Forall_forall. intros e Hin. now apply in_map.
Qed.

Lemma In_keys_entry (m : list (Scalar * Value)) (k : Scalar) :
  In k (map fst m) -> exists v, In (k, v) m.
Proof.
  intros Hin. apply in_map_iff in Hin. destruct Hin as [[k' v] [Hk Hin]].
  cbn [fst] in Hk. subst k'. now exists v.
Qed.

Lemma CheckValueRuntimeTypesMatch_trans (schemaType : Value) :
  forall runtimeType middleType : Value,
    uniqueKeys runtimeType ->
    uniqueKeys schemaType ->
    CheckValueRuntimeTypesMatch runtimeType middleType = Ok tt ->
    CheckValueRuntimeTypesMatch middleType schemaType = Ok tt ->
    CheckValueRuntimeTypesMatch runtimeType schemaType = Ok tt.
Proof.
  induction schemaType as [k | items _ | cm IH] using Value_nested_ind;
    intros a b Ha Hc Hab Hbc.
  - destruct k as [ | n | f | s | bo]; try discriminate Hbc.
    + cbn [CheckValueRuntimeTypesMatch] in Hbc.
      destruct b as [[ | | | | ] | bitems | bm]; try discriminate Hbc; [exact Hab |].
      cbn [InterfaceToInterfaceInterfaceMap] in Hbc.
      destruct bm as [| [bk bv] bm']; [| discriminate Hbc].
      rewrite CheckValueRuntimeTypesMatch_VMap in Hab. cbn [genericMapOf] in Hab.
      cbn [CheckValueRuntimeTypesMatch].
      destruct (InterfaceToInterfaceInterfaceMap a) as [am |]; [| discriminate].
      exact Hab.
    + cbn [CheckValueRuntimeTypesMatch] in Hbc. apply matchUnion_ok in Hbc.
      destruct Hbc as [rb [-> Hsub]].
      cbn [CheckValueRuntimeTypesMatch] in Hab. apply matchUnion_ok in Hab.
      destruct Hab as [ra [-> Hsub']].
      cbn [CheckValueRuntimeTypesMatch]. apply matchUnion_ok. exists ra.
      split; [reflexivity |]. intros k Hk. now apply Hsub, Hsub'.
  - cbn [CheckValueRuntimeTypesMatch] in Hbc. apply matchList_ok in Hbc.
    destruct Hbc as [b0 [brest [s0 [srest [Hb [Hs Hsub]]]]]].
    destruct b as [[ | | | | ] | bitems | bm]; try discriminate Hb.
    cbn [CheckValueRuntimeTypesMatch] in Hab. apply matchList_ok in Hab.
    destruct Hab as [a0 [arest [b0' [brest' [Ha0 [Hb' Hsub']]]]]].
    rewrite Hb in Hb'. injection Hb' as <- <-.
    cbn [CheckValueRuntimeTypesMatch]. apply matchList_ok.
    exists a0, arest, s0, srest. split; [assumption |]. split; [assumption |].
    intros k Hk. now apply Hsub, Hsub'.
  - rewrite CheckValueRuntimeTypesMatch_VMap in Hbc |- *.
    destruct (InterfaceToInterfaceInterfaceMap b) as [bm |] eqn:Hb; [| discriminate].
    apply uniqueKeys_VMap in Hc. destruct Hc as [Hcnd Hcvals].
    assert (Hab' : exists am,
               InterfaceToInterfaceInterfaceMap a = Some am
               /\ match genericMapOf bm with
                  | Some (keyType, valType) =>
                      matchGenericEntries (fun r => CheckValueRuntimeTypesMatch r valType)
                                          keyType am
                  | None =>
                      _ <- matchFixedEntries (fun r t => CheckValueRuntimeTypesMatch r t)
                                             am bm ;;
                      checkKeysSupported bm am
                  end = Ok tt).
    { destruct b as [[ | | | | ] | bitems | bm0]; try discriminate Hb;
        cbn [InterfaceToInterfaceInterfaceMap] in Hb; injection Hb as <-.
      - cbn [CheckValueRuntimeTypesMatch] in Hab.
        destruct (InterfaceToInterfaceInterfaceMap a) as [am |]; [| discriminate].
        exists am. split; [reflexivity | exact Hab].
      - rewrite CheckValueRuntimeTypesMatch_VMap in Hab.
        destruct (InterfaceToInterfaceInterfaceMap a) as [am |]; [| discriminate].
        exists am. split; [reflexivity | exact Hab]. }
    destruct Hab' as [am [Ha_dec Hab']]. rewrite Ha_dec.
    destruct (decoded_map_uniqueKeys a am Ha_dec Ha) as [Hand Havals].
    rewrite Forall_forall in IH, Hcvals, Havals.
    destruct (genericMapOf cm) as [[ck cv] |] eqn:Hcgen.
    + pose proof (genericMapOf_Some _ _ _ Hcgen) as ->.
      apply matchGenericEntries_ok in Hbc. apply matchGenericEntries_ok.
      rewrite Forall_forall in Hbc |- *.
      assert (IHcv : forall x y,
                 uniqueKeys x ->
                 CheckValueRuntimeTypesMatch x y = Ok tt ->
                 CheckValueRuntimeTypesMatch y cv = Ok tt ->
                 CheckValueRuntimeTypesMatch x cv = Ok tt).
      { intros x y Hx Hxy Hycv.
        apply (IH (SStr ck, cv) (or_introl eq_refl) x y Hx); [| assumption | assumption].
        apply (Hcvals (SStr ck, cv)). now left. }
      assert (Hkeys : forall x y,
                 matchUnion x y = Ok tt -> matchUnion (VStr y) ck = Ok tt ->
                 matchUnion x ck = Ok tt).
      { intros x y Hxy Hyc. apply matchUnion_ok in Hxy, Hyc. apply matchUnion_ok.
        destruct Hxy as [rx [-> Hsub]]. destruct Hyc as [ry [[= <-] Hsub']].
        exists rx. split; [reflexivity |]. intros k Hk. now apply Hsub', Hsub. }
      destruct (genericMapOf bm) as [[bk bv] |] eqn:Hbgen.
      * pose proof (genericMapOf_Some _ _ _ Hbgen) as ->.
        apply matchGenericEntries_ok in Hab'. rewrite Forall_forall in Hab'.
        destruct (Hbc (SStr bk, bv) (or_introl eq_refl)) as [Hbk Hbv]. cbn [fst snd] in Hbk, Hbv.
        intros e Hin. destruct (Hab' e Hin) as [Hek Hev]. split.
        -- exact (Hkeys _ _ Hek Hbk).
        -- exact (IHcv _ _ (Havals e Hin) Hev Hbv).
      * rewrite bind_unit_ok, matchFixedEntries_ok, checkKeysSupported_ok in Hab'.
        destruct Hab' as [Hfields Hsupported]. rewrite Forall_forall in Hfields, Hsupported.
        intros [ak av] Hin. cbn [fst snd].
        destruct (In_keys_entry bm ak (Hsupported _ Hin)) as [bv Hbin].
        destruct (Hbc _ Hbin) as [Hbk Hbv]. cbn [fst snd] in Hbk, Hbv.
        destruct (Hfields _ Hbin) as [r [Hget Hr]]. cbn [fst snd] in Hget, Hr.
        rewrite (mapGet_NoDup_In am ak av Hand Hin) in Hget. injection Hget as <-.
        split; [assumption |].
        exact (IHcv _ _ (Havals _ Hin) Hr Hbv).
    + rewrite bind_unit_ok, matchFixedEntries_ok, checkKeysSupported_ok in Hbc |- *.
      destruct Hbc as [Hcfields Hbsupported].
      rewrite Forall_forall in Hcfields, Hbsupported.
      destruct (genericMapOf bm) as [[bk bv] |] eqn:Hbgen.
      * exfalso. pose proof (genericMapOf_Some _ _ _ Hbgen) as ->.
        cbn [genericMapOf] in Hbgen.
        destruct (isValidValueType bk) eqn:Hbk; [| discriminate].
        assert (Hall : forall e, In e cm -> fst e = SStr bk).
        { intros e Hin. destruct (Hcfields e Hin) as [r [Hget _]].
          apply mapGet_Some_keys in Hget. cbn in Hget. now destruct Hget as [<- | []]. }
        pose proof (Hbsupported (SStr bk, bv) (or_introl eq_refl)) as Hin. cbn [fst] in Hin.
        destruct cm as [| [ck cv] [| [ck2 cv2] rest]].
        -- destruct Hin.
        -- pose proof (Hall (ck, cv) (or_introl eq_refl)) as Hck. cbn [fst] in Hck. subst ck.
           cbn [genericMapOf] in Hcgen. rewrite Hbk in Hcgen. discriminate.
        -- pose proof (Hall (ck, cv) (or_introl eq_refl)) as Hck.
           pose proof (Hall (ck2, cv2) (or_intror (or_introl eq_refl))) as Hck2.
           cbn [fst] in Hck, Hck2. subst ck ck2.
           inversion Hcnd as [| ? ? Hnotin _]; subst. apply Hnotin. now left.
      * rewrite bind_unit_ok, matchFixedEntries_ok, checkKeysSupported_ok in Hab'.
        destruct Hab' as [Hbfields Hasupported].
        rewrite Forall_forall in Hbfields, Hasupported. split.
        -- apply Forall_forall. intros [ck cv] Hin.
           destruct (Hcfields _ Hin) as [bv [Hbget Hbv]]. cbn [fst snd] in Hbget, Hbv.
           apply mapGet_In in Hbget.
           destruct (Hbfields _ Hbget) as [av [Haget Hav]]. cbn [fst snd] in Haget, Hav.
           exists av. cbn [fst snd]. split; [assumption |].
           apply (IH (ck, cv) Hin av bv); [| now apply (Hcvals (ck, cv)) | assumption ..].
           apply mapGet_In in Haget. exact (Havals _ Haget).
        -- apply Forall_forall. intros e Hin.
           destruct (In_keys_entry bm (fst e) (Hasupported _ Hin)) as [bv Hbin].
           exact (Hbsupported _ Hbin).
Qed.

(** X11.  A validated type expression matches itself: a runtime type that is
    the schema type is accepted. *)
Theorem X11_type_matches_itself :
  forall schemaType : Value,
    ValidateValueType schemaType = Ok tt ->
    uniqueKeys schemaType ->
    CheckValueRuntimeTypesMatch schemaType schemaType = Ok tt.
Proof.
  exact CheckValueRuntimeTypesMatch_refl.
Qed.

Lemma X11_type_matches_itself_witness :
  CheckValueRuntimeTypesMatch
    (VMap [(SStr "a", VList [VStr "INT|FLOAT"]); (SStr "b", VMap [(SStr "STRING", VStr "BOOL")])])
    (VMap [(SStr "a", VList [VStr "INT|FLOAT"]); (SStr "b", VMap [(SStr "STRING", VStr "BOOL")])])
  = Ok tt.
Proof.
  apply X11_type_matches_itself.
  - reflexivity.
  - cbn. repeat split; repeat constructor; cbn; intuition discriminate.
Defined.

(** X12.  Matching composes: when a runtime type matches a type expression
    that in turn matches a schema, the runtime type matches the schema.  No
    validation of the three is needed. *)
Theorem X12_matching_composes :
  forall runtimeType middleType schemaType : Value,
    uniqueKeys runtimeType ->
    uniqueKeys schemaType ->
    CheckValueRuntimeTypesMatch runtimeType middleType = Ok tt ->
    CheckValueRuntimeTypesMatch middleType schemaType = Ok tt ->
    CheckValueRuntimeTypesMatch runtimeType schemaType = Ok tt.
Proof.
  intros runtimeType middleType schemaType. apply CheckValueRuntimeTypesMatch_trans.
Qed.

Lemma X12_matching_composes_witness :
  CheckValueRuntimeTypesMatch
    (VMap [(SStr "INT", VStr "INT")])
    (VMap [(SStr "INT|FLOAT|STRING", VStr "INT|FLOAT|BOOL")])
  = Ok tt.
Proof.
  apply (X12_matching_composes
           (VMap [(SStr "INT", VStr "INT")])
           (VMap [(SStr "INT|FLOAT", VStr "INT|FLOAT")])).
  - cbn. repeat split; repeat constructor; cbn; intuition discriminate.
  - cbn. repeat split; repeat constructor; cbn; intuition discriminate.
  - reflexivity.
  - reflexivity.
Defined.

(** * The column validators *)

Lemma validateColumnInputType_no_panic (cts : list string) (name : string) (columnType : Value) :
  validateColumnInputType cts name columnType <> Panic.
Proof.
  unfold validateColumnInputType.
  destruct (assertString columnType) as [s |].
  - destruct (negb (isValidColumnInputType cts s)); discriminate.
  - destruct (InterfaceToStrSlice columnType) as [[| s0 rest] |]; try discriminate.
    destruct (negb (List.length (s0 :: rest) =? 1)); [discriminate |].
    destruct (negb (isValidColumnInputType cts s0)); discriminate.
Qed.

Lemma ValidateColumnInputTypes_no_panic (cts : list string) (columnTypes : list (string * Value)) :
  ValidateColumnInputTypes cts columnTypes <> Panic.
Proof.
  induction columnTypes as [| [name columnType] rest IH]; cbn [ValidateColumnInputTypes];
    [discriminate |].
  pose proof (validateColumnInputType_no_panic cts name columnType) as Hentry.
  destruct (validateColumnInputType cts name columnType) as [[] | e |]; cbn [bind];
    [assumption | discriminate | congruence].
Qed.

Lemma allStrings_Some (items : list Value) (strs : list string) :
  allStrings items = Some strs <-> items = map (fun s => VStr s) strs.
Proof.
  split; [| intros ->; apply allStrings_strs].
  revert strs. induction items as [| item rest IH]; intros strs; cbn [allStrings].
  - now intros [= <-].
  - destruct item as [[ | | | s | ] | |]; try discriminate.
    destruct (allStrings rest) as [strs' |]; cbn [option_map]; [| discriminate].
    intros [= <-]. cbn [map]. now rewrite (IH strs' eq_refl).
Qed.

Section ColumnFacts.
Context {columnLib : ColumnLib}.

Lemma andThen_ok (r k : columnResult) :
  andThen r k = ColumnOk <-> r = ColumnOk /\ k = ColumnOk.
Proof.
  destruct r; cbn [andThen]; [tauto | |]; (split; [discriminate | now intros [H _]]).
Qed.

Lemma ofResult_ok (r : result unit) : ofResult r = ColumnOk <-> r = Ok tt.
Proof. destruct r as [[] | |]; cbn; split; congruence. Qed.

Lemma isUnknown_false (columnType : ColumnType) :
  isUnknown columnType = false <-> columnType <> UnknownColumnType.
Proof.
  unfold isUnknown. destruct (ColumnType_eq_dec columnType UnknownColumnType); split; congruence.
Qed.

Lemma runtimeGet_In (m : list (string * RuntimeValue)) (k : string) (v : RuntimeValue) :
  runtimeGet m k = Some v -> In (k, v) m.
Proof.
  unfold runtimeGet. induction m as [| [k' v'] r IH]; cbn; [discriminate |].
  destruct (string_dec k' k) as [-> | _].
  - intros [= ->]. now left.
  - intros H. right. now apply IH.
Qed.

Lemma runtimeGet_NoDup_In (m : list (string * RuntimeValue)) (k : string) (v : RuntimeValue) :
  NoDup (map fst m) -> In (k, v) m -> runtimeGet m k = Some v.
Proof.
  unfold runtimeGet. induction m as [| [k' v'] r IH]; cbn; [intros _ [] |].
  intros Hnd [Heq | Hin]; inversion Hnd as [| ? ? Hfresh Hnd']; subst.
  - injection Heq as -> ->. destruct (string_dec k k); [reflexivity | congruence].
  - destruct (string_dec k' k) as [-> | Hne]; [| now apply IH].
    contradiction Hfresh. now apply (in_map fst) in Hin.
Qed.

(** *** [ValidateColumnInputValues] *)

Lemma validateColumnInputValue_ok (name : string) (columnInputValue : Value) :
  validateColumnInputValue name columnInputValue = ColumnOk
  <-> (exists columnName, columnInputValue = VStr columnName)
      \/ (exists columnNames, columnInputValue = strsValue columnNames).
Proof.
  unfold validateColumnInputValue, strsValue.
  destruct columnInputValue as [[ | n | f | s | b] | items | entries];
    cbn [assertString InterfaceToStrSlice isNil];
    try (split; [discriminate | intros [[? H] | [? H]]; discriminate]).
  - split; [intros _; left; now exists s | reflexivity].
  - destruct (allStrings items) as [strs |] eqn:Hstrs.
    + split; [| reflexivity]. intros _. right. exists strs. f_equal.
      now apply allStrings_Some.
    + split; [discriminate |]. intros [[? H] | [strs [= H]]]; [discriminate |].
      apply allStrings_Some in H. congruence.
Qed.

Lemma ValidateColumnInputValues_ok (columnInputValues : list (string * Value)) :
  ValidateColumnInputValues columnInputValues = ColumnOk
  <-> Forall (fun e => (exists columnName, snd e = VStr columnName)
                       \/ (exists columnNames, snd e = strsValue columnNames))
             columnInputValues.
Proof.
  induction columnInputValues as [| [name value] rest IH]; cbn [ValidateColumnInputValues].
  - split; [constructor | reflexivity].
  - now rewrite andThen_ok, Forall_cons_iff, IH, validateColumnInputValue_ok.
Qed.

Lemma ValidateColumnInputValues_first_failure (before after : list (string * Value))
      (name : string) (value : Value) (e : ColumnError) :
  ValidateColumnInputValues before = ColumnOk ->
  validateColumnInputValue name value = ColumnErr e ->
  ValidateColumnInputValues (before ++ (name, value) :: after) = ColumnErr e.
Proof.
  intros Hbefore Hentry. induction before as [| [n v] before IH];
    cbn [app ValidateColumnInputValues] in *.
  - now rewrite Hentry.
  - apply andThen_ok in Hbefore. destruct Hbefore as [-> Hrest]. cbn [andThen]. now apply IH.
Qed.

(** *** [ValidateColumnRuntimeTypes] *)

Lemma validateColumnTypes_ok (name : string) (columnTypes : list ColumnType) :
  forall i : nat,
    validateColumnTypes name columnTypes i = ColumnOk
    <-> Forall (fun columnType => columnType <> UnknownColumnType) columnTypes.
Proof.
  induction columnTypes as [| c rest IH]; intros i; cbn [validateColumnTypes].
  - split; [constructor | reflexivity].
  - rewrite Forall_cons_iff, <- (IH (S i)), <- isUnknown_false.
    destruct (isUnknown c); [split; [discriminate | now intros [H _]] | tauto].
Qed.

Lemma validateColumnTypes_first_unknown (name : string) (known rest : list ColumnType) :
  forall i : nat,
    Forall (fun columnType => columnType <> UnknownColumnType) known ->
    validateColumnTypes name (known ++ UnknownColumnType :: rest) i
    = ColumnErr (wrapped ErrorInvalidColumnRuntimeType
                         [SegName name; SegIndex (i + List.length known)]).
Proof.
  induction known as [| c known IH]; intros i Hknown;
    cbn [app validateColumnTypes List.length].
  - unfold isUnknown.
    destruct (ColumnType_eq_dec UnknownColumnType UnknownColumnType); [| congruence].
    now rewrite Nat.add_0_r.
  - inversion Hknown as [| ? ? Hc Hrest]; subst. apply isUnknown_false in Hc. rewrite Hc.
    rewrite (IH (S i) Hrest). now rewrite Nat.add_succ_r.
Qed.

Lemma validateColumnTypes_err (name : string) (columnTypes : list ColumnType) (e : ColumnError) :
  forall i : nat,
    validateColumnTypes name columnTypes i = ColumnErr e ->
    exists j, e = wrapped ErrorInvalidColumnRuntimeType [SegName name; SegIndex j].
Proof.
  induction columnTypes as [| c rest IH]; intros i; cbn [validateColumnTypes]; [discriminate |].
  destruct (isUnknown c); [| apply IH]. intros [= <-]. now exists i.
Qed.

Lemma validateColumnTypes_no_panic (name : string) (columnTypes : list ColumnType) :
  forall i : nat, validateColumnTypes name columnTypes i <> ColumnPanic.
Proof.
  induction columnTypes as [| c rest IH]; intros i; cbn [validateColumnTypes]; [discriminate |].
  destruct (isUnknown c); [discriminate | apply IH].
Qed.

Lemma validateColumnRuntimeType_ok (name : string) (columnTypeInter : RuntimeValue) :
  validateColumnRuntimeType name columnTypeInter = ColumnOk <-> knownRuntimeType columnTypeInter.
Proof.
  destruct columnTypeInter as [c | cs | v]; cbn [validateColumnRuntimeType knownRuntimeType].
  - rewrite <- isUnknown_false. destruct (isUnknown c); split; congruence.
  - apply validateColumnTypes_ok.
  - split; [discriminate | intros []].
Qed.

Lemma ValidateColumnRuntimeTypes_ok (columnRuntimeTypes : list (string * RuntimeValue)) :
  ValidateColumnRuntimeTypes columnRuntimeTypes = ColumnOk
  <-> Forall (fun e => knownRuntimeType (snd e)) columnRuntimeTypes.
Proof.
  induction columnRuntimeTypes as [| [name r] rest IH]; cbn [ValidateColumnRuntimeTypes].
  - split; [constructor | reflexivity].
  - now rewrite andThen_ok, Forall_cons_iff, IH, validateColumnRuntimeType_ok.
Qed.

Lemma ValidateColumnRuntimeTypes_err (columnRuntimeTypes : list (string * RuntimeValue))
      (e : ColumnError) :
  ValidateColumnRuntimeTypes columnRuntimeTypes = ColumnErr e ->
  exists name, In name (map fst columnRuntimeTypes)
               /\ (e = wrapped ErrorInvalidColumnRuntimeType [SegName name]
                   \/ exists i, e = wrapped ErrorInvalidColumnRuntimeType
                                            [SegName name; SegIndex i]).
Proof.
  induction columnRuntimeTypes as [| [name r] rest IH]; cbn [ValidateColumnRuntimeTypes];
    [discriminate |].
  destruct (validateColumnRuntimeType name r) as [| e' |] eqn:Hentry; cbn [andThen].
  - intros H. destruct (IH H) as [name' [Hin Hshape]]. exists name'.
    split; [now right | assumption].
  - intros [= <-]. exists name. split; [now left |].
    destruct r as [c | cs | v]; cbn [validateColumnRuntimeType] in Hentry.
    + destruct (isUnknown c); [| discriminate]. injection Hentry as <-. now left.
    + right. now apply (validateColumnTypes_err name cs e' 0).
    + injection Hentry as <-. now left.
  - discriminate.
Qed.

Lemma ValidateColumnRuntimeTypes_no_panic (columnRuntimeTypes : list (string * RuntimeValue)) :
  ValidateColumnRuntimeTypes columnRuntimeTypes <> ColumnPanic.
Proof.
  induction columnRuntimeTypes as [| [name r] rest IH]; cbn [ValidateColumnRuntimeTypes];
    [discriminate |].
  destruct (validateColumnRuntimeType name r) as [| e' |] eqn:Hentry; cbn [andThen];
    [assumption | discriminate |].
  destruct r as [c | cs | v]; cbn [validateColumnRuntimeType] in Hentry.
  - destruct (isUnknown c); discriminate.
  - now apply validateColumnTypes_no_panic in Hentry.
  - discriminate.
Qed.

Lemma ValidateColumnRuntimeTypes_first_failure (before after : list (string * RuntimeValue))
      (name : string) (r : RuntimeValue) (e : ColumnError) :
  ValidateColumnRuntimeTypes before = ColumnOk ->
  validateColumnRuntimeType name r = ColumnErr e ->
  ValidateColumnRuntimeTypes (before ++ (name, r) :: after) = ColumnErr e.
Proof.
  intros Hbefore Hentry. induction before as [| [n v] before IH];
    cbn [app ValidateColumnRuntimeTypes] in *.
  - now rewrite Hentry.
  - apply andThen_ok in Hbefore. destruct Hbefore as [-> Hrest]. cbn [andThen]. now apply IH.
Qed.
End ColumnFacts.

(** X13.  [ValidateColumnInputValues] accepts exactly the maps whose values
    are strings or sequences of strings (the empty sequence too).  At the first
    entry that is neither, nil gives [CannotBeNull] and any other value
    [InvalidPrimitiveType] naming the string and the string list, each under
    the entry's name. *)
Theorem X13_column_input_values {columnLib : ColumnLib} :
  forall columnInputValues : list (string * Value),
    (ValidateColumnInputValues columnInputValues = ColumnOk
     <-> Forall (fun e => (exists columnName, snd e = VStr columnName)
                          \/ (exists columnNames, snd e = strsValue columnNames))
                columnInputValues)
    /\ (forall before after name value,
           columnInputValues = before ++ (name, value) :: after ->
           ValidateColumnInputValues before = ColumnOk ->
           (value = VNil ->
            ValidateColumnInputValues columnInputValues
            = ColumnErr (wrapped ErrorCannotBeNull [SegName name]))
           /\ (assertString value = None ->
               InterfaceToStrSlice value = None ->
               ValidateColumnInputValues columnInputValues
               = ColumnErr (wrapped (ConfigError (ErrorInvalidPrimitiveType
                                                    value [PrimTypeString; PrimTypeStringList]))
                                    [SegName name]))).
Proof.
  intros columnInputValues. split; [apply ValidateColumnInputValues_ok |].
  intros before after name value -> Hbefore. split.
  - intros ->. now apply ValidateColumnInputValues_first_failure.
  - intros Hstr Hslice. apply ValidateColumnInputValues_first_failure; [assumption |].
    unfold validateColumnInputValue. now rewrite Hstr, Hslice.
Qed.

Lemma X13_column_input_values_witness :
  ValidateColumnInputValues (columnLib := specColumnLib)
                            [("a"%string, VStr "col1"); ("b"%string, VNil)]
  = ColumnErr (wrapped ErrorCannotBeNull [SegName "b"]).
Proof.
  apply (proj1 (proj2 (X13_column_input_values (columnLib := specColumnLib)
                         [("a"%string, VStr "col1"); ("b"%string, VNil)])
                      [("a"%string, VStr "col1")] [] "b"%string VNil eq_refl eq_refl)).
  reflexivity.
Defined.

(** X14.  [ValidateColumnRuntimeTypes] accepts exactly the maps whose entries
    hold a column kind other than the unknown one, or a slice of such kinds
    (the empty slice too).  It never panics, and every error it returns is
    [InvalidColumnRuntimeType] under the name of an entry, or under the name
    and an index; for a slice the index is that of its first unknown kind. *)
Theorem X14_column_runtime_types {columnLib : ColumnLib} :
  forall columnRuntimeTypes : list (string * RuntimeValue),
    (ValidateColumnRuntimeTypes columnRuntimeTypes = ColumnOk
     <-> Forall (fun e => knownRuntimeType (snd e)) columnRuntimeTypes)
    /\ ValidateColumnRuntimeTypes columnRuntimeTypes <> ColumnPanic
    /\ (forall e,
           ValidateColumnRuntimeTypes columnRuntimeTypes = ColumnErr e ->
           exists name, In name (map fst columnRuntimeTypes)
                        /\ (e = wrapped ErrorInvalidColumnRuntimeType [SegName name]
                            \/ exists i, e = wrapped ErrorInvalidColumnRuntimeType
                                                     [SegName name; SegIndex i]))
    /\ (forall before after name known rest,
           columnRuntimeTypes
           = before ++ (name, OfColumnTypes (known ++ UnknownColumnType :: rest)) :: after ->
           ValidateColumnRuntimeTypes before = ColumnOk ->
           Forall (fun columnType => columnType <> UnknownColumnType) known ->
           ValidateColumnRuntimeTypes columnRuntimeTypes
           = ColumnErr (wrapped ErrorInvalidColumnRuntimeType
                                [SegName name; SegIndex (List.length known)])).
Proof.
  intros columnRuntimeTypes.
  split; [apply ValidateColumnRuntimeTypes_ok |].
  split; [apply ValidateColumnRuntimeTypes_no_panic |].
  split; [apply ValidateColumnRuntimeTypes_err |].
  intros before after name known rest -> Hbefore Hknown.
  apply ValidateColumnRuntimeTypes_first_failure; [assumption |].
  cbn [validateColumnRuntimeType].
  now rewrite (validateColumnTypes_first_unknown name known rest 0 Hknown).
Qed.

Lemma X14_column_runtime_types_witness :
  ValidateColumnRuntimeTypes
    (columnLib := specColumnLib)
    [("a"%string, OfColumnType (columnLib := specColumnLib) SpecIntColumn);
     ("b"%string, OfColumnTypes (columnLib := specColumnLib)
                                [SpecFloatColumn; SpecUnknownColumn; SpecIntColumn])]
  = ColumnErr (wrapped ErrorInvalidColumnRuntimeType [SegName "b"; SegIndex 1]).
Proof.
  apply (proj2 (proj2 (proj2 (X14_column_runtime_types (columnLib := specColumnLib) _)))
               [("a"%string, OfColumnType (columnLib := specColumnLib) SpecIntColumn)] [] "b"%string
               [SpecFloatColumn] [SpecIntColumn] eq_refl eq_refl).
  repeat constructor; discriminate.
Defined.

(** *** [CheckColumnRuntimeTypesMatch] *)

Section ColumnMatch.
Context {columnLib : ColumnLib}.

Lemma matchColumnTypes_ok (name : string) (validTypes : list string)
      (columnTypes : list ColumnType) :
  forall i : nat,
    matchColumnTypes name validTypes columnTypes i = ColumnOk
    <-> Forall (fun columnType => In (ColumnType_String columnType) validTypes) columnTypes.
Proof.
  induction columnTypes as [| c rest IH]; intros i; cbn [matchColumnTypes].
  - split; [constructor | reflexivity].
  - rewrite Forall_cons_iff, <- (IH (S i)), <- HasString_In.
    destruct (HasString validTypes (ColumnType_String c)); cbn [negb];
      [tauto | split; [discriminate | now intros [H _]]].
Qed.

Lemma matchColumnTypes_no_panic (name : string) (validTypes : list string)
      (columnTypes : list ColumnType) :
  forall i : nat, matchColumnTypes name validTypes columnTypes i <> ColumnPanic.
Proof.
  induction columnTypes as [| c rest IH]; intros i; cbn [matchColumnTypes]; [discriminate |].
  destruct (negb (HasString validTypes (ColumnType_String c))); [discriminate | apply IH].
Qed.

Lemma matchColumnTypes_first_failure (name : string) (validTypes : list string)
      (matching rest : list ColumnType) (columnType : ColumnType) :
  forall i : nat,
    Forall (fun c => In (ColumnType_String c) validTypes) matching ->
    ~ In (ColumnType_String columnType) validTypes ->
    matchColumnTypes name validTypes (matching ++ columnType :: rest) i
    = ColumnErr (wrapped (ErrorUnsupportedColumnType (OfColumnType columnType) validTypes)
                         [SegName name; SegIndex (i + List.length matching)]).
Proof.
  induction matching as [| c matching IH]; intros i Hmatching Hnot;
    cbn [app matchColumnTypes List.length].
  - destruct (HasString validTypes (ColumnType_String columnType)) eqn:Hhas.
    + apply HasString_In in Hhas. contradiction.
    + cbn [negb]. now rewrite Nat.add_0_r.
  - inversion Hmatching as [| ? ? Hc Hrest]; subst. apply HasString_In in Hc. rewrite Hc.
    cbn [negb]. rewrite (IH (S i) Hrest Hnot). now rewrite Nat.add_succ_r.
Qed.

Lemma matchColumn_ok (cts : list string) (name : string) (columnSchemaType : Value)
      (columnTypeInter : RuntimeValue) :
  flatColumnType cts columnSchemaType \/ listColumnType cts columnSchemaType ->
  (matchColumn name columnSchemaType columnTypeInter = ColumnOk
   <-> columnMatches columnSchemaType columnTypeInter).
Proof.
  intros [[s [-> _]] | [s [-> _]]]; unfold matchColumn;
    cbn [assertString InterfaceToStrSlice allStrings option_map columnMatches].
  - destruct columnTypeInter as [c | cs | v]; try (split; [discriminate | intros []]).
    rewrite <- HasString_In.
    destruct (HasString (Split s pipe) (ColumnType_String c)); cbn [negb]; split; congruence.
  - destruct columnTypeInter as [c | cs | v]; try (split; [discriminate | intros []]).
    apply matchColumnTypes_ok.
Qed.

Lemma matchColumn_no_panic (cts : list string) (name : string) (columnSchemaType : Value)
      (columnTypeInter : RuntimeValue) :
  flatColumnType cts columnSchemaType \/ listColumnType cts columnSchemaType ->
  matchColumn name columnSchemaType columnTypeInter <> ColumnPanic.
Proof.
  intros [[s [-> _]] | [s [-> _]]]; unfold matchColumn;
    cbn [assertString InterfaceToStrSlice allStrings option_map].
  - destruct columnTypeInter as [c | cs | v]; try discriminate.
    destruct (negb (HasString (Split s pipe) (ColumnType_String c))); discriminate.
  - destruct columnTypeInter as [c | cs | v]; try discriminate.
    apply matchColumnTypes_no_panic.
Qed.

Lemma matchColumns_ok (cts : list string) (columnRuntimeTypes : list (string * RuntimeValue))
      (columnSchemaTypes entries : list (string * Value)) :
  Forall (fun e => flatColumnType cts (snd e) \/ listColumnType cts (snd e)) entries ->
  (matchColumns columnRuntimeTypes columnSchemaTypes entries = ColumnOk
   <-> Forall (fun e => (List.length columnRuntimeTypes =? 0) = false
                        /\ exists r, runtimeGet columnRuntimeTypes (fst e) = Some r
                                     /\ columnMatches (snd e) r) entries).
Proof.
  induction 1 as [| [name t] rest Hshape _ IH]; cbn [matchColumns].
  - split; [constructor | reflexivity].
  - rewrite Forall_cons_iff. cbn [fst snd] in *.
    destruct (List.length columnRuntimeTypes =? 0);
      [split; [discriminate | now intros [[H _] _]] |].
    destruct (runtimeGet columnRuntimeTypes name) as [r |].
    + rewrite andThen_ok, IH, (matchColumn_ok cts name t r Hshape). split.
      * intros [Hm Hrest]. split; [| assumption]. split; [reflexivity |]. now exists r.
      * intros [[_ [r' [[= <-] Hm]]] Hrest]. now split.
    + split; [discriminate | now intros [[_ [r' [H _]]] _]].
Qed.

Lemma matchColumns_no_panic (cts : list string) (columnRuntimeTypes : list (string * RuntimeValue))
      (columnSchemaTypes entries : list (string * Value)) :
  Forall (fun e => flatColumnType cts (snd e) \/ listColumnType cts (snd e)) entries ->
  matchColumns columnRuntimeTypes columnSchemaTypes entries <> ColumnPanic.
Proof.
  induction 1 as [| [name t] rest Hshape _ IH]; cbn [matchColumns]; [discriminate |].
  destruct (List.length columnRuntimeTypes =? 0); [discriminate |].
  destruct (runtimeGet columnRuntimeTypes name) as [r |]; [| discriminate].
  pose proof (matchColumn_no_panic cts name t r Hshape) as Hentry. cbn [snd] in Hentry.
  destruct (matchColumn name t r); cbn [andThen]; [assumption | discriminate | congruence].
Qed.

Lemma matchColumns_first_failure (columnRuntimeTypes : list (string * RuntimeValue))
      (columnSchemaTypes before after : list (string * Value)) (name : string)
      (columnSchemaType : Value) (e : ColumnError) :
  columnRuntimeTypes <> [] ->
  matchColumns columnRuntimeTypes columnSchemaTypes before = ColumnOk ->
  match runtimeGet columnRuntimeTypes name with
  | None => wrapped (ConfigError ErrorMustBeDefined) [SegName name] = e
  | Some r => matchColumn name columnSchemaType r = ColumnErr e
  end ->
  matchColumns columnRuntimeTypes columnSchemaTypes (before ++ (name, columnSchemaType) :: after)
  = ColumnErr e.
Proof.
  intros Hne Hbefore Hentry.
  assert (Hlen : (List.length columnRuntimeTypes =? 0) = false)
    by (destruct columnRuntimeTypes; [now contradiction Hne | reflexivity]).
  induction before as [| [n t] before IH]; cbn [app matchColumns] in *; rewrite Hlen in *.
  - destruct (runtimeGet columnRuntimeTypes name) as [r |]; [| now rewrite Hentry].
    now rewrite Hentry.
  - destruct (runtimeGet columnRuntimeTypes n) as [r |]; [| discriminate].
    apply andThen_ok in Hbefore. destruct Hbefore as [-> Hrest]. cbn [andThen]. now apply IH.
Qed.

Lemma columnKeysSupported_ok (columnSchemaTypes : list (string * Value))
      (entries : list (string * RuntimeValue)) :
  columnKeysSupported columnSchemaTypes entries = ColumnOk
  <-> Forall (fun e => In (fst e) (map fst columnSchemaTypes)) entries.
Proof.
  induction entries as [| [name r] rest IH]; cbn [columnKeysSupported].
  - split; [constructor | reflexivity].
  - rewrite Forall_cons_iff. cbn [fst].
    destruct (argGet columnSchemaTypes name) as [t |] eqn:Hget.
    + rewrite IH. apply argGet_Some_keys in Hget. tauto.
    + apply argGet_None_iff in Hget. split; [discriminate | now intros [H _]].
Qed.

Lemma columnKeysSupported_no_panic (columnSchemaTypes : list (string * Value))
      (entries : list (string * RuntimeValue)) :
  columnKeysSupported columnSchemaTypes entries <> ColumnPanic.
Proof.
  induction entries as [| [name r] rest IH]; cbn [columnKeysSupported]; [discriminate |].
  destruct (argGet columnSchemaTypes name); [assumption | discriminate].
Qed.

Lemma runtimeGet_Some_keys (m : list (string * RuntimeValue)) (k : string) (v : RuntimeValue) :
  runtimeGet m k = Some v -> In k (map fst m).
Proof.
  intros H. apply runtimeGet_In in H. now apply (in_map fst) in H.
Qed.

Lemma CheckColumnRuntimeTypesMatch_ok (columnRuntimeTypes : list (string * RuntimeValue))
      (columnSchemaTypes : list (string * Value)) :
  CheckColumnRuntimeTypesMatch columnRuntimeTypes columnSchemaTypes = ColumnOk
  <-> ValidateColumnInputTypes ColumnTypeStrings columnSchemaTypes = Ok tt
      /\ ValidateColumnRuntimeTypes columnRuntimeTypes = ColumnOk
      /\ (forall name, In name (map fst columnRuntimeTypes)
                       <-> In name (map fst columnSchemaTypes))
      /\ Forall (fun e => exists r, runtimeGet columnRuntimeTypes (fst e) = Some r
                                    /\ columnMatches (snd e) r) columnSchemaTypes.
Proof.
  unfold CheckColumnRuntimeTypesMatch.
  rewrite !andThen_ok, ofResult_ok, columnKeysSupported_ok. split.
  - intros [Hs [Hr [Hloop Hkeys]]].
    pose proof (proj1 (ValidateColumnInputTypes_ok _ _) Hs) as Hshapes.
    apply (matchColumns_ok _ _ _ _ Hshapes) in Hloop.
    rewrite Forall_forall in Hloop, Hkeys.
    split; [assumption |]. split; [assumption |]. split.
    + intros name. split.
      * intros Hin. apply in_map_iff in Hin. destruct Hin as [e [<- Hin]]. now apply Hkeys.
      * intros Hin. apply in_map_iff in Hin. destruct Hin as [e [<- Hin]].
        destruct (Hloop e Hin) as [_ [r [Hget _]]]. now apply runtimeGet_Some_keys in Hget.
    + apply Forall_forall. intros e Hin. now destruct (Hloop e Hin).
  - intros [Hs [Hr [Hsame Hall]]].
    pose proof (proj1 (ValidateColumnInputTypes_ok _ _) Hs) as Hshapes.
    split; [assumption |]. split; [assumption |].
    rewrite Forall_forall in Hall. split.
    + apply (matchColumns_ok _ _ _ _ Hshapes). apply Forall_forall. intros e Hin.
      split; [| now apply Hall].
      destruct (Hall e Hin) as [r [Hget _]]. apply runtimeGet_In in Hget.
      destruct columnRuntimeTypes; [destruct Hget | reflexivity].
    + apply Forall_forall. intros e Hin. apply Hsame. now apply in_map.
Qed.

Lemma CheckColumnRuntimeTypesMatch_no_panic
      (columnRuntimeTypes : list (string * RuntimeValue))
      (columnSchemaTypes : list (string * Value)) :
  CheckColumnRuntimeTypesMatch columnRuntimeTypes columnSchemaTypes <> ColumnPanic.
Proof.
  unfold CheckColumnRuntimeTypesMatch.
  pose proof (ValidateColumnInputTypes_no_panic ColumnTypeStrings columnSchemaTypes) as Hs.
  destruct (ValidateColumnInputTypes ColumnTypeStrings columnSchemaTypes) as [[] | e |] eqn:Hvalid;
    cbn [ofResult andThen]; [| discriminate | congruence].
  pose proof (ValidateColumnRuntimeTypes_no_panic columnRuntimeTypes) as Hr.
  destruct (ValidateColumnRuntimeTypes columnRuntimeTypes); cbn [andThen];
    [| discriminate | congruence].
  apply ValidateColumnInputTypes_ok in Hvalid.
  pose proof (matchColumns_no_panic _ columnRuntimeTypes columnSchemaTypes _ Hvalid) as Hm.
  destruct (matchColumns columnRuntimeTypes columnSchemaTypes columnSchemaTypes);
    cbn [andThen]; [apply columnKeysSupported_no_panic | discriminate | congruence].
Qed.
End ColumnMatch.

(** X15.  [CheckColumnRuntimeTypesMatch] succeeds exactly when the declared
    types pass [ValidateColumnInputTypes], the runtime types pass
    [ValidateColumnRuntimeTypes], both maps hold the same column names, and
    the runtime entry of every declared column has the declared shape and
    kinds: one kind of the union for a union string, a slice of kinds of the
    union (the empty slice too) for a one-element sequence.  It never panics:
    the declared sequence it indexes at 0 has passed validation. *)
Theorem X15_column_runtime_types_match {columnLib : ColumnLib} :
  forall (columnRuntimeTypes : list (string * RuntimeValue))
         (columnSchemaTypes : list (string * Value)),
    (CheckColumnRuntimeTypesMatch columnRuntimeTypes columnSchemaTypes = ColumnOk
     <-> ValidateColumnInputTypes ColumnTypeStrings columnSchemaTypes = Ok tt
         /\ ValidateColumnRuntimeTypes columnRuntimeTypes = ColumnOk
         /\ (forall name, In name (map fst columnRuntimeTypes)
                          <-> In name (map fst columnSchemaTypes))
         /\ Forall (fun e => exists r, runtimeGet columnRuntimeTypes (fst e) = Some r
                                       /\ columnMatches (snd e) r) columnSchemaTypes)
    /\ CheckColumnRuntimeTypesMatch columnRuntimeTypes columnSchemaTypes <> ColumnPanic.
Proof.
  intros columnRuntimeTypes columnSchemaTypes.
  split; [apply CheckColumnRuntimeTypesMatch_ok | apply CheckColumnRuntimeTypesMatch_no_panic].
Qed.

(** X16.  When [CheckColumnRuntimeTypesMatch] succeeds on a runtime map that
    holds each name once, every kind the runtime map holds is a declared
    column kind ([ColumnTypeStrings] holds its name) other than the unknown
    kind. *)
Theorem X16_matched_kinds_are_declared {columnLib : ColumnLib} :
  forall (columnRuntimeTypes : list (string * RuntimeValue))
         (columnSchemaTypes : list (string * Value)),
    NoDup (map fst columnRuntimeTypes) ->
    CheckColumnRuntimeTypesMatch columnRuntimeTypes columnSchemaTypes = ColumnOk ->
    Forall (fun e => declaredRuntimeType (snd e)) columnRuntimeTypes.
Proof.
  intros runtime schema Hnd Hmatch.
  apply CheckColumnRuntimeTypesMatch_ok in Hmatch.
  destruct Hmatch as [Hs [Hr [Hsame Hall]]].
  apply ValidateColumnInputTypes_ok in Hs. apply ValidateColumnRuntimeTypes_ok in Hr.
  rewrite Forall_forall in Hs, Hr, Hall. apply Forall_forall. intros [name r] Hin.
  pose proof (Hr _ Hin) as Hknown. cbn [snd] in Hknown |- *.
  assert (Hname : In name (map fst schema)).
  { apply Hsame. now apply (in_map fst) in Hin. }
  apply in_map_iff in Hname. destruct Hname as [[name' t] [Hn Hsin]].
  cbn [fst] in Hn. subst name'.
  destruct (Hall _ Hsin) as [r' [Hget Hm]]. cbn [fst snd] in Hget, Hm.
  rewrite (runtimeGet_NoDup_In runtime name r Hnd Hin) in Hget. injection Hget as <-.
  destruct (Hs _ Hsin) as [[s [Ht Hvalid]] | [s [Ht Hvalid]]]; cbn [snd] in Ht; subst t;
    pose proof (proj1 (unionContained_iff ColumnTypeStrings s) Hvalid) as Hdeclared.
  - destruct r as [c | cs | v]; cbn [columnMatches] in Hm; try contradiction.
    cbn [knownRuntimeType] in Hknown. split; [assumption | now apply Hdeclared].
  - destruct r as [c | cs | v]; cbn [columnMatches] in Hm; try contradiction.
    cbn [knownRuntimeType declaredRuntimeType] in Hknown |- *.
    rewrite Forall_forall in Hm, Hknown |- *.
    intros c Hc. split; [now apply Hknown | now apply Hdeclared, Hm].
Qed.

Lemma X16_matched_kinds_are_declared_witness :
  Forall (fun e => declaredRuntimeType (columnLib := specColumnLib) (snd e))
         [("b"%string, OfColumnTypes (columnLib := specColumnLib)
                                     [SpecFloatColumn; SpecIntColumn]);
          ("a"%string, OfColumnType (columnLib := specColumnLib) SpecIntColumn)].
Proof.
  apply (X16_matched_kinds_are_declared
           (columnLib := specColumnLib)
           [("b"%string, OfColumnTypes (columnLib := specColumnLib)
                                       [SpecFloatColumn; SpecIntColumn]);
            ("a"%string, OfColumnType (columnLib := specColumnLib) SpecIntColumn)]
           [("a"%string, VStr "INT_COLUMN|STRING_COLUMN");
            ("b"%string, VList [VStr "INT_COLUMN|FLOAT_COLUMN"])]).
  - repeat constructor; cbn; intuition discriminate.
  - reflexivity.
Defined.

(** X17.  The errors of [CheckColumnRuntimeTypesMatch] on validated maps.  An
    empty runtime map against declared columns gives [MapMustBeDefined] over
    the declared names.  Otherwise, at the first declared column that fails,
    a column missing from the runtime map gives [MustBeDefined] under its
    name; a runtime entry of the other shape, or of a kind outside the union,
    gives [UnsupportedColumnType] under the name, and a slice element outside
    the union gives it under the name and the element's index. *)
Theorem X17_column_match_errors {columnLib : ColumnLib} :
  forall (columnRuntimeTypes : list (string * RuntimeValue))
         (columnSchemaTypes : list (string * Value)),
    ValidateColumnInputTypes ColumnTypeStrings columnSchemaTypes = Ok tt ->
    ValidateColumnRuntimeTypes columnRuntimeTypes = ColumnOk ->
    (columnSchemaTypes <> [] ->
     columnRuntimeTypes = [] ->
     CheckColumnRuntimeTypesMatch columnRuntimeTypes columnSchemaTypes
     = ColumnErr (wrapped (ConfigError (ErrorMapMustBeDefined (map fst columnSchemaTypes))) []))
    /\ (forall before after name columnSchemaType,
           columnSchemaTypes = before ++ (name, columnSchemaType) :: after ->
           columnRuntimeTypes <> [] ->
           matchColumns columnRuntimeTypes columnSchemaTypes before = ColumnOk ->
           (runtimeGet columnRuntimeTypes name = None ->
            CheckColumnRuntimeTypesMatch columnRuntimeTypes columnSchemaTypes
            = ColumnErr (wrapped (ConfigError ErrorMustBeDefined) [SegName name]))
           /\ (forall s columnTypes,
                  columnSchemaType = VStr s ->
                  runtimeGet columnRuntimeTypes name = Some (OfColumnTypes columnTypes) ->
                  CheckColumnRuntimeTypesMatch columnRuntimeTypes columnSchemaTypes
                  = ColumnErr (wrapped (ErrorUnsupportedColumnType (OfColumnTypes columnTypes)
                                                                   (Split s pipe))
                                       [SegName name]))
           /\ (forall s columnType,
                  columnSchemaType = VStr s ->
                  runtimeGet columnRuntimeTypes name = Some (OfColumnType columnType) ->
                  ~ In (ColumnType_String columnType) (Split s pipe) ->
                  CheckColumnRuntimeTypesMatch columnRuntimeTypes columnSchemaTypes
                  = ColumnErr (wrapped (ErrorUnsupportedColumnType (OfColumnType columnType)
                                                                   (Split s pipe))
                                       [SegName name]))
           /\ (forall s columnType,
                  columnSchemaType = VList [VStr s] ->
                  runtimeGet columnRuntimeTypes name = Some (OfColumnType columnType) ->
                  CheckColumnRuntimeTypesMatch columnRuntimeTypes columnSchemaTypes
                  = ColumnErr (wrapped (ErrorUnsupportedColumnType (OfColumnType columnType) [s])
                                       [SegName name]))
           /\ (forall s matching columnType rest,
                  columnSchemaType = VList [VStr s] ->
                  runtimeGet columnRuntimeTypes name
                  = Some (OfColumnTypes (matching ++ columnType :: rest)) ->
                  Forall (fun c => In (ColumnType_String c) (Split s pipe)) matching ->
                  ~ In (ColumnType_String columnType) (Split s pipe) ->
                  CheckColumnRuntimeTypesMatch columnRuntimeTypes columnSchemaTypes
                  = ColumnErr (wrapped (ErrorUnsupportedColumnType (OfColumnType columnType)
                                                                   (Split s pipe))
                                       [SegName name; SegIndex (List.length matching)]))).
Proof.
  intros runtime schema Hs Hr. unfold CheckColumnRuntimeTypesMatch. rewrite Hs, Hr.
  cbn [ofResult andThen]. split.
  - intros Hne ->. destruct schema as [| [name t] rest]; [now contradiction Hne | reflexivity].
  - intros before after name t -> Hne Hbefore.
    assert (Hfail : forall e,
               match runtimeGet runtime name with
               | None => wrapped (ConfigError ErrorMustBeDefined) [SegName name] = e
               | Some r => matchColumn name t r = ColumnErr e
               end ->
               andThen (matchColumns runtime (before ++ (name, t) :: after)
                                     (before ++ (name, t) :: after))
                       (columnKeysSupported (before ++ (name, t) :: after) runtime)
               = ColumnErr e).
    { intros e He.
      now rewrite (matchColumns_first_failure runtime _ before after name t e Hne Hbefore He). }
    split; [| split; [| split; [| split]]].
    + intros Hget. apply Hfail. now rewrite Hget.
    + intros s cs -> Hget. apply Hfail. now rewrite Hget.
    + intros s c -> Hget Hnot. apply Hfail. rewrite Hget. unfold matchColumn.
      cbn [assertString].
      destruct (HasString (Split s pipe) (ColumnType_String c)) eqn:Hhas; [| reflexivity].
      apply HasString_In in Hhas. contradiction.
    + intros s c -> Hget. apply Hfail. now rewrite Hget.
    + intros s matching c rest -> Hget Hmatching Hnot. apply Hfail. rewrite Hget.
      unfold matchColumn. cbn [assertString InterfaceToStrSlice allStrings option_map].
      now rewrite (matchColumnTypes_first_failure name _ matching rest c 0 Hmatching Hnot).
Qed.

Lemma X17_column_match_errors_witness :
  CheckColumnRuntimeTypesMatch
    (columnLib := specColumnLib)
    [("a"%string, OfColumnType (columnLib := specColumnLib) SpecIntColumn);
     ("b"%string, OfColumnTypes (columnLib := specColumnLib) [SpecIntColumn; SpecStringColumn])]
    [("a"%string, VStr "INT_COLUMN|FLOAT_COLUMN"); ("b"%string, VList [VStr "INT_COLUMN"])]
  = ColumnErr (wrapped (ErrorUnsupportedColumnType
                          (OfColumnType (columnLib := specColumnLib) SpecStringColumn)
                          ["INT_COLUMN"%string])
                       [SegName "b"; SegIndex 1]).
Proof.
  destruct (X17_column_match_errors
              (columnLib := specColumnLib)
              [("a"%string, OfColumnType (columnLib := specColumnLib) SpecIntColumn);
               ("b"%string, OfColumnTypes (columnLib := specColumnLib)
                                          [SpecIntColumn; SpecStringColumn])]
              [("a"%string, VStr "INT_COLUMN|FLOAT_COLUMN");
               ("b"%string, VList [VStr "INT_COLUMN"])]
              eq_refl eq_refl) as [_ Herrors].
  destruct (Herrors [("a"%string, VStr "INT_COLUMN|FLOAT_COLUMN")] [] "b"%string
                    (VList [VStr "INT_COLUMN"]) eq_refl)
    as [_ [_ [_ [_ Hslice]]]]; [discriminate | reflexivity |].
  apply (Hslice "INT_COLUMN"%string [SpecIntColumn] SpecStringColumn [] eq_refl eq_refl).
  - repeat constructor.
  - cbn. intuition discriminate.
Defined.

(** * Maps in the matcher, and the values the caster accepts *)

(** X18.  The matcher on map schemas.  Against a generic map the runtime map
    matches exactly when each of its keys is a union string contained in the
    key type and each of its values matches the value type (the empty map
    always does).  Against any other map it matches exactly when both hold the
    same keys and the runtime entry of every schema key matches.  A nil
    runtime type is treated as the empty map, and a runtime type that is
    neither nil nor a map gives [UnsupportedDataType]. *)
Theorem X18_map_schemas_match :
  forall runtimeTypeMap schemaTypeMap : list (Scalar * Value),
    (forall keyType valType,
        genericMapOf schemaTypeMap = Some (keyType, valType) ->
        (CheckValueRuntimeTypesMatch (VMap runtimeTypeMap) (VMap schemaTypeMap) = Ok tt
         <-> Forall (fun e =>
                       (exists k, fst e = SStr k
                                  /\ forall p, In p (Split k pipe) -> In p (Split keyType pipe))
                       /\ CheckValueRuntimeTypesMatch (snd e) valType = Ok tt)
                    runtimeTypeMap))
    /\ (genericMapOf schemaTypeMap = None ->
        (CheckValueRuntimeTypesMatch (VMap runtimeTypeMap) (VMap schemaTypeMap) = Ok tt
         <-> (forall k, In k (map fst runtimeTypeMap) <-> In k (map fst schemaTypeMap))
             /\ Forall (fun e => exists r,
                            mapGet runtimeTypeMap (fst e) = Some r
                            /\ CheckValueRuntimeTypesMatch r (snd e) = Ok tt)
                       schemaTypeMap))
    /\ CheckValueRuntimeTypesMatch VNil (VMap schemaTypeMap)
       = CheckValueRuntimeTypesMatch (VMap []) (VMap schemaTypeMap)
    /\ (forall runtimeType,
           runtimeType <> VNil ->
           (forall m, runtimeType <> VMap m) ->
           CheckValueRuntimeTypesMatch runtimeType (VMap schemaTypeMap)
           = Err (raise (ErrorUnsupportedDataType runtimeType (VMap schemaTypeMap)))).
Proof.
  intros rm sm. split; [| split; [| split]].
  - intros keyType valType Hgen. rewrite CheckValueRuntimeTypesMatch_VMap, Hgen.
    cbn [InterfaceToInterfaceInterfaceMap]. rewrite matchGenericEntries_ok.
    split; apply Forall_impl; intros [k v]; cbn [fst snd]; rewrite matchUnion_ok.
    + intros [[r [[= ->] Hsub]] Hv]. split; [now exists r | assumption].
    + intros [[r [-> Hsub]] Hv]. split; [now exists r | assumption].
  - intros Hgen. rewrite CheckValueRuntimeTypesMatch_VMap, Hgen.
    cbn [InterfaceToInterfaceInterfaceMap].
    rewrite bind_unit_ok, matchFixedEntries_ok, checkKeysSupported_ok. split.
    + intros [Hfields Hkeys]. split; [| assumption].
      rewrite Forall_forall in Hfields, Hkeys. intros k. split.
      * intros Hin. apply in_map_iff in Hin. destruct Hin as [e [<- Hin]]. now apply Hkeys.
      * intros Hin. apply in_map_iff in Hin. destruct Hin as [e [<- Hin]].
        destruct (Hfields e Hin) as [r [Hget _]]. now apply mapGet_Some_keys in Hget.
    + intros [Hsame Hfields]. split; [assumption |].
      apply Forall_forall. intros e Hin. apply Hsame. now apply in_map.
  - now rewrite !CheckValueRuntimeTypesMatch_VMap.
  - intros runtimeType Hnil Hmap. rewrite CheckValueRuntimeTypesMatch_VMap.
    destruct runtimeType as [[ | | | | ] | items | m]; try reflexivity.
    + now contradiction Hnil.
    + now contradiction (Hmap m).
Qed.

Lemma X18_map_schemas_match_witness :
  CheckValueRuntimeTypesMatch (VMap [(SStr "INT", VStr "BOOL"); (SStr "FLOAT", VStr "BOOL")])
                              (VMap [(SStr "INT|FLOAT", VStr "BOOL|STRING")])
  = Ok tt.
Proof.
  apply (proj1 (X18_map_schemas_match
                  [(SStr "INT", VStr "BOOL"); (SStr "FLOAT", VStr "BOOL")]
                  [(SStr "INT|FLOAT", VStr "BOOL|STRING")])
               "INT|FLOAT"%string (VStr "BOOL|STRING") eq_refl).
  repeat constructor.
  - exists "INT"%string. split; [reflexivity |]. cbn. tauto.
  - exists "FLOAT"%string. split; [reflexivity |]. cbn. tauto.
Defined.

Section CastComplete.
Context {castLib : CastLib}.
Hypothesis int_keeps_int : forall n, exists m, InterfaceToInt64 (VInt n) = Some m.
Hypothesis float_keeps_float : forall f, exists g, InterfaceToFloat64 (VFloat f) = Some g.

Lemma castUnion_accepts (k : Scalar) (valueTypeStr : string) :
  k <> SNil ->
  scalarOfUnion valueTypeStr k ->
  exists c, castUnion (VScalar k) valueTypeStr = Ok c.
Proof.
  intros Hnil Hkind. unfold scalarOfUnion in Hkind. unfold castUnion.
  destruct k as [ | n | f | s | b]; cbn [kindOf] in Hkind; [now contradiction Hnil | ..].
  - rewrite Hkind. destruct (int_keeps_int n) as [m ->]. now eexists.
  - destruct (if hasKind _ IntegerValueType then _ else None); [now eexists |].
    rewrite Hkind. destruct (float_keeps_float f) as [g ->]. now eexists.
  - destruct (if hasKind _ IntegerValueType then _ else None); [now eexists |].
    destruct (if hasKind _ FloatValueType then _ else None); [now eexists |].
    rewrite Hkind. cbn [assertString]. now eexists.
  - destruct (if hasKind _ IntegerValueType then _ else None); [now eexists |].
    destruct (if hasKind _ FloatValueType then _ else None); [now eexists |].
    destruct (if hasKind _ StringValueType then _ else None); [now eexists |].
    rewrite Hkind. cbn [assertBool]. now eexists.
Qed.

Lemma castValueStr_accepts (k : Scalar) (valueTypeStr : string) :
  isValidValueType valueTypeStr = true ->
  scalarOfUnion valueTypeStr k ->
  is_ok (castValueStr (VScalar k) valueTypeStr) = true.
Proof.
  intros Hvalid Hkind. unfold castValueStr. rewrite ValidateValueType_VStr, Hvalid.
  cbn [bind ValidateValue].
  destruct k as [ | n | f | s | b]; [reflexivity | ..]; cbn [isNil].
  all: match goal with
       | |- is_ok (castUnion (VScalar ?k) _) = true =>
           destruct (castUnion_accepts k valueTypeStr ltac:(discriminate) Hkind) as [c ->]
       end; reflexivity.
Qed.

Lemma CastValue_accepts_conforming (valueType : Value) :
  forall value,
    ValidateValueType valueType = Ok tt ->
    uniqueKeys valueType ->
    conforms value valueType ->
    is_ok (CastValue value valueType) = true.
Proof.
  induction valueType as [k | items _ | typeEntries IH] using Value_nested_ind;
    intros value Hvalid Huniq Hconf.
  - inversion Hconf as [t | k' s Hkind | | | |]; subst.
    + now rewrite (CastValue_nil _ Hvalid).
    + rewrite ValidateValueType_VStr in Hvalid.
      destruct (isValidValueType s) eqn:Hs; [| discriminate].
      rewrite CastValue_VStr, is_ok_bind_scalar. now apply castValueStr_accepts.
  - inversion Hconf as [t | | vs s Hitems | | |]; subst.
    + now rewrite (CastValue_nil _ Hvalid).
    + destruct (ValidateValueType_VList _ Hvalid) as [s' [[= <-] Hs]].
      rewrite (CastValue_list vs s Hs).
      assert (Hbind : forall r : result (list Value),
                 is_ok (valueSliceCasted <- r ;; Ok (VList valueSliceCasted)) = is_ok r)
        by (now intros [| |]).
      rewrite Hbind, castItems_ok. eapply Forall_impl; [| exact Hitems].
      intros item [k [-> Hkind]]. now apply castValueStr_accepts.
  - pose proof (ValidateValueType_VMap_values _ Hvalid) as Hvalids.
    apply uniqueKeys_VMap in Huniq. destruct Huniq as [Hnd Huniqs].
    rewrite Forall_forall in IH, Hvalids, Huniqs.
    inversion Hconf as [t | | | | entries keyType valType Hkey Hend Hentries
                        | entries tm Hne Hgen Hfields]; subst.
    + now rewrite (CastValue_nil _ Hvalid).
    + reflexivity.
    + rewrite (CastValue_generic entries keyType valType Hvalid Hkey). unfold castGenericMap.
      assert (Hbind : forall r : result (list (Scalar * Value)),
                 is_ok (valueMapCasted <- r ;; Ok (VMap valueMapCasted)) = is_ok r)
        by (now intros [| |]).
      rewrite Hbind, castGenericEntries_ok. eapply Forall_impl; [| exact Hentries].
      intros e [Hk Hv]. split; [now apply castValueStr_accepts |].
      apply (IH (SStr keyType, valType) (or_introl eq_refl)); [| | assumption].
      * exact (Hvalids (SStr keyType, valType) (or_introl eq_refl)).
      * exact (Huniqs (SStr keyType, valType) (or_introl eq_refl)).
    + rewrite (CastValue_fixed entries typeEntries Hvalid Hne Hgen).
      apply is_ok_true. apply castFixedMap_ok.
      assert (Hkeys : map fst entries = map fst typeEntries).
      { clear - Hfields. induction Hfields as [| e t es ts [Hk _] _ IHf]; [reflexivity |].
        cbn. now rewrite Hk, IHf. }
      split.
      * apply Forall_forall. intros [k t] Hin.
        destruct (Forall2_In_right _ _ _ _ _ _ Hfields Hin) as [[k' v] [Hvin [Hk Hv]]].
        cbn [fst snd] in Hk, Hv. subst k'. unfold fieldCasts. cbn [fst snd].
        assert (Hok : is_ok (CastValue v t) = true).
        { apply (IH (k, t) Hin); [exact (Hvalids _ Hin) | exact (Huniqs _ Hin) | assumption]. }
        apply is_ok_true in Hok. destruct Hok as [c Hc]. exists v, c.
        split; [| assumption]. apply mapGet_NoDup_In; [now rewrite Hkeys | assumption].
      * apply Forall_forall. intros e Hin. rewrite <- Hkeys. now apply in_map.
Qed.
End CastComplete.

(** X19.  With numeric coercions that accept an integer as an integer and a
    float as a float, the caster accepts every value of a validated type:
    nil, a scalar of a kind of the union, a sequence of such scalars, a map
    of the type map's shape. *)
Theorem X19_cast_accepts_values_of_the_type {castLib : CastLib} :
  (forall n, exists m, InterfaceToInt64 (VInt n) = Some m) ->
  (forall f, exists g, InterfaceToFloat64 (VFloat f) = Some g) ->
  forall value valueType : Value,
    ValidateValueType valueType = Ok tt ->
    uniqueKeys valueType ->
    conforms value valueType ->
    exists casted, CastValue value valueType = Ok casted.
Proof.
  intros Hint Hfloat value valueType Hvalid Huniq Hconf. apply is_ok_true.
  now apply (CastValue_accepts_conforming Hint Hfloat).
Qed.

Lemma X19_cast_accepts_values_of_the_type_witness :
  exists casted,
    CastValue (castLib := specCastLib)
              (VMap [(SStr "a", VList [VInt 1; VNil]); (SStr "b", VStr "x")])
              (VMap [(SStr "a", VList [VStr "INT"]); (SStr "b", VStr "FLOAT|STRING")])
    = Ok casted.
Proof.
  apply (X19_cast_accepts_values_of_the_type (castLib := specCastLib)).
  - intros n. now exists n.
  - intros f. now exists f.
  - reflexivity.
  - cbn. split; [| tauto]. repeat constructor; cbn; intuition discriminate.
  - apply conforms_fixed; [discriminate | reflexivity |].
    repeat constructor; cbn [fst snd]; eexists; split; reflexivity.
Defined.
